(** * The task-graph engine of data-workflow ([workflow/tasks/graph.py])

    A shallow embedding of [TaskGraph]: construction ([add],
    [_dereference_depends_aliases], [_link_dependencies], [_load_state]),
    traversal ([iter_graph]), identifier resolution ([get_tasks],
    [subgraph_needed_for]), the state store ([read_from_storage],
    [write_to_storage], [save_state]), the duration estimate
    ([duration_string], [duration_message]) and the scheduler
    ([_run_helper], [run_all], [run_all_out_of_sync]).

    Python objects are modelled as follows.
    - A task object is identified by its position in [task_list] (its
      handle); sets of tasks are [gset handle].
    - An instance method that mutates [self] and may raise is a function
      [S -> S * result A]: the mutation done before a [raise] stays.
    - The classes [Task] and [Resource], the [exceptions] module and the
      Python runtime (set and dict iteration order, [float], [str]) are
      not part of graph.py; they are interfaces (type classes) here. *)

From Stdlib Require Import Ascii.
From Stdlib Require Uint63.
From Stdlib Require Import PrimFloat FloatOps.
From stdpp Require Import base gmap sets list strings pretty.

Local Open Scope string_scope.
Local Open Scope list_scope.
Local Open Scope nat_scope.
Set Warnings "-clear-no-such-hyp".

(** ** Exceptions and the state-and-exception monad *)

Inductive exception : Type :=
| NonUniqueTask (msg : string)
| InvalidTaskDefinition (msg : string)
| ShellError (exit_code : option Z)
| KeyboardInterrupt
| SystemExit (code : Z)
| AttributeError (attr : string)
| IndexError
| TypeError
| ValueError
| KeyError (key : string).

Inductive result (A : Type) : Type :=
| Ok (a : A)
| Raise (e : exception).
Arguments Ok {A} a.
Arguments Raise {A} e.

Definition M (S A : Type) : Type := S → S * result A.

Definition ret {S A} (a : A) : M S A := λ s, (s, Ok a).
Definition raise {S A} (e : exception) : M S A := λ s, (s, Raise e).
Definition bind {S A B} (k : A → M S B) (c : M S A) : M S B :=
  λ s, match c s with
       | (s', Ok a) => k a s'
       | (s', Raise e) => (s', Raise e)
       end.
Definition get {S} : M S S := λ s, (s, Ok s).
Definition modify {S} (f : S → S) : M S unit := λ s, (f s, Ok tt).

#[global] Instance M_ret {S} : MRet (M S) := λ A, @ret S A.
#[global] Instance M_bind {S} : MBind (M S) := λ A B, @bind S A B.

(** [for x in l: body x] *)
Fixpoint for_each {S A} (l : list A) (body : A → M S unit) : M S unit :=
  match l with
  | [] => ret tt
  | x :: l' => body x;; for_each l' body
  end.

(** ** Data model *)

(** A handle is the position of a task in [task_list]. *)
Abbreviation handle := nat (only parsing).

(** [task.depends]: a single identifier (or [None]), a list or a tuple. *)
Inductive depends_value : Type :=
| DependsScalar (d : option string)
| DependsList (ds : list (option string))
| DependsTuple (ds : list (option string)).

(** The declaration record of a task ([task_kwargs], kept as
    [task.yaml_data]). *)
Record Declaration : Type := mkDeclaration {
  decl_creates : string;
  decl_alias : option string;
  decl_depends : depends_value;
  decl_tags : list string;
  decl_command : option string
}.

Record Task : Type := mkTask {
  yaml_data : Declaration;
  creates : string;
  alias : option string;
  depends : depends_value;
  upstream_tasks : gset handle;
  downstream_tasks : gset handle;
  depends_resources : list string;
  creates_resources : list string
}.

Record Resource : Type := mkResource { resource_name : string }.

Record TaskGraph : Type := mkTaskGraph {
  config_path : string;
  task_list : list Task;
  task_dict : gmap string handle;
  resource_dict : gmap string Resource;
  task_durations : gmap string float;
  successful : bool
}.

Definition set_task_list (f : list Task → list Task) (g : TaskGraph) :=
  mkTaskGraph (config_path g) (f (task_list g)) (task_dict g)
    (resource_dict g) (task_durations g) (successful g).
Definition set_task_dict (f : gmap string handle → gmap string handle)
    (g : TaskGraph) :=
  mkTaskGraph (config_path g) (task_list g) (f (task_dict g))
    (resource_dict g) (task_durations g) (successful g).
Definition set_resource_dict
    (f : gmap string Resource → gmap string Resource) (g : TaskGraph) :=
  mkTaskGraph (config_path g) (task_list g) (task_dict g)
    (f (resource_dict g)) (task_durations g) (successful g).
Definition set_task_durations
    (f : gmap string float → gmap string float) (g : TaskGraph) :=
  mkTaskGraph (config_path g) (task_list g) (task_dict g)
    (resource_dict g) (f (task_durations g)) (successful g).

Definition set_depends (d : depends_value) (t : Task) : Task :=
  mkTask (yaml_data t) (creates t) (alias t) d (upstream_tasks t)
    (downstream_tasks t) (depends_resources t) (creates_resources t).
Definition set_upstream (f : gset handle → gset handle) (t : Task) : Task :=
  mkTask (yaml_data t) (creates t) (alias t) (depends t)
    (f (upstream_tasks t)) (downstream_tasks t) (depends_resources t)
    (creates_resources t).
Definition set_downstream (f : gset handle → gset handle) (t : Task) : Task :=
  mkTask (yaml_data t) (creates t) (alias t) (depends t)
    (upstream_tasks t) (f (downstream_tasks t)) (depends_resources t)
    (creates_resources t).
Definition set_resources (d c : list string) (t : Task) : Task :=
  mkTask (yaml_data t) (creates t) (alias t) (depends t)
    (upstream_tasks t) (downstream_tasks t) d c.

(** ** [TaskGraph.add] *)

(** [add]: the task is appended to [task_list] first; then its alias (when
    it has one) and its [creates] are entered in [task_dict], each after a
    check that the key is new. *)
Definition add (task : Task) : M TaskGraph unit :=
  g ← get;
  let h : handle := length (task_list g) in
  modify (set_task_list (λ l, (l ++ [task])%list));;
  (match alias task with
   | Some a =>
       g1 ← get;
       if bool_decide (a ∈ dom (task_dict g1))
       then raise (NonUniqueTask ("task `alias` '" +:+ a +:+ "' is not unique"))
       else modify (set_task_dict (λ d, <[a := h]> d))
   | None => ret tt
   end);;
  g2 ← get;
  if bool_decide (creates task ∈ dom (task_dict g2))
  then raise (NonUniqueTask
                ("task `creates` '" +:+ creates task +:+ "' is not unique"))
  else modify (set_task_dict (λ d, <[creates task := h]> d)).

(** Modelled from the spec: the constructor of [Task] (workflow/tasks/task.py
    is not part of the sources). A task is "created once at
    graph-construction time from a declaration record", keeps the record
    verbatim, starts with no upstream and no downstream link, and is
    connected to the graph through [add]. *)
Definition Task_new (kw : Declaration) : Task :=
  mkTask kw (decl_creates kw) (decl_alias kw) (decl_depends kw) ∅ ∅ [] [].

Definition Task_init (kw : Declaration) : M TaskGraph unit :=
  add (Task_new kw).

(** ** The workspace and the collaborators of the graph *)

(** A CSV file is the list of its rows, a row the list of its cells. *)
Definition csv_row := list string.

(** The part of the outside world the graph reads and writes: the two
    tables under [.workflow] ([None]: the file does not exist), the other
    paths that exist, with their content, and the working directory. *)
Record World : Type := mkWorld {
  state_csv : option (list csv_row);
  duration_csv : option (list csv_row);
  disk : gmap string string;
  cwd : string
}.

Definition set_state_csv (rows : list csv_row) (w : World) : World :=
  mkWorld (Some rows) (duration_csv w) (disk w) (cwd w).
Definition set_duration_csv (rows : list csv_row) (w : World) : World :=
  mkWorld (state_csv w) (Some rows) (disk w) (cwd w).
Definition set_disk (f : gmap string string → gmap string string)
    (w : World) : World :=
  mkWorld (state_csv w) (duration_csv w) (f (disk w)) (cwd w).

(** A graph instance together with the world it runs in. *)
Record Machine : Type := mkMachine { self : TaskGraph; world : World }.

Definition on_self {A} (c : M TaskGraph A) : M Machine A :=
  λ m, let '(g, r) := c (self m) in (mkMachine g (world m), r).
Definition on_world {A} (c : M World A) : M Machine A :=
  λ m, let '(w, r) := c (world m) in (mkMachine (self m) w, r).

(** What graph.py uses of the Python runtime. The iteration order of a
    [set] and of a [dict] is not fixed by the language: [set_iter n s] is
    the order in which the [n]-th iteration of a traversal enumerates [s],
    [dict_items d] the order of [d.iteritems()]; both are only known to
    enumerate every element once. [float_of_string] is [float(s)]
    ([None]: [ValueError]), [str_of_float] the text the CSV writer
    produces for a float. *)
Class PyRuntime : Type := {
  set_iter : nat → gset handle → list handle;
  set_iter_perm : ∀ n s, set_iter n s ≡ₚ elements s;
  dict_items : ∀ {V : Type}, gmap string V → list (string * V);
  dict_items_perm : ∀ {V : Type} (d : gmap string V),
    dict_items d ≡ₚ map_to_list d;
  float_of_string : string → option float;
  str_of_float : float → string;
  os_path_join : string → string → string;
  os_path_dirname : string → string;
  os_path_relpath : string → string → string
}.

(** What graph.py calls on a task and on a resource, and [colors.blue]
    (task.py, the resources package and the colors module are not part of
    the sources). An exception raised by [timed_run] is returned next to
    the state the run left behind. *)
Class Collaborators : Type := {
  Task_id : Task → string;
  Task_name : Task → string;
  is_pseudotask : Task → bool;
  has_tag : Task → string → bool;
  in_sync : Task → Machine → bool;
  timed_run : Task → Machine → Machine * option exception;
  mock_run : Task → Machine → Machine;
  get_current_state : Resource → World → string;
  colors_blue : string → string
}.

(** ** Alias dereferencing *)

Fixpoint find_alias (tasks : list Task) (name : string) : option string :=
  match tasks with
  | [] => None
  | task :: tasks' =>
      if bool_decide (alias task = Some name) then Some (creates task)
      else find_alias tasks' name
  end.

Definition _dereference_alias_helper (g : TaskGraph) (name : option string)
    : option string :=
  match name with
  | None => None
  | Some n => find_alias (task_list g) n
  end.

(** [for i, d in enumerate(depends): ... depends[i] = dd] on a list:
    [todo] is what is left to enumerate from index [i], [cur] the list
    as mutated so far. *)
Fixpoint dereference_list (g : TaskGraph) (i : nat)
    (todo cur : list (option string)) : list (option string) :=
  match todo with
  | [] => cur
  | d :: todo' =>
      dereference_list g (S i) todo'
        (match _dereference_alias_helper g d with
         | Some dd => <[i := Some dd]> cur
         | None => cur
         end)
  end.

(** The same loop on a tuple: the first item assignment raises. *)
Fixpoint dereference_tuple (g : TaskGraph) (todo : list (option string))
    : result unit :=
  match todo with
  | [] => Ok tt
  | d :: todo' =>
      match _dereference_alias_helper g d with
      | Some _ => Raise TypeError
      | None => dereference_tuple g todo'
      end
  end.

(** The body of the loop of [_dereference_depends_aliases] for one task. *)
Definition dereference_task (g : TaskGraph) (task : Task) : result Task :=
  match depends task with
  | DependsList ds =>
      Ok (set_depends (DependsList (dereference_list g 0 ds ds)) task)
  | DependsTuple ds =>
      match dereference_tuple g ds with
      | Ok _ => Ok task
      | Raise e => Raise e
      end
  | DependsScalar d =>
      match _dereference_alias_helper g d with
      | Some dd => Ok (set_depends (DependsScalar (Some dd)) task)
      | None => Ok task
      end
  end.

Definition _dereference_depends_aliases : M TaskGraph unit :=
  g ← get;
  for_each (seq 0 (length (task_list g))) (λ k,
    g' ← get;
    match task_list g' !! k with
    | Some task =>
        match dereference_task g' task with
        | Ok task' => modify (set_task_list (λ l, <[k := task']> l))
        | Raise e => raise e
        end
    | None => ret tt
    end).

(** ** The state store: reading and writing the two tables *)

Inductive storage_location : Type := StatePath | DurationPath.

Definition open_csv (loc : storage_location) (w : World)
    : option (list csv_row) :=
  match loc with
  | StatePath => state_csv w
  | DurationPath => duration_csv w
  end.

(** [for row in reader: dictionary[row[0]] = row[1]] *)
Fixpoint read_rows (rows : list csv_row) (dictionary : gmap string string)
    : result (gmap string string) :=
  match rows with
  | [] => Ok dictionary
  | row :: rows' =>
      match row with
      | k :: v :: _ => read_rows rows' (<[k := v]> dictionary)
      | _ => Raise IndexError
      end
  end.

Definition read_from_storage (loc : storage_location) (w : World)
    : result (gmap string string) :=
  match open_csv loc w with
  | Some rows => read_rows rows ∅
  | None => Ok ∅
  end.

Section runtime.
Context `{PyRuntime}.

(** [write_to_storage]: one row per item of the dictionary; [cell] is the
    text the writer produces for a value. *)
Definition write_to_storage {V} (cell : V → string) (dictionary : gmap string V)
    (loc : storage_location) (w : World) : World :=
  let rows := (λ item : string * V, [item.1; cell item.2])
                <$> dict_items dictionary in
  match loc with
  | StatePath => set_state_csv rows w
  | DurationPath => set_duration_csv rows w
  end.

(** [float(duration)] for every entry read from the duration table. *)
Fixpoint parse_durations (items : list (string * string))
    : option (list (string * float)) :=
  match items with
  | [] => Some []
  | (task_id, duration) :: items' =>
      match float_of_string duration, parse_durations items' with
      | Some x, Some rest => Some ((task_id, x) :: rest)
      | _, _ => None
      end
  end.

(** [_load_state]: only the duration table is read. The entries read
    replace those of [task_durations] with the same key. When a row is too
    short ([IndexError]) or a value is not a float ([ValueError]) the
    exception leaves the constructor and the graph is never used; the
    model keeps [task_durations] as it was in that case. *)
Definition _load_state : M Machine unit :=
  m ← get;
  match read_from_storage DurationPath (world m) with
  | Raise e => raise e
  | Ok table =>
      match parse_durations (dict_items table) with
      | Some parsed =>
          on_self (modify (set_task_durations
                             (λ d, list_to_map parsed ∪ d)))
      | None => raise ValueError
      end
  end.

Context `{Collaborators}.

(** [save_state]: the state table is read afresh, the current state of
    every resource of this graph is laid over it, then the overrides (when
    a dict is given), and both tables are written. *)
Definition save_state (override_resource_states : option (gmap string string))
    : M Machine unit :=
  m ← get;
  match read_from_storage StatePath (world m) with
  | Raise e => raise e
  | Ok table =>
      let after_resource_states :=
        foldl (λ acc item, <[item.1 := get_current_state item.2 (world m)]> acc)
              table (dict_items (resource_dict (self m))) in
      let after_resource_states :=
        match override_resource_states with
        | Some overrides => overrides ∪ after_resource_states
        | None => after_resource_states
        end in
      on_world (modify (write_to_storage id after_resource_states StatePath));;
      m' ← get;
      on_world (modify (write_to_storage str_of_float
                          (task_durations (self m')) DurationPath))
  end.

(** [get_state_from_storage]: the state of one resource, looked up in the
    file on demand; the first row with that name wins. *)
Fixpoint state_of_rows (rows : list csv_row) (resource : string)
    : result (option string) :=
  match rows with
  | [] => Ok None
  | row :: rows' =>
      match row with
      | [] => Raise IndexError
      | k :: rest =>
          if bool_decide (k = resource) then
            match rest with
            | v :: _ => Ok (Some v)
            | [] => Raise IndexError
            end
          else state_of_rows rows' resource
      end
  end.

Definition get_state_from_storage (resource : string) (w : World)
    : result (option string) :=
  match state_csv w with
  | Some rows => state_of_rows rows resource
  | None => Ok None
  end.

End runtime.

(** ** Dependency linking and the constructor *)

Section construction.
Context `{PyRuntime} `{Collaborators}.

Definition internals_path : string := ".workflow".
Definition state_path : string := os_path_join internals_path "state.csv".
Definition archive_dir : string := os_path_join internals_path "archive".

Definition root_directory (g : TaskGraph) : string :=
  os_path_dirname (config_path g).
Definition abs_state_path (g : TaskGraph) : string :=
  os_path_join (root_directory g) state_path.
Definition abs_archive_dir (g : TaskGraph) : string :=
  os_path_join (root_directory g) archive_dir.

Definition os_path_exists (p : string) (w : World) : bool :=
  bool_decide (p ∈ dom (disk w)).

(** [os.makedirs]: the directory exists afterwards. *)
Definition os_makedirs (p : string) : M World unit :=
  modify (set_disk (λ d, <[p := ""]> d)).

(** Modelled from the spec: the properties [depends_list] and
    [creates_list] of [Task] (task.py is not part of the sources):
    [depends] is a "single identifier or ordered sequence of
    identifiers", [creates] one identifier. *)
Definition depends_list (task : Task) : list (option string) :=
  match depends task with
  | DependsScalar d => [d]
  | DependsList ds => ds
  | DependsTuple ds => ds
  end.
Definition creates_list (task : Task) : list (option string) :=
  [Some (creates task)].

(** Modelled from the spec: [resources.get_or_create] (the resources
    package is not part of the sources): "resource objects for all
    depends and creates identifiers are instantiated (or reused if already
    present) into the graph's resource mapping". *)
Definition get_or_create (names : list (option string))
    : M TaskGraph (list string) :=
  let names' := omap id names in
  modify (set_resource_dict (λ rd,
    foldl (λ rd n, match rd !! n with
                   | Some _ => rd
                   | None => <[n := mkResource n]> rd
                   end) rd names'));;
  ret names'.

(** Modelled from the spec: [Task.add_task_dependency] (task.py is not part
    of the sources): "register a bidirectional upstream/downstream link"
    between the task [k] and the task [h] it depends on. *)
Definition add_task_dependency (k h : handle) : M TaskGraph unit :=
  modify (set_task_list (λ l, alter (set_upstream (λ s, s ∪ {[h]})) k l));;
  modify (set_task_list (λ l, alter (set_downstream (λ s, s ∪ {[k]})) h l)).

Definition _link_dependency_helper (k : handle) (dependency : option string)
    : M Machine unit :=
  match dependency with
  | None => ret tt
  | Some dep =>
      m ← get;
      match task_dict (self m) !! dep with
      | None =>
          let filename := os_path_join (root_directory (self m)) dep in
          if os_path_exists filename (world m) then ret tt
          else raise (InvalidTaskDefinition
                        ("Unknown `depends` declaration '" +:+ dep +:+ "'"))
      | Some dependent_task => on_self (add_task_dependency k dependent_task)
      end
  end.

Definition _link_dependencies : M Machine unit :=
  m ← get;
  for_each (seq 0 (length (task_list (self m)))) (λ k,
    m1 ← get;
    match task_list (self m1) !! k with
    | None => ret tt
    | Some task =>
        dr ← on_self (get_or_create (depends_list task));
        cr ← on_self (get_or_create (creates_list task));
        on_self (modify (set_task_list (λ l, alter (set_resources dr cr) k l)));;
        (if is_pseudotask task then
           on_self (modify (set_task_list (λ l, alter (set_resources dr []) k l)));;
           on_self (modify (set_resource_dict (λ rd, delete (creates task) rd)))
         else ret tt);;
        for_each (depends_list task) (_link_dependency_helper k)
    end).

(** The attributes [__init__] sets before any task is added. *)
Definition empty_graph (path : string) : TaskGraph :=
  mkTaskGraph path [] ∅ ∅ ∅ false.

(** [TaskGraph.__init__], run on a machine whose [self] is the instance
    being initialised. [logger.configure] is left out. *)
Definition TaskGraph_init (path : string) (task_kwargs_list : list Declaration)
    : M Machine unit :=
  on_self (modify (λ _, empty_graph path));;
  m ← get;
  let directory := os_path_dirname (abs_state_path (self m)) in
  (if os_path_exists directory (world m) then ret tt
   else on_world (os_makedirs directory));;
  m1 ← get;
  (if os_path_exists (abs_archive_dir (self m1)) (world m1) then ret tt
   else on_world (os_makedirs (abs_archive_dir (self m1))));;
  for_each task_kwargs_list (λ task_kwargs, on_self (Task_init task_kwargs));;
  on_self _dereference_depends_aliases;;
  _link_dependencies;;
  _load_state.

End construction.

(** ** Graph traversal *)

Section traversal.
Context `{PyRuntime}.

Definition is_source (g : TaskGraph) (k : handle) : bool :=
  match task_list g !! k with
  | Some task => bool_decide (upstream_tasks task = ∅)
  | None => false
  end.
Definition is_sink (g : TaskGraph) (k : handle) : bool :=
  match task_list g !! k with
  | Some task => bool_decide (downstream_tasks task = ∅)
  | None => false
  end.

Definition get_source_tasks (g : TaskGraph) : gset handle :=
  list_to_set (filter (λ k, is_source g k) (seq 0 (length (task_list g)))).
Definition get_sink_tasks (g : TaskGraph) : gset handle :=
  list_to_set (filter (λ k, is_sink g k) (seq 0 (length (task_list g)))).

(** [deque.popleft] and [deque.pop]. *)
Definition popleft (horizon : list handle) : option (handle * list handle) :=
  match horizon with
  | [] => None
  | task :: horizon' => Some (task, horizon')
  end.
Fixpoint pop (horizon : list handle) : option (handle * list handle) :=
  match horizon with
  | [] => None
  | task :: horizon' =>
      match pop horizon' with
      | None => Some (task, [])
      | Some (last, rest) => Some (last, task :: rest)
      end
  end.

(** [downstream] selects both the end the horizon is popped from and the
    attribute that is followed. *)
Definition popmethod (downstream : bool) :=
  if downstream then popleft else pop.
Definition updownset (g : TaskGraph) (downstream : bool) (k : handle)
    : gset handle :=
  match task_list g !! k with
  | Some task =>
      if downstream then downstream_tasks task else upstream_tasks task
  | None => ∅
  end.

(** The local variables of the loop of [iter_graph]. *)
Record iter_state : Type := mkIterState {
  horizon : list handle;
  horizon_set : gset handle;
  done : gset handle;
  task_order : list handle
}.

(** [if task not in horizon_set: horizon.append(task); horizon_set.add(task)] *)
Definition enqueue (st : list handle * gset handle) (task : handle)
    : list handle * gset handle :=
  if bool_decide (task ∈ st.2) then st
  else ((st.1 ++ [task])%list, st.2 ∪ {[task]}).

(** One iteration of the [while horizon] loop; [None] when the horizon is
    empty. *)
Definition iter_step (g : TaskGraph) (downstream : bool) (st : iter_state)
    : option iter_state :=
  match popmethod downstream (horizon st) with
  | None => None
  | Some (task, horizon') =>
      let horizon_set' := horizon_set st ∖ {[task]} in
      let done' := done st ∪ {[task]} in
      let task_order' := (task_order st ++ [task])%list in
      let neighbours :=
        set_iter (length task_order') (updownset g downstream task ∖ done') in
      let '(horizon'', horizon_set'') :=
        foldl enqueue (horizon', horizon_set') neighbours in
      Some (mkIterState horizon'' horizon_set'' done' task_order')
  end.

Fixpoint iter_loop (fuel : nat) (g : TaskGraph) (downstream : bool)
    (st : iter_state) : iter_state :=
  match fuel with
  | 0 => st
  | S fuel' =>
      match iter_step g downstream st with
      | None => st
      | Some st' => iter_loop fuel' g downstream st'
      end
  end.

(** Every handle that occurs in a link of the graph. *)
Definition linked_handles (g : TaskGraph) : gset handle :=
  ⋃ ((λ task, upstream_tasks task ∪ downstream_tasks task) <$> task_list g).

(** A bound on the number of iterations left: every iteration removes one
    task from the horizon, and every task it appends leaves the set of
    linked tasks that are neither done nor pending. *)
Definition iter_measure (g : TaskGraph) (st : iter_state) : nat :=
  length (horizon st)
  + 2 * size (linked_handles g ∖ (done st ∪ horizon_set st)).

(** [tasks or self.get_source_tasks()] (or the sink tasks): [None] and the
    empty list both select the default start set. *)
Definition start_tasks (g : TaskGraph) (tasks : option (list handle))
    (downstream : bool) : list handle :=
  match tasks with
  | Some (task :: tasks') => task :: tasks'
  | _ => set_iter 0 (if downstream then get_source_tasks g
                     else get_sink_tasks g)
  end.

Definition iter_init (g : TaskGraph) (tasks : option (list handle))
    (downstream : bool) : iter_state :=
  let tasks := start_tasks g tasks downstream in
  mkIterState tasks (list_to_set tasks) ∅ [].

(** [iter_graph]: the loop is run for as many iterations as
    [iter_measure] allows, which is enough for the horizon to be empty at
    the end ([iter_graph_terminates]). *)
Definition iter_final (g : TaskGraph) (tasks : option (list handle))
    (downstream : bool) : iter_state :=
  let st := iter_init g tasks downstream in
  iter_loop (iter_measure g st) g downstream st.

Definition iter_graph (g : TaskGraph) (tasks : option (list handle))
    (downstream : bool) : list handle :=
  task_order (iter_final g tasks downstream).

End traversal.

(** ** Identifier resolution and subgraph extraction *)

Section resolution.
Context `{PyRuntime} `{Collaborators}.

(** The task objects behind a list of handles (a handle handed out by the
    graph always denotes one of its tasks). *)
Definition tasks_of (g : TaskGraph) (hs : list handle) : list Task :=
  omap (λ k, task_list g !! k) hs.

(** [not task.is_pseudotask() and not task.in_sync()] *)
Definition out_of_sync (m : Machine) (k : handle) : bool :=
  match task_list (self m) !! k with
  | Some task => negb (is_pseudotask task) && negb (in_sync task m)
  | None => false
  end.

Definition get_out_of_sync_tasks (m : Machine) : list handle :=
  filter (λ k, out_of_sync m k) (iter_graph (self m) None true).

Definition tagged (g : TaskGraph) (tag : string) (k : handle) : bool :=
  match task_list g !! k with
  | Some task => has_tag task tag
  | None => false
  end.

(** [get_tasks]: an id or alias answers with its task. Otherwise the tasks
    carrying the tag are collected in [tasks], but what is returned is
    [self.tag_dict.get(task)], and a [TaskGraph] has no attribute
    [tag_dict]. *)
Definition get_tasks (g : TaskGraph) (task_id_or_tag : string)
    : result (list handle) :=
  match task_dict g !! task_id_or_tag with
  | Some task => Ok [task]
  | None =>
      let tasks :=
        filter (λ k, tagged g task_id_or_tag k)
               (seq 0 (length (task_list g))) in
      Raise (AttributeError "tag_dict")
  end.

(** What a method that answers with a graph returns: the receiver itself,
    or an instance constructed during the call. *)
Inductive graph_ref : Type :=
| This
| Fresh (g : TaskGraph).

(** [tasks.extend(self.get_tasks(task_id))] for every requested id. *)
Fixpoint collect_tasks (g : TaskGraph) (task_ids : list string)
    (tasks : list handle) : result (list handle) :=
  match task_ids with
  | [] => Ok tasks
  | task_id :: task_ids' =>
      match get_tasks g task_id with
      | Ok found => collect_tasks g task_ids' (tasks ++ found)%list
      | Raise e => Raise e
      end
  end.

(** [TaskGraph(config_path, task_kwargs_list)] called from a method: the
    new instance is initialised in the same world; what its constructor
    did to the world stays, also when it raises. *)
Definition TaskGraph_new (path : string) (task_kwargs_list : list Declaration)
    : M Machine graph_ref :=
  λ m,
    let '(m', r) :=
      TaskGraph_init path task_kwargs_list
        (mkMachine (empty_graph path) (world m)) in
    (mkMachine (self m) (world m'),
     match r with
     | Ok _ => Ok (Fresh (self m'))
     | Raise e => Raise e
     end).

(** [subgraph_needed_for]: [None] and the empty list are both falsy. *)
Definition subgraph_needed_for (task_ids : option (list string))
    : M Machine graph_ref :=
  match task_ids with
  | None | Some [] => ret This
  | Some task_ids =>
      m ← get;
      match collect_tasks (self m) task_ids [] with
      | Raise e => raise e
      | Ok tasks =>
          let tasks_kwargs_list :=
            yaml_data <$> tasks_of (self m)
                            (iter_graph (self m) (Some tasks) false) in
          TaskGraph_new (config_path (self m)) tasks_kwargs_list
      end
  end.

End resolution.

(** ** Duration estimate *)

(** ["%.2f" % x]: the decimal expansion of the float, correctly rounded to
    two places (ties to even), with the sign of the float. [n] is the
    value in hundredths. *)
Definition hundredths (m : positive) (e : Z) : Z :=
  if (0 <=? e)%Z then Z.pos m * 2 ^ e * 100
  else
    let num := (Z.pos m * 100)%Z in
    let den := (2 ^ (- e))%Z in
    let q := (num `div` den)%Z in
    let r := (num `mod` den)%Z in
    if (den <? 2 * r)%Z then (q + 1)%Z
    else if (2 * r =? den)%Z && Z.odd q then (q + 1)%Z
    else q.

Definition two_digits (n : Z) : string :=
  pretty (n `div` 10)%Z +:+ pretty (n `mod` 10)%Z.

Definition format_2f (x : float) : string :=
  match Prim2SF x with
  | SpecFloat.S754_nan => "nan"
  | SpecFloat.S754_infinity s => if s then "-inf" else "inf"
  | SpecFloat.S754_zero s => if s then "-0.00" else "0.00"
  | SpecFloat.S754_finite s m e =>
      let n := hundredths m e in
      (if s then "-" else "") +:+ pretty (n `div` 100)%Z +:+ "."
        +:+ two_digits (n `mod` 100)%Z
  end.

Definition duration_string (duration : float) : string :=
  if (duration <? 10 * 60)%float then format_2f duration +:+ " s"
  else if (duration <? 2 * 60 * 60)%float then
    format_2f (duration / 60)%float +:+ " m"
  else if (duration <? 2 * 60 * 60 * 24)%float then
    format_2f (duration / 60 / 60)%float +:+ " h"
  else format_2f (duration / 60 / 60 / 24)%float +:+ " d".

Section estimate.
Context `{PyRuntime} `{Collaborators}.

(** The three counters of the second loop of [duration_message]. *)
Definition count_task (g : TaskGraph) (acc : float * nat * nat) (task : Task)
    : float * nat * nat :=
  let '(max_duration, n_unknown, n_tasks) := acc in
  if is_pseudotask task then acc
  else
    match task_durations g !! Task_id task with
    | Some d => ((max_duration + d)%float, n_unknown, S n_tasks)
    | None => (max_duration, S n_unknown, S n_tasks)
    end.

Definition newline : string := String (Ascii.ascii_of_nat 10) "".

Definition duration_message (m : Machine) (tasks : list handle)
    (color : option (string → string)) : string :=
  let g := self m in
  if bool_decide (length tasks = 0) then
    "No tasks are out of sync in this workflow ("
      +:+ os_path_relpath (config_path g) (cwd (world m)) +:+ ")"
  else
    let min_duration :=
      foldl (λ acc task,
               (acc + default 0%float (task_durations g !! Task_id task))%float)
            0%float (tasks_of g tasks) in
    let '(max_duration, n_unknown, n_tasks) :=
      foldl (count_task g) (0%float, 0, 0)
            (tasks_of g (iter_graph g (Some tasks) true)) in
    let msg := "" in
    let msg :=
      if bool_decide (0 < n_unknown) then
        msg +:+ pretty n_unknown +:+ " new tasks with unknown durations."
            +:+ newline
      else msg in
    let msg :=
      msg +:+ "The remaining " +:+ pretty (length tasks) +:+ "-"
          +:+ pretty n_tasks +:+ " tasks need to be executed," +:+ newline in
    let msg :=
      if (max_duration =? min_duration)%float && (min_duration =? 0)%float
      then msg +:+ "which will take an indeterminate amount of time."
      else if (max_duration =? min_duration)%float then
        msg +:+ "which will take approximately "
            +:+ duration_string min_duration +:+ "."
      else
        msg +:+ "which will take between " +:+ duration_string min_duration
            +:+ " and " +:+ duration_string max_duration +:+ "." in
    match color with
    | Some paint => paint msg
    | None => msg
    end.

End estimate.

(** ** The scheduler *)

(** What a run does that can be observed from outside: the messages
    handed to the logger and the calls of [save_state]. *)
Inductive event : Type :=
| Info (msg : string)
| SaveState (override_resource_states : option (gmap string string)).

Record Run : Type := mkRun { machine : Machine; events : list event }.

Definition on_machine {A} (c : M Machine A) : M Run A :=
  λ r, let '(m, a) := c (machine r) in (mkRun m (events r), a).
Definition emit (e : event) : M Run unit :=
  modify (λ r, mkRun (machine r) (events r ++ [e])%list).

(** [getattr(e, 'exit_code', 1)] for the exceptions the scheduler catches
    ([KeyboardInterrupt] has no such attribute); [None] for the others. *)
Definition caught_exit_code (e : exception) : option Z :=
  match e with
  | KeyboardInterrupt => Some 1%Z
  | ShellError exit_code => Some (default 1%Z exit_code)
  | _ => None
  end.

Section scheduler.
Context `{PyRuntime} `{Collaborators}.

Definition logged_save_state (override : option (gmap string string))
    : M Run unit :=
  emit (SaveState override);;
  on_machine (save_state override).

(** The body of the loop of [_run_helper]. *)
Definition run_task (do_run_func : Task → Machine → bool) (mock : bool)
    (task : Task) : M Run unit :=
  r ← get;
  if do_run_func task (machine r) then
    if mock then on_machine (modify (mock_run task))
    else
      raised ← on_machine (λ m, let '(m', e) := timed_run task m in (m', Ok e));
      match raised with
      | None => ret tt
      | Some e =>
          match caught_exit_code e with
          | Some code =>
              logged_save_state (Some {[Task_name task := ""]});;
              raise (SystemExit code)
          | None => raise e
          end
      end
  else ret tt.

Definition _run_helper (starting_tasks : list handle)
    (do_run_func : Task → Machine → bool) (mock : bool) : M Run unit :=
  r ← get;
  emit (Info (duration_message (machine r) starting_tasks (Some colors_blue)));;
  for_each (tasks_of (self (machine r))
              (iter_graph (self (machine r)) (Some starting_tasks) true))
           (run_task do_run_func mock);;
  if mock then ret tt else logged_save_state None.

Definition run_all (mock : bool) : M Run unit :=
  r ← get;
  let starting_tasks := iter_graph (self (machine r)) None true in
  _run_helper starting_tasks (λ task _, negb (is_pseudotask task)) mock.

Definition run_all_out_of_sync (mock : bool) : M Run unit :=
  r ← get;
  let starting_tasks := get_out_of_sync_tasks (machine r) in
  _run_helper starting_tasks
    (λ task m, negb (is_pseudotask task) && negb (in_sync task m)) mock.

End scheduler.

(** ** Notions used in the statements *)

(** The keys under which a task is entered in [task_dict], in the order of
    [add]. *)
Definition task_keys (task : Task) : list string :=
  match alias task with
  | Some a => [a; creates task]
  | None => [creates task]
  end.
Definition graph_keys (tasks : list Task) : list string :=
  tasks ≫= task_keys.

(** The identifiers of a task: its [creates] and its alias. *)
Definition identity (task : Task) : string * option string :=
  (creates task, alias task).
Definition identities (g : TaskGraph) : list (string * option string) :=
  identity <$> task_list g.


(** ** A concrete runtime and concrete collaborators

    One implementation of each interface, for running the definitions on
    examples: sets and dicts are enumerated in the order of [elements] and
    [map_to_list]; a task is a pseudotask when it has no command, its id
    and name are its [creates]; the state of a resource is the content of
    the file of that name; running a task writes its command into its
    output, except for the commands ["false"] (a shell failure with exit
    code 2) and ["^C"] (an interruption). *)
(** [posixpath.join] of two components and [posixpath.dirname]. *)
Definition is_slash (c : ascii) : bool := Ascii.eqb c "/"%char.

Fixpoint drop_while (p : ascii → bool) (cs : list ascii) : list ascii :=
  match cs with
  | c :: cs' => if p c then drop_while p cs' else cs
  | [] => []
  end.

Definition example_path_join (a b : string) : string :=
  match String.list_ascii_of_string b, rev (String.list_ascii_of_string a) with
  | "/"%char :: _, _ => b
  | _, [] => b
  | _, "/"%char :: _ => a +:+ b
  | _, _ => a +:+ "/" +:+ b
  end.

Definition example_path_dirname (p : string) : string :=
  let head := rev (drop_while (λ c, negb (is_slash c))
                     (rev (String.list_ascii_of_string p))) in
  match rev (drop_while is_slash (rev head)) with
  | [] => String.string_of_list_ascii head
  | stripped => String.string_of_list_ascii stripped
  end.

(** [float(s)] for a plain decimal text: an optional sign, digits, and
    optionally a point and more digits, with at least one digit. The value
    is the quotient of two integers that are floats themselves (the digits
    read as an integer below [2^53], and a power of ten up to [10^22]),
    which one division rounds correctly. Every other text is answered with
    [None]; among them are texts that Python's [float] accepts (an
    exponent, surrounding blanks, [inf] and [nan], more digits). *)
Fixpoint digits_value (cs : list ascii) (acc : Z) : option Z :=
  match cs with
  | [] => Some acc
  | c :: cs' =>
      let d := (Z.of_N (N_of_ascii c) - 48)%Z in
      if (0 <=? d)%Z && (d <=? 9)%Z then digits_value cs' (10 * acc + d)%Z
      else None
  end.

Definition is_point (c : ascii) : bool := Ascii.eqb c "."%char.

Definition example_float_of_string (s : string) : option float :=
  let cs := String.list_ascii_of_string s in
  let '(negative, cs) :=
    match cs with
    | "-"%char :: cs' => (true, cs')
    | "+"%char :: cs' => (false, cs')
    | _ => (false, cs)
    end in
  let whole := rev (drop_while (λ c, negb (is_point c)) (rev cs)) in
  let '(int_part, frac_part) :=
    match rev whole with
    | _ :: int_rev => (rev int_rev, drop (length whole) cs)
    | [] => (cs, [])
    end in
  let digits := int_part ++ frac_part in
  if bool_decide (digits = []) || bool_decide (22 < length frac_part)
  then None
  else
    match digits_value digits 0 with
    | Some n =>
        if (n <? 2 ^ 53)%Z then
          let x := (of_uint63 (Uint63.of_Z n)
                    / of_uint63 (Uint63.of_Z
                                   (10 ^ Z.of_nat (length frac_part))))%float in
          Some (if negative then (- x)%float else x)
        else None
    | None => None
    end.

(** The text the CSV writer produces for a float, [repr(x)]: the shortest
    decimal text that [float] reads back as [x]. [places k m e] is the
    value in units of [10^-k], correctly rounded; the number of places grows
    until the text is read back as the float. This is [repr] for the floats
    of size [1e-4] and more that a text of this kind with digits below
    [2^53] denotes; for the others (where [repr] uses an exponent, or needs
    sixteen or seventeen digits) the text is not the one Python writes. *)
Definition places (k : nat) (m : positive) (e : Z) : Z :=
  if (0 <=? e)%Z then Z.pos m * 2 ^ e * 10 ^ Z.of_nat k
  else
    let num := (Z.pos m * 10 ^ Z.of_nat k)%Z in
    let den := (2 ^ (- e))%Z in
    let q := (num `div` den)%Z in
    let r := (num `mod` den)%Z in
    if (den <? 2 * r)%Z then (q + 1)%Z
    else if (2 * r =? den)%Z && Z.odd q then (q + 1)%Z
    else q.

Definition format_places (k : nat) (s : bool) (m : positive) (e : Z)
    : string :=
  let n := places k m e in
  let fraction := pretty (n `mod` 10 ^ Z.of_nat k)%Z in
  (if s then "-" else "") +:+ pretty (n `div` 10 ^ Z.of_nat k)%Z +:+ "."
    +:+ String.string_of_list_ascii
          (replicate (k - String.length fraction) "0"%char)
    +:+ fraction.

Fixpoint shortest_places (fuel k : nat) (x : float) (s : bool) (m : positive)
    (e : Z) : string :=
  match fuel with
  | 0 => format_places k s m e
  | S fuel' =>
      match example_float_of_string (format_places k s m e) with
      | Some y => if (y =? x)%float then format_places k s m e
                  else shortest_places fuel' (S k) x s m e
      | None => shortest_places fuel' (S k) x s m e
      end
  end.

Definition example_str_of_float (x : float) : string :=
  match Prim2SF x with
  | SpecFloat.S754_nan => "nan"
  | SpecFloat.S754_infinity s => if s then "-inf" else "inf"
  | SpecFloat.S754_zero s => if s then "-0.0" else "0.0"
  | SpecFloat.S754_finite s m e => shortest_places 16 1 x s m e
  end.

Definition example_runtime : PyRuntime := {|
  set_iter := λ _ s, elements s;
  set_iter_perm := λ _ s, reflexivity (elements s);
  dict_items := λ V d, map_to_list d;
  dict_items_perm := λ V d, reflexivity (map_to_list d);
  float_of_string := example_float_of_string;
  str_of_float := example_str_of_float;
  os_path_join := example_path_join;
  os_path_dirname := example_path_dirname;
  os_path_relpath := λ p _, p
|}.

Definition example_timed_run (task : Task) (m : Machine)
    : Machine * option exception :=
  match decl_command (yaml_data task) with
  | Some "false" => (m, Some (ShellError (Some 2%Z)))
  | Some "^C" => (m, Some KeyboardInterrupt)
  | Some command =>
      (mkMachine
         (set_task_durations (λ d, <[creates task := 5%float]> d) (self m))
         (set_disk (λ d, <[creates task := command]> d) (world m)), None)
  | None => (m, None)
  end.

Definition example_in_sync (task : Task) (m : Machine) : bool :=
  match get_state_from_storage (creates task) (world m) with
  | Ok (Some stored) =>
      bool_decide (disk (world m) !! creates task = Some stored)
  | _ => false
  end.

Definition example_collaborators : Collaborators := {|
  Task_id := creates;
  Task_name := creates;
  is_pseudotask := λ task,
    bool_decide (decl_command (yaml_data task) = None);
  has_tag := λ task tag, bool_decide (tag ∈ decl_tags (yaml_data task));
  in_sync := example_in_sync;
  timed_run := example_timed_run;
  mock_run := λ _ m, m;
  get_current_state := λ r w, default "" (disk w !! resource_name r);
  colors_blue := λ msg, msg
|}.

Definition example_world : World := mkWorld None None ∅ "".
Definition example_machine : Machine :=
  mkMachine (empty_graph "wf.yaml") example_world.

(** Three declarations: [a] and [b] are plain tasks, [b] depends on the
    alias of [a]; [dup] declares [a] a second time. *)
Definition decl_a : Declaration :=
  mkDeclaration "a" (Some "first") (DependsScalar None) ["t"] (Some "make a").
Definition decl_b : Declaration :=
  mkDeclaration "b" None (DependsList [Some "first"]) ["t"] (Some "make b").
Definition decl_dup : Declaration :=
  mkDeclaration "a" None (DependsScalar None) [] (Some "make a again").

(** What dereferencing makes of one entry of [depends]: the value the
    helper finds, or the entry itself when it finds none. *)
Definition dereferenced (g : TaskGraph) (d : option string) : option string :=
  match _dereference_alias_helper g d with
  | Some dd => Some dd
  | None => d
  end.

(** The graph the loop of [add] builds from [decl_a], [decl_b] and a task
    [c] that declares its dependencies in a tuple, none of them an alias. *)
Definition example_added : TaskGraph :=
  (for_each
     [decl_a; decl_b;
      mkDeclaration "c" None (DependsTuple [Some "b"; None]) []
                    (Some "make c")]
     Task_init (empty_graph "wf.yaml")).1.

(** A task [c] that names the alias of [a] in a tuple, and the graph the
    loop of [add] builds from [decl_a] and that task. *)
Definition decl_tuple : Declaration :=
  mkDeclaration "c" None (DependsTuple [Some "first"]) [] (Some "make c").
Definition example_tuple : TaskGraph :=
  (for_each [decl_a; decl_tuple] Task_init (empty_graph "wf.yaml")).1.

(** A subgraph that owns the resource [A] only, in a workspace whose state
    table has entries for [A], [B] and [C] and where [A] has changed. *)
Definition example_subgraph_machine : Machine :=
  mkMachine
    (mkTaskGraph "wf.yaml" [] ∅ {["A" := mkResource "A"]} ∅ false)
    (mkWorld (Some [["A"; "old"]; ["B"; "b"]; ["C"; "c"]]) None
             {["A" := "new"]} "").

(** The same world with another state table (or none). *)
Definition with_state_csv (c : option (list csv_row)) (w : World) : World :=
  mkWorld c (duration_csv w) (disk w) (cwd w).
Definition in_world_with_state (c : option (list csv_row)) (m : Machine)
    : Machine :=
  mkMachine (self m) (with_state_csv c (world m)).

(** A computation that neither reads nor writes the state table: run with
    another table, it does the same and leaves that table. *)
Definition ignores_state_csv {A} (comp : M Machine A) : Prop :=
  ∀ c m, comp (in_world_with_state c m)
         = (in_world_with_state c (comp m).1, (comp m).2).

(** The exceptions the constructor raises before it loads anything: a
    repeated key ([add]), the assignment to an item of a tuple
    ([_dereference_depends_aliases]), an unknown dependency
    ([_link_dependency_helper]). Reading a table raises none of them. *)
Definition construction_error (e : exception) : Prop :=
  match e with
  | NonUniqueTask _ | TypeError | InvalidTaskDefinition _ => True
  | _ => False
  end.

(** [raises_only Q c]: every exception [c] raises satisfies [Q]. *)
Definition raises_only {S A} (Q : exception → Prop) (c : M S A) : Prop :=
  ∀ s s' e, c s = (s', Raise e) → Q e.

(** A workspace whose duration table has an entry for [a]. *)
Definition example_timed_world : World :=
  mkWorld (Some [["a"; "fingerprint"]]) (Some [["a"; "7200.0"]]) ∅ "".

(** The durations a graph holds and the duration table of its world. *)
Definition duration_view (m : Machine)
    : gmap string float * option (list csv_row) :=
  (task_durations (self m), duration_csv (world m)).

(** The graph constructed from [decl_a] and [decl_b], in the world its
    constructor leaves. *)
Definition example_constructed : Machine :=
  (TaskGraph_init (H := example_runtime) (H0 := example_collaborators)
     "wf.yaml" [decl_a; decl_b] example_machine).1.

(** ** Notions used in the statements about the traversal *)

(** The links of a graph as [add_task_dependency] maintains them: they
    stay within the graph, and a task is downstream of another exactly when
    the other is upstream of it. *)
Record well_linked (g : TaskGraph) : Prop := {
  links_in_graph : ∀ k task h,
    task_list g !! k = Some task →
    h ∈ upstream_tasks task ∪ downstream_tasks task →
    h < length (task_list g);
  links_mutual : ∀ k task h other,
    task_list g !! k = Some task → task_list g !! h = Some other →
    h ∈ downstream_tasks task ↔ k ∈ upstream_tasks other
}.

(** [depends_on g k h]: the task [h] is upstream of the task [k]. *)
Definition depends_on (g : TaskGraph) (k h : handle) : Prop :=
  ∃ task, task_list g !! k = Some task ∧ h ∈ upstream_tasks task.

Definition acyclic (g : TaskGraph) : Prop :=
  ∀ k, ¬ tc (depends_on g) k k.

(** The tasks enqueued so far, those already visited first: the order in
    which a first-in-first-out horizon hands them out. *)
Definition seen (st : iter_state) : list handle :=
  task_order st ++ horizon st.

(** First in, first out: at every moment of the traversal, the tasks
    enqueued so far are visited in the order in which they were
    enqueued. *)
Definition visits_in_enqueue_order `{PyRuntime} (g : TaskGraph)
    (tasks : option (list handle)) (downstream : bool) : Prop :=
  ∀ fuel,
    seen (iter_loop fuel g downstream (iter_init g tasks downstream))
    `prefix_of` iter_graph g tasks downstream.

(** A diamond: [b] and [c] depend on [a], and [d] on both. *)
Definition example_diamond : Machine :=
  (TaskGraph_init (H := example_runtime) (H0 := example_collaborators)
     "wf.yaml"
     [mkDeclaration "a" None (DependsScalar None) [] (Some "make a");
      mkDeclaration "b" None (DependsScalar (Some "a")) [] (Some "make b");
      mkDeclaration "c" None (DependsScalar (Some "a")) [] (Some "make c");
      mkDeclaration "d" None (DependsList [Some "b"; Some "c"]) []
                    (Some "make d")]
     example_machine).1.

(** What holds of the variables of the loop of [iter_graph] all along a
    downstream traversal started from the set [start]: no task is enqueued
    twice; [done] and [horizon_set] are the sets of the visited and of the
    pending tasks; the downstream tasks of a visited task have all been
    enqueued, and so have the start tasks; every enqueued task is a task of
    the graph and, unless it is a start task, was enqueued after a task it
    is downstream of, which has been visited. *)
Record traversal_invariant (g : TaskGraph) (start : gset handle)
    (st : iter_state) : Prop := {
  inv_NoDup : NoDup (seen st);
  inv_done : done st = list_to_set (task_order st);
  inv_horizon_set : horizon_set st = list_to_set (horizon st);
  inv_closed : ∀ x, x ∈ task_order st →
    updownset g true x ⊆ list_to_set (seen st);
  inv_start : start ⊆ list_to_set (seen st);
  inv_valid : ∀ x, x ∈ seen st → x < length (task_list g);
  inv_reached : ∀ j x, seen st !! j = Some x →
    x ∈ start
    ∨ ∃ i u, i < j ∧ i < length (task_order st) ∧ seen st !! i = Some u
             ∧ x ∈ updownset g true u
}.

(** The graph of [decl_a] and [decl_b] constructed in a workspace whose
    duration table has the given rows. *)
Definition example_with_durations (rows : list csv_row) : Machine :=
  (TaskGraph_init (H := example_runtime) (H0 := example_collaborators)
     "wf.yaml" [decl_a; decl_b]
     (mkMachine (empty_graph "wf.yaml") (mkWorld None (Some rows) ∅ ""))).1.

(** A graph with the single task [a]. *)
Definition example_single (rows : list csv_row) : Machine :=
  (TaskGraph_init (H := example_runtime) (H0 := example_collaborators)
     "wf.yaml" [decl_a]
     (mkMachine (empty_graph "wf.yaml") (mkWorld None (Some rows) ∅ ""))).1.

(** ** Notions used in the statements about the scheduler *)

(** The calls of [save_state] among the events of a run, each with the
    overrides it was given. *)
Definition saves (evs : list event) : list (option (gmap string string)) :=
  omap (λ e, match e with
             | SaveState override => Some override
             | Info _ => None
             end) evs.

(** The state in which [_run_helper] enters its loop: the estimate has
    been handed to the logger. *)
Definition started `{PyRuntime} `{Collaborators} (starting_tasks : list handle)
    (r : Run) : Run :=
  mkRun (machine r)
    (events r
     ++ [Info (duration_message (machine r) starting_tasks (Some colors_blue))]).

(** The tasks [_run_helper] loops over. *)
Definition scheduled `{PyRuntime} (starting_tasks : list handle) (r : Run)
    : list Task :=
  tasks_of (self (machine r))
    (iter_graph (self (machine r)) (Some starting_tasks) true).


(** ** Notions used in the statements about the tables *)

(** The values a CSV file gives for a name, in the order of its rows: the
    second cell of every row whose first cell is the name. *)
Definition values_of (rows : list csv_row) (name : string) : list string :=
  omap (λ row, match row with
               | k :: v :: _ => if bool_decide (k = name) then Some v else None
               | _ => None
               end) rows.

(** A row that [row[0]] and [row[1]] can be taken from. *)
Definition two_cells (row : csv_row) : Prop := 2 ≤ length row.

(** The merge [save_state] writes, entry by entry: the override, else the
    current state of the resource the graph owns, else the old entry. *)
Definition merged_state `{Collaborators} (m : Machine)
    (override : option (gmap string string)) (before : gmap string string)
    (name : string) : option string :=
  match override ≫= (λ overrides, overrides !! name) with
  | Some state => Some state
  | None =>
      match resource_dict (self m) !! name with
      | Some resource => Some (get_current_state resource (world m))
      | None => before !! name
      end
  end.

(** A graph that owns the resource [A] and has timed the task [a], in a
    workspace whose tables have entries for other names as well. *)
Definition example_saving_machine : Machine :=
  mkMachine
    (mkTaskGraph "wf.yaml" [] ∅ {["A" := mkResource "A"]}
                 {["a" := 5%float]} false)
    (mkWorld (Some [["A"; "old"]; ["B"; "b"]]) (Some [["z"; "7200.0"]])
             {["A" := "new"]} "").

(** ** Notions used in the further statements about the traversal *)

(** One step along the links of the chosen direction. *)
Definition reaches `{PyRuntime} (g : TaskGraph) (downstream : bool)
    (x y : handle) : Prop :=
  y ∈ updownset g downstream x.

(** Two tasks that depend on each other. *)
Definition example_cycle : Machine :=
  (TaskGraph_init (H := example_runtime) (H0 := example_collaborators)
     "wf.yaml"
     [mkDeclaration "a" None (DependsScalar (Some "b")) [] (Some "make a");
      mkDeclaration "b" None (DependsScalar (Some "a")) [] (Some "make b")]
     example_machine).1.

(** What holds of the variables of the loop of [iter_graph] in both
    directions and for any start list: [done] is the set of the visited
    tasks; a task of [horizon_set] is pending; the neighbours of a visited
    task have been enqueued; and every enqueued task can be reached from a
    start task. *)
Record reach_invariant `{PyRuntime} (g : TaskGraph) (downstream : bool)
    (start : list handle) (st : iter_state) : Prop := {
  reach_done : done st = list_to_set (task_order st);
  reach_pending : horizon_set st ⊆ list_to_set (horizon st);
  reach_closed : ∀ x, x ∈ task_order st →
    updownset g downstream x ⊆ list_to_set (seen st);
  reach_sound : ∀ x, x ∈ seen st →
    ∃ s, s ∈ start ∧ rtc (reaches g downstream) s x
}.

(** For a start list without duplicates, in addition: no task is enqueued
    twice, and every pending task is in [horizon_set]. *)
Record once_invariant (st : iter_state) : Prop := {
  once_NoDup : NoDup (seen st);
  once_pending : list_to_set (horizon st) ⊆ horizon_set st
}.

(** ** The run command ([workflow/commands/run.py]) *)

Definition set_successful (b : bool) (g : TaskGraph) : TaskGraph :=
  mkTaskGraph (config_path g) (task_list g) (task_dict g)
    (resource_dict g) (task_durations g) b.

(** [self.task_graph = ...]: the graph of the command becomes the graph
    the reference denotes. *)
Definition set_task_graph (ref : graph_ref) : M Run unit :=
  match ref with
  | This => mret tt
  | Fresh g =>
      modify (λ r, mkRun (mkMachine g (world (machine r))) (events r))
  end.

Section run_command.
Context `{PyRuntime} `{Collaborators}.

(** [Command.inner_execute]; the graph of the machine is
    [self.task_graph]. *)
Definition inner_execute (task_id : option string) (force dry_run : bool)
    : M Run unit :=
  (match task_id with
   | Some id =>
       ref ← on_machine (subgraph_needed_for (Some [id]));
       set_task_graph ref
   | None => mret tt
   end);;
  (if force then run_all dry_run else run_all_out_of_sync dry_run);;
  on_machine (on_self (modify (set_successful true))).

End run_command.

(** Collaborators one of whose tasks crashes: as [example_collaborators],
    but the command ["crash"] raises a [TypeError]. *)
Definition example_crashing_collaborators : Collaborators := {|
  Task_id := creates;
  Task_name := creates;
  is_pseudotask := λ task,
    bool_decide (decl_command (yaml_data task) = None);
  has_tag := λ task tag, bool_decide (tag ∈ decl_tags (yaml_data task));
  in_sync := example_in_sync;
  timed_run := λ task m,
    if bool_decide (decl_command (yaml_data task) = Some "crash")
    then (m, Some TypeError) else example_timed_run task m;
  mock_run := λ _ m, m;
  get_current_state := λ r w, default "" (disk w !! resource_name r);
  colors_blue := λ msg, msg
|}.

(** A workflow whose second task crashes. *)
Definition example_crashing : Run :=
  mkRun
    (TaskGraph_init (H := example_runtime)
       (H0 := example_crashing_collaborators) "wf.yaml"
       [mkDeclaration "a" None (DependsScalar None) [] (Some "make a");
        mkDeclaration "c" None (DependsScalar (Some "a")) [] (Some "crash")]
       example_machine).1
    [].

(** ** Notions used in the further statements about the estimate *)

(** The number of tasks of a list that are no pseudotasks. *)
Definition count_real `{Collaborators} (tasks : list Task) : nat :=
  length (filter (λ task, is_pseudotask task = false) tasks).

(** ** Notions used in the further statements about construction *)

(** The links of a task. *)
Definition links (task : Task) : gset handle * gset handle :=
  (upstream_tasks task, downstream_tasks task).

(** Every key of [task_dict] denotes a task of the graph. *)
Definition task_dict_valid (g : TaskGraph) : Prop :=
  ∀ key h, task_dict g !! key = Some h → h < length (task_list g).

(** What the linking pass looks at, and leaves as it is: the keys, the
    configuration path, the world, and the [depends] of every task. *)
Definition linking_frame (m : Machine)
    : gmap string handle * string * World * list depends_value :=
  (task_dict (self m), config_path (self m), world m,
   depends <$> task_list (self m)).

(** The keys denote tasks and the links are well formed. *)
Definition consistent (g : TaskGraph) : Prop :=
  task_dict_valid g ∧ well_linked g.

(** [links_grow m m']: from [m] to [m'] what the linking pass looks at is
    the same, and no task has lost an upstream link. *)
Definition links_grow (m m' : Machine) : Prop :=
  linking_frame m' = linking_frame m
  ∧ ∀ k t, task_list (self m) !! k = Some t →
      ∃ t', task_list (self m') !! k = Some t'
            ∧ upstream_tasks t ⊆ upstream_tasks t'.

(** Every upstream link of a task comes from one of its dependencies. *)
Definition links_from_depends (g : TaskGraph) : Prop :=
  ∀ k t h, task_list g !! k = Some t → h ∈ upstream_tasks t →
    ∃ d, Some d ∈ depends_list t ∧ task_dict g !! d = Some h.

(** No task has an upstream link. *)
Definition unlinked (g : TaskGraph) : Prop :=
  ∀ k t, task_list g !! k = Some t → upstream_tasks t = ∅.

(** What a task keeps of its declaration. *)
Definition declared (task : Task) : Declaration * string * option string :=
  (yaml_data task, creates task, alias task).

(** The same for a declaration, as the constructor of [Task] reads it. *)
Definition declaration_read (kw : Declaration)
    : Declaration * string * option string :=
  (kw, decl_creates kw, decl_alias kw).

(** The subgraph for the identifier [a] of the graph of [decl_a] and
    [decl_b]. *)
Definition example_needed_for_a : Machine * result graph_ref :=
  subgraph_needed_for (H := example_runtime) (H0 := example_collaborators)
    (Some ["a"]) example_constructed.
(** * Properties *)

(** ** Reasoning about the monad *)

Ltac unfold_monad :=
  unfold mbind, M_bind, bind, mret, M_ret, ret, get, modify, raise,
    on_self, on_world in *.

Lemma bind_ok {S A B} (c : M S A) (k : A → M S B) s s' a :
  c s = (s', Ok a) → (c ≫= k) s = k a s'.
Proof. intros Hc. unfold mbind, M_bind, bind. by rewrite Hc. Qed.

Lemma bind_raise {S A B} (c : M S A) (k : A → M S B) s s' e :
  c s = (s', Raise e) → (c ≫= k) s = (s', Raise e).
Proof. intros Hc. unfold mbind, M_bind, bind. by rewrite Hc. Qed.

Lemma bind_inv_ok {S A B} (c : M S A) (k : A → M S B) s s' b :
  (c ≫= k) s = (s', Ok b) →
  ∃ s1 a, c s = (s1, Ok a) ∧ k a s1 = (s', Ok b).
Proof.
  unfold mbind, M_bind, bind. destruct (c s) as [s1 [a|e]]; [eauto|done].
Qed.

Lemma for_each_app {S A} (l1 l2 : list A) (body : A → M S unit) s :
  for_each (l1 ++ l2) body s =
  match for_each l1 body s with
  | (s1, Ok _) => for_each l2 body s1
  | (s1, Raise e) => (s1, Raise e)
  end.
Proof.
  revert s. induction l1 as [|x l1 IH]; intros s; simpl; [done|].
  unfold mbind, M_bind, bind. destruct (body x s) as [s1 [[]|e]]; [apply IH|done].
Qed.

(** A property kept by every run of the body is kept by the loop, however
    the loop ends. *)
Lemma for_each_preserves {S A} (P : S → Prop) (l : list A)
    (body : A → M S unit) :
  (∀ x s, P s → P (body x s).1) → ∀ s, P s → P (for_each l body s).1.
Proof.
  intros Hbody. induction l as [|x l IH]; intros s Hs; simpl; [done|].
  unfold mbind, M_bind, bind. specialize (Hbody x s Hs).
  destruct (body x s) as [s1 [[]|e]]; simpl in *; [by apply IH|done].
Qed.

(** ** Construction: unique identifiers *)

Lemma add_task_list task g : task_list (add task g).1 = (task_list g ++ [task])%list.
Proof.
  unfold add. unfold_monad. simpl.
  destruct (alias task) as [a|]; simpl; repeat case_bool_decide; done.
Qed.

Lemma add_other_fields task g :
  resource_dict (add task g).1 = resource_dict g
  ∧ task_durations (add task g).1 = task_durations g
  ∧ config_path (add task g).1 = config_path g.
Proof.
  unfold add. unfold_monad. simpl.
  destruct (alias task) as [a|]; simpl; repeat case_bool_decide; done.
Qed.

Lemma add_ok task g :
  NoDup (task_keys task) →
  (∀ k, k ∈ task_keys task → k ∉ dom (task_dict g)) →
  ∃ g', add task g = (g', Ok tt)
        ∧ dom (task_dict g') = dom (task_dict g) ∪ list_to_set (task_keys task).
Proof.
  intros Hnd Hfresh. unfold add, task_keys in *. unfold_monad. simpl.
  destruct (alias task) as [a|]; simpl.
  - apply NoDup_cons in Hnd as [Hne _].
    rewrite bool_decide_eq_false_2 by (apply Hfresh; set_solver). simpl.
    rewrite bool_decide_eq_false_2.
    + eexists; split; [done|]. simpl. rewrite !dom_insert_L. set_solver.
    + rewrite dom_insert_L. intros [?|?]%elem_of_union; [set_solver|].
      eapply Hfresh; [|done]. set_solver.
  - rewrite bool_decide_eq_false_2 by (apply Hfresh; set_solver).
    eexists; split; [done|]. simpl. rewrite dom_insert_L. set_solver.
Qed.

Lemma add_raises task g :
  ¬ (NoDup (task_keys task)
     ∧ ∀ k, k ∈ task_keys task → k ∉ dom (task_dict g)) →
  ∃ g' msg, add task g = (g', Raise (NonUniqueTask msg)).
Proof.
  intros Hbad. unfold add, task_keys in *. unfold_monad. simpl.
  destruct (alias task) as [a|]; simpl.
  - case_bool_decide as Ha; simpl; [eauto|].
    case_bool_decide as Hc; simpl; [eauto|].
    exfalso. apply Hbad. rewrite dom_insert_L in Hc. split.
    + apply NoDup_cons. split; [set_solver|]. apply NoDup_singleton.
    + intros k Hk. set_solver.
  - case_bool_decide as Hc; simpl; [eauto|].
    exfalso. apply Hbad. split; [apply NoDup_singleton|set_solver].
Qed.

Lemma graph_keys_app l1 l2 :
  graph_keys (l1 ++ l2) = (graph_keys l1 ++ graph_keys l2)%list.
Proof. apply bind_app. Qed.

Lemma graph_keys_singleton task : graph_keys [task] = task_keys task.
Proof. unfold graph_keys. simpl. apply app_nil_r. Qed.

(** The state of the graph after the loop that adds the tasks, when every
    key is new. *)
Lemma add_loop_ok (kws : list Declaration) (g : TaskGraph) :
  dom (task_dict g) = list_to_set (graph_keys (task_list g)) →
  NoDup (graph_keys (task_list g ++ (Task_new <$> kws))) →
  ∃ g', for_each kws Task_init g = (g', Ok tt)
        ∧ task_list g' = (task_list g ++ (Task_new <$> kws))%list
        ∧ dom (task_dict g') = list_to_set (graph_keys (task_list g'))
        ∧ resource_dict g' = resource_dict g
        ∧ task_durations g' = task_durations g
        ∧ config_path g' = config_path g.
Proof.
  revert g. induction kws as [|kw kws IH]; intros g Hdom Hnd; simpl.
  - exists g. by rewrite app_nil_r.
  - rewrite fmap_cons, cons_middle, (assoc_L (++)) in Hnd.
    pose proof Hnd as Hnd'. rewrite graph_keys_app in Hnd'.
    apply NoDup_app in Hnd' as (Hnd1 & _ & _).
    rewrite graph_keys_app, graph_keys_singleton in Hnd1.
    apply NoDup_app in Hnd1 as (_ & Hdisj & Hkw).
    destruct (add_ok (Task_new kw) g Hkw) as (g1 & Hadd & Hdom1).
    { intros k Hk Hin. rewrite Hdom in Hin.
      apply elem_of_list_to_set in Hin. by eapply Hdisj. }
    pose proof (add_task_list (Task_new kw) g) as Hl.
    pose proof (add_other_fields (Task_new kw) g) as (Hr & Hd & Hc).
    rewrite Hadd in Hl, Hr, Hd, Hc. simpl in *.
    destruct (IH g1) as (g' & Hloop & Hl' & Hdom' & Hr' & Hd' & Hc').
    { rewrite Hdom1, Hdom, Hl, graph_keys_app, graph_keys_singleton.
      by rewrite list_to_set_app_L. }
    { by rewrite Hl. }
    exists g'. unfold Task_init at 1. rewrite (bind_ok _ _ _ _ _ Hadd).
    split_and!; [done| |done|congruence..].
    by rewrite Hl', Hl, <- (assoc_L (++)).
Qed.

(** Conversely, the loop ends without an exception only when every key was
    new. *)
Lemma add_loop_inv (kws : list Declaration) (g g' : TaskGraph) :
  dom (task_dict g) = list_to_set (graph_keys (task_list g)) →
  NoDup (graph_keys (task_list g)) →
  for_each kws Task_init g = (g', Ok tt) →
  NoDup (graph_keys (task_list g ++ (Task_new <$> kws))).
Proof.
  revert g. induction kws as [|kw kws IH]; intros g Hdom Hnd Hloop; simpl.
  - by rewrite app_nil_r.
  - simpl in Hloop. apply bind_inv_ok in Hloop as (g1 & [] & Hadd & Hloop).
    unfold Task_init in Hadd.
    destruct (decide (NoDup (task_keys (Task_new kw))
                      ∧ Forall (λ k, k ∉ dom (task_dict g))
                               (task_keys (Task_new kw))))
      as [[Hkw Hfresh]|Hbad]; rewrite Forall_forall in *.
    + destruct (add_ok _ g Hkw Hfresh) as (g1' & Hadd' & Hdom1).
      assert (g1' = g1) as -> by congruence.
      pose proof (add_task_list (Task_new kw) g) as Hl.
      rewrite Hadd in Hl. simpl in Hl.
      rewrite cons_middle, (assoc_L (++)), <- Hl. apply IH; [| |done].
      * rewrite Hdom1, Hdom, Hl, graph_keys_app, graph_keys_singleton.
        by rewrite list_to_set_app_L.
      * rewrite Hl, graph_keys_app, graph_keys_singleton.
        apply NoDup_app. split_and!; [done| |done].
        intros k Hk Hk'. apply (Hfresh k Hk'). rewrite Hdom.
        by apply elem_of_list_to_set.
    + destruct (add_raises _ g Hbad) as (? & ? & Hadd'). congruence.
Qed.

Lemma on_self_for_each {A} (l : list A) (body : A → M TaskGraph unit) m :
  for_each l (λ x, on_self (body x)) m =
  let '(g, r) := for_each l body (self m) in (mkMachine g (world m), r).
Proof.
  revert m. induction l as [|x l IH]; intros [g w]; simpl; [done|].
  unfold mbind, M_bind, bind, on_self at 1. simpl.
  destruct (body x g) as [g1 [[]|e]]; simpl; [|done]. by rewrite IH.
Qed.

Lemma graph_keys_identities g g' :
  identities g = identities g' →
  graph_keys (task_list g) = graph_keys (task_list g').
Proof.
  unfold identities, graph_keys. generalize (task_list g), (task_list g').
  induction l as [|t l IH]; intros [|t' l']; simpl; try done.
  intros [= Hc Ha Hl]. unfold task_keys. rewrite Hc, Ha. f_equal. by apply IH.
Qed.

Lemma identity_alter (f : Task → Task) k (l : list Task) :
  (∀ t, identity (f t) = identity t) →
  identity <$> alter f k l = identity <$> l.
Proof.
  intros Hf. revert k. induction l as [|t l IH]; intros [|k]; try done.
  - cbn. by rewrite Hf.
  - cbn. f_equal. apply IH.
Qed.

Lemma identity_insert k (t t' : Task) (l : list Task) :
  l !! k = Some t → identity t' = identity t →
  identity <$> <[k := t']> l = identity <$> l.
Proof.
  intros Hk Ht. rewrite list_fmap_insert, Ht.
  apply list_insert_id. by rewrite list_lookup_fmap, Hk.
Qed.

Lemma dereference_task_identity g task task' :
  dereference_task g task = Ok task' → identity task' = identity task.
Proof.
  unfold dereference_task. intros Hd.
  destruct (depends task) as [d|ds|ds].
  - destruct (_dereference_alias_helper g d); by simplify_eq.
  - by simplify_eq.
  - destruct (dereference_tuple g ds); by simplify_eq.
Qed.

Lemma _dereference_depends_aliases_identities g :
  identities (_dereference_depends_aliases g).1 = identities g.
Proof.
  unfold _dereference_depends_aliases. unfold mbind, M_bind, bind, get at 1.
  apply (for_each_preserves (λ g', identities g' = identities g)); [|done].
  intros k s Hs. unfold mbind, M_bind, bind, get. simpl.
  destruct (task_list s !! k) as [task|] eqn:Hk; [|done].
  destruct (dereference_task s task) as [task'|e] eqn:Hd; [|done].
  simpl. rewrite <- Hs. unfold identities. simpl.
  eapply identity_insert; [done|]. by eapply dereference_task_identity.
Qed.

Section construction_facts.
Context `{PyRuntime} `{Collaborators}.

Lemma _link_dependency_helper_identities k dependency m :
  identities (self (_link_dependency_helper k dependency m).1)
  = identities (self m).
Proof.
  unfold _link_dependency_helper. destruct dependency as [dep|]; [|done].
  unfold mbind, M_bind, bind, get. simpl.
  destruct (task_dict (self m) !! dep) as [h|].
  - unfold on_self, add_task_dependency, mbind, M_bind, bind, modify. simpl.
    unfold identities. simpl. by rewrite !identity_alter.
  - by destruct (os_path_exists _ _).
Qed.

Lemma _link_dependencies_identities m :
  identities (self (_link_dependencies m).1) = identities (self m).
Proof.
  unfold _link_dependencies. unfold mbind, M_bind, bind, get at 1.
  apply (for_each_preserves
           (λ m', identities (self m') = identities (self m))); [|done].
  intros k s Hs. cbv beta. unfold get_or_create.
  unfold mbind, M_bind, bind, get, on_self, modify, mret, M_ret, ret. simpl.
  destruct (task_list (self s) !! k) as [task|] eqn:Hk; [|done].
  destruct (is_pseudotask task); simpl;
    apply (for_each_preserves
             (λ m', identities (self m') = identities (self m)));
    try (intros x s' Hs'; by rewrite _link_dependency_helper_identities);
    rewrite <- Hs; unfold identities; simpl;
    by rewrite ?identity_alter.
Qed.

Lemma _load_state_identities m :
  identities (self (_load_state m).1) = identities (self m).
Proof.
  unfold _load_state. unfold mbind, M_bind, bind, get. simpl.
  destruct (read_from_storage _ _) as [table|e]; [|done].
  by destruct (parse_durations _).
Qed.

End construction_facts.

Section init_facts.
Context `{PyRuntime} `{Collaborators}.

(** The constructor starts the loop over the declarations from the empty
    graph. *)
Lemma TaskGraph_init_unfold path kws m :
  ∃ w0, duration_csv w0 = duration_csv (world m)
        ∧ TaskGraph_init path kws m =
          (for_each kws (λ kw, on_self (Task_init kw));;
           on_self _dereference_depends_aliases;;
           _link_dependencies;;
           _load_state) (mkMachine (empty_graph path) w0).
Proof.
  unfold TaskGraph_init.
  unfold mbind at 1 2 3 4 5, M_bind at 1 2 3 4 5, bind at 1 2 3 4 5.
  unfold on_self at 1, modify at 1, get at 1 2. simpl.
  destruct (os_path_exists _ _); simpl;
    (destruct (os_path_exists _ _); simpl;
     refine (ex_intro _ _ (conj _ eq_refl)); done).
Qed.

(** C7. [add] raises [NonUniqueTask] for a task one of whose keys (its
    non-null alias, its [creates]) is already a key of [task_dict]. When
    the declarations before [kw] have distinct keys and [kw] repeats one
    (or uses its own [creates] as alias), the constructor raises
    [NonUniqueTask] with a graph that holds only the tasks up to [kw], in
    the state the constructor of [Task] left them, and no resource: no
    later declaration was added and nothing was linked. A constructor that
    returns leaves a graph whose keys are pairwise distinct. *)
Theorem duplicate_identifier_stops_construction :
  (∀ task g,
     (∃ k, k ∈ task_keys task ∧ k ∈ dom (task_dict g)) →
     ∃ g' msg, add task g = (g', Raise (NonUniqueTask msg)))
  ∧ (∀ path pre kw post m,
       NoDup (graph_keys (Task_new <$> pre)) →
       ¬ NoDup (graph_keys (Task_new <$> pre ++ [kw])) →
       ∃ m' msg,
         TaskGraph_init path (pre ++ kw :: post) m
           = (m', Raise (NonUniqueTask msg))
         ∧ task_list (self m') = Task_new <$> pre ++ [kw]
         ∧ resource_dict (self m') = ∅)
  ∧ (∀ path kws m m',
       TaskGraph_init path kws m = (m', Ok tt) →
       NoDup (graph_keys (task_list (self m')))).
Proof.
  split_and!.
  - intros task g (k & Hk & Hin). apply add_raises. intros [_ Hfresh].
    by apply (Hfresh k).
  - intros path pre kw post m Hpre Hkw.
    destruct (TaskGraph_init_unfold path (pre ++ kw :: post) m) as (w0 & _ & ->).
    destruct (add_loop_ok pre (empty_graph path)) as (g1 & Hloop & Hl & Hdom & Hr & _);
      [done|done|]. simpl in Hl.
    destruct (add_raises (Task_new kw) g1) as (g2 & msg & Hadd).
    { intros [Hnd Hfresh]. apply Hkw.
      rewrite fmap_app. change (Task_new <$> [kw]) with [Task_new kw].
      rewrite graph_keys_app, graph_keys_singleton.
      apply NoDup_app. split_and!; [done| |done].
      intros k Hk Hk'. apply (Hfresh k Hk'). rewrite Hdom, Hl.
      by apply elem_of_list_to_set. }
    pose proof (add_task_list (Task_new kw) g1) as Hl2.
    pose proof (add_other_fields (Task_new kw) g1) as (Hr2 & _).
    rewrite Hadd in Hl2, Hr2. simpl in Hl2, Hr2.
    exists (mkMachine g2 w0), msg. split.
    + apply bind_raise. rewrite for_each_app, on_self_for_each.
      cbn [self world]. rewrite Hloop. simpl.
      apply bind_raise. unfold on_self, Task_init. simpl. by rewrite Hadd.
    + simpl. by rewrite Hl2, Hr2, Hl, Hr, fmap_app.
  - intros path kws m m' Hinit.
    destruct (TaskGraph_init_unfold path kws m) as (w0 & _ & Heq).
    rewrite Heq in Hinit. clear Heq.
    apply bind_inv_ok in Hinit as (m1 & [] & Hadd & Hinit).
    apply bind_inv_ok in Hinit as (m2 & [] & Hderef & Hinit).
    apply bind_inv_ok in Hinit as (m3 & [] & Hlink & Hload).
    rewrite on_self_for_each in Hadd. simpl in Hadd.
    destruct (for_each kws Task_init (empty_graph path)) as [g1 [[]|e]] eqn:Hloop;
      [|done].
    injection Hadd as <-.
    pose proof (add_loop_inv kws (empty_graph path) g1) as Hnd.
    destruct (add_loop_ok kws (empty_graph path)) as (g1' & Hloop' & Hl & _).
    { done. } { apply Hnd; [done|apply NoDup_nil_2|done]. }
    assert (g1' = g1) as -> by congruence.
    rewrite (graph_keys_identities (self m') g1).
    { rewrite Hl. apply Hnd; [done|apply NoDup_nil_2|done]. }
    pose proof (_load_state_identities m3) as E3. rewrite Hload in E3.
    pose proof (_link_dependencies_identities m2) as E2. rewrite Hlink in E2.
    pose proof (_dereference_depends_aliases_identities g1) as E1.
    unfold on_self in Hderef. simpl in Hderef.
    destruct (_dereference_depends_aliases g1) as [g2 r2]. simpl in E1.
    injection Hderef as <- _. simpl in *. congruence.
Qed.

End init_facts.

Lemma duplicate_identifier_example :
  ∃ m' msg,
    TaskGraph_init (H := example_runtime) (H0 := example_collaborators)
      "wf.yaml" ([decl_a; decl_b] ++ decl_dup :: [decl_b]) example_machine
      = (m', Raise (NonUniqueTask msg))
    ∧ task_list (self m') = Task_new <$> [decl_a; decl_b] ++ [decl_dup]
    ∧ resource_dict (self m') = ∅.
Proof.
  apply (proj1 (proj2 (@duplicate_identifier_stops_construction
                         example_runtime example_collaborators))).
  - apply (bool_decide_unpack _). vm_compute. exact I.
  - apply (bool_decide_unpack _). vm_compute. exact I.
Defined.

(** ** Alias dereferencing *)

Lemma find_alias_Some tasks a c :
  find_alias tasks a = Some c →
  ∃ other, other ∈ tasks ∧ alias other = Some a ∧ creates other = c.
Proof.
  induction tasks as [|t tasks IH]; simpl; [done|].
  case_bool_decide as Ha.
  - intros [= <-]. exists t. split; [left|done].
  - intros (other & ? & ?)%IH. exists other. split; [by right|done].
Qed.

Lemma find_alias_None tasks a :
  find_alias tasks a = None ↔ ∀ other, other ∈ tasks → alias other ≠ Some a.
Proof.
  induction tasks as [|t tasks IH]; simpl.
  - split; [|done]. intros _ other Hin. by apply elem_of_nil in Hin.
  - case_bool_decide as Ha.
    + split; [done|]. intros Hall. destruct (Hall t); [left|done].
    + rewrite IH. split.
      * intros Hall other [->|Hin]%elem_of_cons; [done|by apply Hall].
      * intros Hall other Hin. apply Hall. by right.
Qed.

Lemma graph_keys_cons t tasks :
  graph_keys (t :: tasks) = task_keys t ++ graph_keys tasks.
Proof. done. Qed.

Lemma elem_of_graph_keys k tasks :
  k ∈ graph_keys tasks ↔ ∃ t, t ∈ tasks ∧ k ∈ task_keys t.
Proof.
  unfold graph_keys. rewrite list_elem_of_bind. naive_solver.
Qed.

Lemma alias_in_task_keys t a : alias t = Some a → a ∈ task_keys t.
Proof. unfold task_keys. intros ->. left. Qed.

Lemma creates_in_task_keys t : creates t ∈ task_keys t.
Proof. unfold task_keys. destruct (alias t); set_solver. Qed.

(** With distinct keys an alias names one task, and the helper finds it. *)
Lemma find_alias_unique tasks other a :
  NoDup (graph_keys tasks) → other ∈ tasks → alias other = Some a →
  find_alias tasks a = Some (creates other).
Proof.
  induction tasks as [|t tasks IH]; intros Hnd Hin Ha.
  - by apply elem_of_nil in Hin.
  - rewrite graph_keys_cons in Hnd.
    apply NoDup_app in Hnd as (_ & Hdisj & Hnd). simpl.
    case_bool_decide as Ht.
    + apply elem_of_cons in Hin as [->|Hin]; [done|]. exfalso.
      apply (Hdisj a); [by apply alias_in_task_keys|].
      apply elem_of_graph_keys. exists other. split; [done|].
      by apply alias_in_task_keys.
    + apply elem_of_cons in Hin as [->|Hin]; [done|]. by apply IH.
Qed.

(** With distinct keys no [creates] is an alias: a dereferenced entry is
    not dereferenced any further. *)
Lemma find_alias_creates tasks other :
  NoDup (graph_keys tasks) → other ∈ tasks →
  find_alias tasks (creates other) = None.
Proof.
  intros Hnd Hin. apply find_alias_None. intros t Ht Ha.
  apply list_elem_of_lookup in Hin as [i Hi].
  apply list_elem_of_lookup in Ht as [j Hj].
  destruct (decide (i = j)) as [->|Hij].
  - assert (t = other) as -> by congruence.
    assert (NoDup (task_keys other)) as Hk.
    { apply (take_drop_middle _ _ _) in Hi. rewrite <- Hi in Hnd.
      rewrite graph_keys_app in Hnd. apply NoDup_app in Hnd as (_ & _ & Hnd).
      rewrite graph_keys_cons in Hnd.
      by apply NoDup_app in Hnd as (Hnd & _ & _). }
    unfold task_keys in Hk. rewrite Ha in Hk.
    apply NoDup_cons in Hk as [Hk _]. set_solver.
  - assert (∃ ki kj, ki ≠ kj ∧ graph_keys tasks !! ki = Some (creates other)
                     ∧ graph_keys tasks !! kj = Some (creates other))
      as (ki & kj & Hne & Hki & Hkj).
    { clear Hnd. revert i j Hi Hj Hij.
      induction tasks as [|t0 tasks IH]; intros i j Hi Hj Hij; [done|].
      rewrite graph_keys_cons.
      assert (0 < length (task_keys t0)) as Hlen
        by (unfold task_keys; destruct (alias t0); simpl; lia).
      destruct i as [|i], j as [|j]; simpl in *; simplify_eq.
      - pose proof (creates_in_task_keys other) as [ki Hki]%list_elem_of_lookup.
        assert (creates other ∈ graph_keys tasks) as [kj Hkj]%list_elem_of_lookup.
        { apply elem_of_graph_keys. exists t. split.
          - apply list_elem_of_lookup. eauto.
          - by apply alias_in_task_keys. }
        exists ki, (length (task_keys other) + kj). split_and!.
        + apply lookup_lt_Some in Hki. lia.
        + by apply lookup_app_l_Some.
        + rewrite lookup_app_r by lia. rewrite <- Hkj. f_equal. lia.
      - pose proof (alias_in_task_keys _ _ Ha) as [kj Hkj]%list_elem_of_lookup.
        assert (creates other ∈ graph_keys tasks) as [ki Hki]%list_elem_of_lookup.
        { apply elem_of_graph_keys. exists other. split.
          - apply list_elem_of_lookup. eauto.
          - apply creates_in_task_keys. }
        exists (length (task_keys t) + ki), kj. split_and!.
        + apply lookup_lt_Some in Hkj. lia.
        + rewrite lookup_app_r by lia. rewrite <- Hki. f_equal. lia.
        + by apply lookup_app_l_Some.
      - destruct (IH i j Hi Hj) as (ki & kj & Hne & Hki & Hkj); [congruence|].
        exists (length (task_keys t0) + ki), (length (task_keys t0) + kj).
        split_and!; [lia| |];
          rewrite lookup_app_r by lia; [rewrite <- Hki|rewrite <- Hkj];
          f_equal; lia. }
    apply Hne. by eapply NoDup_lookup.
Qed.

(** The loop over a list rewrites every entry, and only that entry. *)
Lemma dereference_list_spec g pre todo :
  dereference_list g (length pre) todo (pre ++ todo)
  = pre ++ (dereferenced g <$> todo).
Proof.
  revert pre. induction todo as [|d todo IH]; intros pre; simpl; [done|].
  replace (match _dereference_alias_helper g d with
           | Some dd => <[length pre := Some dd]> (pre ++ d :: todo)
           | None => pre ++ d :: todo
           end) with ((pre ++ [dereferenced g d]) ++ todo).
  - replace (S (length pre)) with (length (pre ++ [dereferenced g d]))
      by (rewrite length_app; simpl; lia).
    rewrite IH. by rewrite <- (assoc_L (++)).
  - unfold dereferenced. rewrite <- (assoc_L (++)). simpl.
    destruct (_dereference_alias_helper g d); [|done].
    rewrite insert_app_r_alt by lia. by rewrite Nat.sub_diag.
Qed.

Lemma dereference_tuple_Ok g (ds : list (option string)) :
  dereference_tuple g ds = Ok tt →
  ∀ d, d ∈ ds → _dereference_alias_helper g d = None.
Proof.
  induction ds as [|d0 ds IH]; simpl; intros Hok d Hin.
  - by apply elem_of_nil in Hin.
  - destruct (_dereference_alias_helper g d0) eqn:Hd0; [done|].
    apply elem_of_cons in Hin as [->|Hin]; [done|by apply IH].
Qed.

Lemma dereference_tuple_unmatched g (ds : list (option string)) :
  (∀ d, d ∈ ds → _dereference_alias_helper g d = None) →
  dereference_tuple g ds = Ok tt.
Proof.
  induction ds as [|d0 ds IH]; simpl; intros Hall; [done|].
  rewrite (Hall d0) by left. apply IH. intros d Hd. apply Hall. by right.
Qed.

Lemma dereferenced_unmatched g (ds : list (option string)) :
  (∀ d, d ∈ ds → _dereference_alias_helper g d = None) →
  dereferenced g <$> ds = ds.
Proof.
  induction ds as [|d0 ds IH]; simpl; intros Hall; [done|].
  unfold dereferenced at 1. rewrite (Hall d0) by left. f_equal.
  apply IH. intros d Hd. apply Hall. by right.
Qed.

(** One task: its identifiers stay, every entry is dereferenced. *)
Lemma dereference_task_depends g task task' :
  dereference_task g task = Ok task' →
  depends_list task' = dereferenced g <$> depends_list task.
Proof.
  unfold dereference_task, depends_list. destruct (depends task) as [d|ds|ds] eqn:Hd.
  - unfold dereferenced. simpl.
    destruct (_dereference_alias_helper g d); intros [= <-]; simpl; by rewrite ?Hd.
  - intros [= <-]. simpl. apply (dereference_list_spec g []).
  - destruct (dereference_tuple g ds) as [[]|] eqn:Ht; [|done]. intros [= <-].
    rewrite Hd. symmetry. apply dereferenced_unmatched.
    by apply dereference_tuple_Ok.
Qed.

Lemma set_depends_same task : set_depends (depends task) task = task.
Proof. by destruct task. Qed.

(** A task none of whose entries is an alias is left as it is. *)
Lemma dereference_task_unmatched g task :
  (∀ d, d ∈ depends_list task → _dereference_alias_helper g d = None) →
  dereference_task g task = Ok task.
Proof.
  unfold dereference_task, depends_list. intros Hall.
  destruct (depends task) as [d|ds|ds] eqn:Hd.
  - by rewrite (Hall d) by left.
  - rewrite (dereference_list_spec g []). simpl.
    rewrite dereferenced_unmatched by done. by rewrite <- Hd, set_depends_same.
  - by rewrite dereference_tuple_unmatched.
Qed.

(** The helper reads only the identifiers of the tasks. *)
Lemma find_alias_identity l l' a :
  identity <$> l = identity <$> l' → find_alias l a = find_alias l' a.
Proof.
  revert l'. induction l as [|t l IH]; intros [|t' l']; simpl; try done.
  intros [= Hc Ha Hl]. rewrite Hc, Ha. case_bool_decide; [done|by apply IH].
Qed.

Lemma dereference_task_identities g g' task :
  identities g = identities g' →
  dereference_task g task = dereference_task g' task.
Proof.
  intros Hid.
  assert (∀ d, _dereference_alias_helper g d = _dereference_alias_helper g' d)
    as Hh.
  { intros [a|]; [|done]. by apply find_alias_identity. }
  unfold dereference_task. destruct (depends task) as [d|ds|ds].
  - by rewrite Hh.
  - do 3 f_equal. generalize 0 at 1 2. generalize ds at 2 4.
    induction ds as [|d ds IH]; intros cur i; simpl; [done|].
    rewrite Hh. apply IH.
  - replace (dereference_tuple g ds) with (dereference_tuple g' ds); [done|].
    induction ds as [|d ds IH]; simpl; [done|]. rewrite Hh.
    by destruct (_dereference_alias_helper g' d).
Qed.

Lemma set_task_list_insert_id g k task :
  task_list g !! k = Some task →
  set_task_list (λ l, <[k := task]> l) g = g.
Proof.
  intros Hk. destruct g. unfold set_task_list. simpl in *.
  by rewrite list_insert_id.
Qed.

(** The loop over the tasks, started at index [i] for [n] tasks: the
    tasks outside the range are untouched, those inside are dereferenced in
    the graph the loop started with. *)
Lemma dereference_loop n : ∀ i gc g',
  for_each (seq i n) (λ k,
    g' ← get;
    match task_list g' !! k with
    | Some task =>
        match dereference_task g' task with
        | Ok task' => modify (set_task_list (λ l, <[k := task']> l))
        | Raise e => raise e
        end
    | None => ret tt
    end) gc = (g', Ok tt) →
  identities g' = identities gc
  ∧ (∀ k t, task_list gc !! k = Some t → k < i ∨ i + n ≤ k →
            task_list g' !! k = Some t)
  ∧ (∀ k t, task_list gc !! k = Some t → i ≤ k < i + n →
            ∃ t', task_list g' !! k = Some t' ∧ dereference_task gc t = Ok t').
Proof.
  induction n as [|n IH]; intros i gc g'; simpl.
  - intros [= <-]. split_and!; [done|done|]. intros; lia.
  - intros Hrun. apply bind_inv_ok in Hrun as (g1 & [] & Hbody & Hrun).
    apply IH in Hrun as (Hid & Hout & Hin). clear IH.
    unfold mbind, M_bind, bind, get in Hbody. simpl in Hbody.
    destruct (task_list gc !! i) as [ti|] eqn:Hi.
    + destruct (dereference_task gc ti) as [ti'|e] eqn:Hti; [|done].
      injection Hbody as <-.
      assert (identities (set_task_list (λ l, <[i := ti']> l) gc)
              = identities gc) as Hid1.
      { unfold identities. simpl. eapply identity_insert; [done|].
        by eapply dereference_task_identity. }
      simpl in *. split_and!.
      * congruence.
      * intros k t Hk Hrange. apply Hout; [|lia].
        rewrite list_lookup_insert_ne by lia. done.
      * intros k t Hk Hrange. destruct (decide (k = i)) as [->|Hne].
        -- exists ti'. split; [|congruence]. apply Hout; [|lia].
           apply list_lookup_insert_eq. by eapply lookup_lt_Some.
        -- destruct (Hin k t) as (t' & Hk' & Ht'); [|lia|].
           { by rewrite list_lookup_insert_ne by done. }
           exists t'. split; [done|]. rewrite <- Ht'.
           by apply dereference_task_identities.
    + injection Hbody as <-. split_and!; [done| |].
      * intros k t Hk Hrange. apply Hout; [done|].
        destruct (decide (k = i)) as [->|]; [congruence|lia].
      * intros k t Hk Hrange. apply Hin; [done|].
        destruct (decide (k = i)) as [->|]; [congruence|lia].
Qed.

(** On a graph whose tasks are all left as they are, the loop changes
    nothing. *)
Lemma dereference_loop_fixed g n : ∀ i,
  (∀ k t, task_list g !! k = Some t → dereference_task g t = Ok t) →
  for_each (seq i n) (λ k,
    g' ← get;
    match task_list g' !! k with
    | Some task =>
        match dereference_task g' task with
        | Ok task' => modify (set_task_list (λ l, <[k := task']> l))
        | Raise e => raise e
        end
    | None => ret tt
    end) g = (g, Ok tt).
Proof.
  intros i Hfix. revert i. induction n as [|n IH]; intros i; simpl; [done|].
  erewrite bind_ok; [apply IH|].
  unfold mbind, M_bind, bind, get. simpl.
  destruct (task_list g !! i) as [ti|] eqn:Hi; [|done].
  rewrite (Hfix i ti Hi). unfold modify. by rewrite set_task_list_insert_id.
Qed.

(** On a graph whose keys are pairwise distinct (as [add] leaves every
    graph), when dereferencing returns, every task keeps its identifiers
    and its number of [depends] entries; an entry that is the alias of a
    task of the graph has become the [creates] of that task, an entry that
    is no task's alias is unchanged; and dereferencing the result once more
    returns the very same graph. *)
Lemma dereference_when_it_returns (g g' : TaskGraph) :
  NoDup (graph_keys (task_list g)) →
  _dereference_depends_aliases g = (g', Ok tt) →
  (∀ k task, task_list g !! k = Some task →
     ∃ task', task_list g' !! k = Some task'
       ∧ identity task' = identity task
       ∧ length (depends_list task') = length (depends_list task)
       ∧ ∀ j a, depends_list task !! j = Some (Some a) →
           (∀ other, other ∈ task_list g → alias other = Some a →
              depends_list task' !! j = Some (Some (creates other)))
           ∧ ((∀ other, other ∈ task_list g → alias other ≠ Some a) →
              depends_list task' !! j = Some (Some a)))
  ∧ length (task_list g') = length (task_list g)
  ∧ _dereference_depends_aliases g' = (g', Ok tt).
Proof.
  intros Hnd Hrun. unfold _dereference_depends_aliases in Hrun.
  unfold mbind at 1, M_bind at 1, bind at 1, get at 1 in Hrun.
  apply dereference_loop in Hrun as (Hid & _ & Hin).
  assert (∀ k task, task_list g !! k = Some task →
            ∃ task', task_list g' !! k = Some task'
                     ∧ dereference_task g task = Ok task') as Hin'.
  { intros k task Hk. apply Hin; [done|]. apply lookup_lt_Some in Hk. lia. }
  assert (length (task_list g') = length (task_list g)) as Hlen.
  { unfold identities in Hid. apply (f_equal length) in Hid.
    by rewrite !length_fmap in Hid. }
  split_and!; [|done|].
  - intros k task Hk. destruct (Hin' k task Hk) as (task' & Hk' & Ht).
    exists task'. pose proof (dereference_task_depends _ _ _ Ht) as Hdep.
    split_and!; [done|by eapply dereference_task_identity| |].
    + by rewrite Hdep, length_fmap.
    + intros j a Hj. rewrite Hdep, list_lookup_fmap, Hj. simpl.
      unfold dereferenced. simpl. split.
      * intros other Ho Ha. by rewrite (find_alias_unique _ other a).
      * intros Hno. by rewrite (proj2 (find_alias_None _ _) Hno).
  - unfold _dereference_depends_aliases.
    unfold mbind at 1, M_bind at 1, bind at 1, get at 1.
    apply dereference_loop_fixed. intros k t' Hk'.
    destruct (lookup_lt_is_Some_2 (task_list g) k) as [t Hk].
    { rewrite <- Hlen. by eapply lookup_lt_Some. }
    destruct (Hin' k t Hk) as (t'' & Hk'' & Ht). assert (t'' = t') as -> by congruence.
    rewrite (dereference_task_identities g' g) by done.
    apply dereference_task_unmatched. intros d Hd.
    rewrite (dereference_task_depends _ _ _ Ht) in Hd.
    apply list_elem_of_fmap in Hd as (d0 & -> & _).
    unfold dereferenced. destruct (_dereference_alias_helper g d0) as [dd|] eqn:Hd0; [|done].
    destruct d0 as [a|]; [|done]. simpl in Hd0.
    apply find_alias_Some in Hd0 as (other & Ho & _ & <-). simpl.
    by apply find_alias_creates.
Qed.

Lemma for_each_raise_inv {S A} (l : list A) (body : A → M S unit) s s' e :
  for_each l body s = (s', Raise e) →
  ∃ x s1, x ∈ l ∧ body x s1 = (s', Raise e).
Proof.
  revert s. induction l as [|x l IH]; intros s; simpl; [done|].
  unfold mbind, M_bind, bind.
  destruct (body x s) as [s1 [[]|e1]] eqn:Hx.
  - intros (y & s2 & Hy & Hbody)%IH. exists y, s2. split; [by right|done].
  - intros [= <- <-]. exists x, s. split; [by left|done].
Qed.

Lemma dereference_tuple_Raise g (ds : list (option string)) e :
  dereference_tuple g ds = Raise e → e = TypeError.
Proof.
  induction ds as [|d ds IH]; simpl; [done|].
  destruct (_dereference_alias_helper g d); [by intros [= <-]|done].
Qed.

Lemma dereference_task_Raise g task e :
  dereference_task g task = Raise e →
  e = TypeError ∧ ∃ ds, depends task = DependsTuple ds.
Proof.
  unfold dereference_task. destruct (depends task) as [d|ds|ds].
  - by destruct (_dereference_alias_helper g d).
  - done.
  - destruct (dereference_tuple g ds) as [[]|e'] eqn:Ht; [done|].
    intros [= <-]. split; [by eapply dereference_tuple_Raise|by exists ds].
Qed.

(** The only exception dereferencing raises is that of the assignment to
    an item of a tuple. *)
Lemma _dereference_depends_aliases_Raise g g' e :
  _dereference_depends_aliases g = (g', Raise e) → e = TypeError.
Proof.
  unfold _dereference_depends_aliases.
  unfold mbind at 1, M_bind at 1, bind at 1, get at 1.
  intros (k & gc & _ & Hbody)%for_each_raise_inv.
  unfold mbind, M_bind, bind, get in Hbody. simpl in Hbody.
  destruct (task_list gc !! k) as [task|]; [|done].
  destruct (dereference_task gc task) as [task'|e'] eqn:Hd; [done|].
  injection Hbody as _ <-. by apply dereference_task_Raise in Hd as [-> _].
Qed.

(** A task whose [depends] is a tuple is left as it is, whether
    dereferencing returns or raises. *)
Lemma _dereference_depends_aliases_tuple g k task ds :
  task_list g !! k = Some task → depends task = DependsTuple ds →
  task_list (_dereference_depends_aliases g).1 !! k = Some task.
Proof.
  intros Hk Hds. unfold _dereference_depends_aliases.
  unfold mbind at 1, M_bind at 1, bind at 1, get at 1.
  apply (for_each_preserves (λ gc, task_list gc !! k = Some task)); [|done].
  intros i gc Hgc. unfold mbind, M_bind, bind, get. simpl.
  destruct (task_list gc !! i) as [ti|] eqn:Hi; [|done].
  destruct (dereference_task gc ti) as [ti'|e'] eqn:Hd; [|done]. simpl.
  destruct (decide (i = k)) as [->|Hne].
  - assert (ti = task) as -> by congruence.
    unfold dereference_task in Hd. rewrite Hds in Hd.
    destruct (dereference_tuple gc ds); [|done]. injection Hd as <-.
    by rewrite list_insert_id.
  - by rewrite list_lookup_insert_ne.
Qed.

(** A tuple with an entry that is the alias of a task makes dereferencing
    raise [TypeError]. *)
Lemma _dereference_depends_aliases_tuple_alias g k task ds a other :
  task_list g !! k = Some task → depends task = DependsTuple ds →
  Some a ∈ ds → other ∈ task_list g → alias other = Some a →
  ∃ g', _dereference_depends_aliases g = (g', Raise TypeError)
        ∧ task_list g' !! k = Some task.
Proof.
  intros Hk Hds Ha Hother Halias.
  pose proof (_dereference_depends_aliases_tuple g k task ds Hk Hds) as Hkept.
  destruct (_dereference_depends_aliases g) as [g' [[]|e]] eqn:Hrun.
  - exfalso. unfold _dereference_depends_aliases in Hrun.
    unfold mbind at 1, M_bind at 1, bind at 1, get at 1 in Hrun.
    apply dereference_loop in Hrun as (_ & _ & Hin).
    destruct (Hin k task Hk) as (task' & _ & Ht).
    { apply lookup_lt_Some in Hk. lia. }
    unfold dereference_task in Ht. rewrite Hds in Ht.
    destruct (dereference_tuple g ds) as [[]|] eqn:Htuple; [|done].
    pose proof (dereference_tuple_Ok g ds Htuple (Some a) Ha) as Hnone.
    simpl in Hnone. by apply (proj1 (find_alias_None _ _) Hnone other).
  - apply _dereference_depends_aliases_Raise in Hrun as Hrun'. subst e.
    by exists g'.
Qed.

(** C8. Dereferencing replaces the aliases in a [depends] that is a
    single value or a list, and is idempotent there: on a graph whose keys
    are pairwise distinct, when it returns, every entry that is the alias
    of a task has become the [creates] of that task, every other entry is
    unchanged, and a second run returns the very same graph. In a
    [depends] that is a tuple, which the code's own test admits, no alias
    is replaced: an entry that is the alias of a task makes dereferencing
    raise [TypeError], the tuple is left as it was, and the constructor
    raises. The graph of [decl_a] and of a task that names the alias of [a]
    in a tuple shows it; in a list, the same entry is replaced. *)
Theorem dereference_replaces_aliases_and_is_idempotent :
  (∀ g g' : TaskGraph,
     NoDup (graph_keys (task_list g)) →
     _dereference_depends_aliases g = (g', Ok tt) →
     (∀ k task, task_list g !! k = Some task →
        ∃ task', task_list g' !! k = Some task'
          ∧ identity task' = identity task
          ∧ length (depends_list task') = length (depends_list task)
          ∧ ∀ j a, depends_list task !! j = Some (Some a) →
              (∀ other, other ∈ task_list g → alias other = Some a →
                 depends_list task' !! j = Some (Some (creates other)))
              ∧ ((∀ other, other ∈ task_list g → alias other ≠ Some a) →
                 depends_list task' !! j = Some (Some a)))
     ∧ length (task_list g') = length (task_list g)
     ∧ _dereference_depends_aliases g' = (g', Ok tt))
  ∧ (∀ (g : TaskGraph) k task ds a other,
       task_list g !! k = Some task → depends task = DependsTuple ds →
       Some a ∈ ds → other ∈ task_list g → alias other = Some a →
       ∃ g', _dereference_depends_aliases g = (g', Raise TypeError)
             ∧ task_list g' !! k = Some task)
  ∧ (∃ g', _dereference_depends_aliases example_tuple = (g', Raise TypeError)
           ∧ depends <$> task_list g'
             = [DependsScalar None; DependsTuple [Some "first"]])
  ∧ (∃ m', TaskGraph_init (H := example_runtime) (H0 := example_collaborators)
             "wf.yaml" [decl_a; decl_tuple] example_machine
           = (m', Raise TypeError))
  ∧ (∃ g', _dereference_depends_aliases example_added = (g', Ok tt)
           ∧ depends <$> task_list example_added
             = [DependsScalar None; DependsList [Some "first"];
                DependsTuple [Some "b"; None]]
           ∧ depends <$> task_list g'
             = [DependsScalar None; DependsList [Some "a"];
                DependsTuple [Some "b"; None]]).
Proof.
  split_and!.
  - apply dereference_when_it_returns.
  - apply _dereference_depends_aliases_tuple_alias.
  - eexists. split; [vm_compute; reflexivity|reflexivity].
  - eexists. vm_compute. reflexivity.
  - eexists. split; [vm_compute; reflexivity|]. split; reflexivity.
Qed.

(** ** The state store *)

Lemma foldl_insert_union {V} (items : list (string * V)) (acc : gmap string V) :
  NoDup items.*1 →
  foldl (λ acc item, <[item.1 := item.2]> acc) acc items
  = list_to_map items ∪ acc.
Proof.
  revert acc. induction items as [|[k v] items IH]; intros acc Hnd; simpl.
  - by rewrite (left_id_L ∅ (∪)).
  - apply NoDup_cons in Hnd as [Hk Hnd]. rewrite IH by done.
    apply map_eq. intros j. rewrite !lookup_union, !lookup_insert.
    destruct (decide (k = j)) as [->|Hne]; [|done].
    rewrite (not_elem_of_list_to_map_1 _ j) by done.
    by destruct (acc !! j).
Qed.

(** Reading the rows written from a list of items enters the items in
    their order. *)
Lemma read_rows_written {V} (cell : V → string) (items : list (string * V))
    (acc : gmap string string) :
  read_rows ((λ item : string * V, [item.1; cell item.2]) <$> items) acc
  = Ok (foldl (λ acc item, <[item.1 := cell item.2]> acc) acc items).
Proof.
  revert acc. induction items as [|[k v] items IH]; intros acc; simpl; [done|].
  apply IH.
Qed.

Section store_facts.
Context `{PyRuntime}.

Lemma dict_items_NoDup {V} (d : gmap string V) : NoDup (dict_items d).*1.
Proof. rewrite dict_items_perm. apply NoDup_fst_map_to_list. Qed.

Lemma list_to_map_dict_items {V} (d : gmap string V) :
  list_to_map (dict_items d) = d.
Proof.
  rewrite <- (list_to_map_to_list d) at 2.
  apply list_to_map_proper; [apply dict_items_NoDup|apply dict_items_perm].
Qed.

(** Whatever the order of the items, folding them into a table gives the
    dictionary laid over the table. *)
Lemma foldl_dict_items {V W} (f : V → W) (d : gmap string V)
    (acc : gmap string W) :
  foldl (λ acc item, <[item.1 := f item.2]> acc) acc (dict_items d)
  = (f <$> d) ∪ acc.
Proof.
  transitivity (foldl (λ acc item, <[item.1 := item.2]> acc) acc
                      (prod_map id f <$> dict_items d)).
  { generalize (dict_items d). intros l. revert acc.
    induction l as [|[k v] l IH]; intros acc; simpl; [done|]. apply IH. }
  assert ((prod_map id f <$> dict_items d).*1 = (dict_items d).*1) as Hfst.
  { rewrite <- list_fmap_compose. apply list_fmap_ext. by intros ? []. }
  rewrite foldl_insert_union by (rewrite Hfst; apply dict_items_NoDup).
  f_equal. rewrite <- (list_to_map_dict_items d) at 2.
  by rewrite list_to_map_fmap.
Qed.

(** What has been written is what is read back. *)
Lemma read_written {V} (cell : V → string) (d : gmap string V) loc w :
  read_from_storage loc (write_to_storage cell d loc w) = Ok (cell <$> d).
Proof.
  unfold read_from_storage, write_to_storage.
  destruct loc; simpl; rewrite read_rows_written, foldl_dict_items;
    by rewrite (right_id_L ∅ (∪)).
Qed.

Lemma read_other_written {V} (cell : V → string) (d : gmap string V) w :
  read_from_storage StatePath (write_to_storage cell d DurationPath w)
  = read_from_storage StatePath w.
Proof. done. Qed.

End store_facts.

Section save_state_facts.
Context `{PyRuntime} `{Collaborators}.

(** The table [save_state] writes. *)
Lemma save_state_writes override m before :
  read_from_storage StatePath (world m) = Ok before →
  save_state override m
  = (mkMachine (self m)
       (write_to_storage str_of_float (task_durations (self m)) DurationPath
          (write_to_storage id
             (let current :=
                ((λ r, get_current_state r (world m)) <$> resource_dict (self m))
                ∪ before in
              match override with
              | Some overrides => overrides ∪ current
              | None => current
              end) StatePath (world m))), Ok tt).
Proof.
  intros Hread. unfold save_state.
  unfold mbind, M_bind, bind, get, on_world, modify.
  rewrite Hread.
  rewrite (foldl_dict_items (λ r, get_current_state r (world m))).
  by destruct override.
Qed.

(** The table read back after [save_state]. *)
Lemma save_state_read_back (m : Machine)
    (override : option (gmap string string)) (before : gmap string string) :
  read_from_storage StatePath (world m) = Ok before →
  ∃ m' after,
    save_state override m = (m', Ok tt)
    ∧ read_from_storage StatePath (world m') = Ok after
    ∧ ∀ name,
        after !! name =
        match override ≫= (λ overrides, overrides !! name) with
        | Some state => Some state
        | None =>
            match resource_dict (self m) !! name with
            | Some resource => Some (get_current_state resource (world m))
            | None => before !! name
            end
        end.
Proof.
  intros Hread. eexists _, _. split; [by apply save_state_writes|].
  cbn [world]. rewrite read_other_written, read_written.
  split; [done|].
  intros name. rewrite lookup_fmap, option_fmap_id.
  destruct override as [overrides|]; simpl;
    rewrite ?lookup_union, lookup_fmap;
    destruct (resource_dict (self m) !! name); simpl;
    try destruct (overrides !! name); simpl; try done;
    by destruct (before !! name).
Qed.

(** C1. When the state table can be read, [save_state] returns, and the
    table read back afterwards is the merge: for every name, the override
    when the overrides mention it, else the current state of the resource
    when this graph owns one of that name, else the entry the table had
    before. Hence the entry of a name this graph does not own and the
    overrides do not mention is what it was, present or absent. *)
Theorem save_state_merges_into_persisted_table (m : Machine)
    (override : option (gmap string string)) (before : gmap string string) :
  read_from_storage StatePath (world m) = Ok before →
  ∃ m' after,
    save_state override m = (m', Ok tt)
    ∧ read_from_storage StatePath (world m') = Ok after
    ∧ (∀ name,
         after !! name =
         match override ≫= (λ overrides, overrides !! name) with
         | Some state => Some state
         | None =>
             match resource_dict (self m) !! name with
             | Some resource => Some (get_current_state resource (world m))
             | None => before !! name
             end
         end)
    ∧ (∀ name,
         name ∉ dom (resource_dict (self m)) →
         (∀ overrides, override = Some overrides → name ∉ dom overrides) →
         after !! name = before !! name).
Proof.
  intros Hread.
  destruct (save_state_read_back m override before Hread)
    as (m' & after & Hsave & Hafter & Hmerge).
  exists m', after. split_and!; [done|done|exact Hmerge|].
  intros name Hown Hov. rewrite Hmerge.
  apply not_elem_of_dom in Hown. rewrite Hown.
  destruct override as [overrides|]; simpl; [|done].
  specialize (Hov overrides eq_refl). apply not_elem_of_dom in Hov.
  by rewrite Hov.
Qed.

End save_state_facts.

Lemma save_state_subgraph_example :
  ∃ m' after,
    save_state (H := example_runtime) (H0 := example_collaborators)
      None example_subgraph_machine = (m', Ok tt)
    ∧ read_from_storage StatePath (world m') = Ok after
    ∧ after !! "A" = Some "new"
    ∧ after !! "B" = Some "b"
    ∧ after !! "C" = Some "c".
Proof.
  destruct (@save_state_merges_into_persisted_table example_runtime
              example_collaborators example_subgraph_machine None
              (<["C" := "c"]> (<["B" := "b"]> (<["A" := "old"]> ∅))) eq_refl)
    as (m' & after & Hsave & Hread & Hall & Hframe).
  exists m', after. split_and!; [done|done| | |].
  - rewrite Hall. reflexivity.
  - rewrite Hframe; [reflexivity| |done]. by vm_compute.
  - rewrite Hframe; [reflexivity| |done]. by vm_compute.
Defined.

(** ** Loading at construction *)

Lemma ignores_ret {A} (a : A) : ignores_state_csv (mret a : M Machine A).
Proof. done. Qed.

Lemma ignores_raise {A} e : ignores_state_csv (raise e : M Machine A).
Proof. done. Qed.

Lemma ignores_on_self {A} (c : M TaskGraph A) : ignores_state_csv (on_self c).
Proof. intros cs m. unfold on_self. simpl. by destruct (c (self m)). Qed.

Lemma ignores_bind {A B} (c : M Machine A) (k : A → M Machine B) :
  ignores_state_csv c → (∀ a, ignores_state_csv (k a)) →
  ignores_state_csv (c ≫= k).
Proof.
  intros Hc Hk cs m. unfold mbind, M_bind, bind. rewrite Hc.
  destruct (c m) as [m1 [a|e]]; simpl; [apply Hk|done].
Qed.

(** [m ← get; k m], when [k] looks at nothing of [m] but the graph, the
    duration table and the disk. *)
Lemma ignores_get {A} (k : Machine → M Machine A) :
  (∀ m0, ignores_state_csv (k m0)) →
  (∀ cs m0 m1, k (in_world_with_state cs m0) m1 = k m0 m1) →
  ignores_state_csv (get ≫= k).
Proof.
  intros Hk Hsame cs m. unfold mbind, M_bind, bind, get. rewrite Hsame.
  apply Hk.
Qed.

Lemma ignores_for_each {A} (l : list A) (body : A → M Machine unit) :
  (∀ x, ignores_state_csv (body x)) → ignores_state_csv (for_each l body).
Proof.
  intros Hbody. induction l as [|x l IH]; simpl; [apply ignores_ret|].
  apply ignores_bind; [apply Hbody|]. intros _. apply IH.
Qed.

Lemma parse_durations_lookup `{PyRuntime} items parsed task_id :
  parse_durations items = Some parsed →
  (list_to_map parsed : gmap string float) !! task_id
  = (list_to_map items : gmap string string) !! task_id ≫= float_of_string.
Proof.
  revert parsed. induction items as [|[k s] items IH]; intros parsed; simpl.
  - by intros [= <-].
  - destruct (float_of_string s) as [x|] eqn:Hs; [|done].
    destruct (parse_durations items) as [rest|]; [|done].
    intros [= <-]. simpl. rewrite !lookup_insert.
    destruct (decide (k = task_id)); [done|]. by apply IH.
Qed.

Section load_facts.
Context `{PyRuntime} `{Collaborators}.

Lemma ignores__link_dependencies : ignores_state_csv _link_dependencies.
Proof.
  unfold _link_dependencies. apply ignores_get; [|done].
  intros m0. apply ignores_for_each. intros k.
  apply ignores_get; [|done]. intros m1.
  destruct (task_list (self m1) !! k) as [task|]; [|apply ignores_ret].
  apply ignores_bind; [apply ignores_on_self|]. intros dr.
  apply ignores_bind; [apply ignores_on_self|]. intros cr.
  apply ignores_bind; [apply ignores_on_self|]. intros _.
  apply ignores_bind.
  - destruct (is_pseudotask task); [|apply ignores_ret].
    apply ignores_bind; [apply ignores_on_self|]. intros _.
    apply ignores_on_self.
  - intros _. apply ignores_for_each. intros [dep|]; [|apply ignores_ret].
    simpl. apply ignores_get; [|done]. intros m2.
    destruct (task_dict (self m2) !! dep); [apply ignores_on_self|].
    destruct (os_path_exists _ _); [apply ignores_ret|apply ignores_raise].
Qed.

Lemma ignores__load_state : ignores_state_csv _load_state.
Proof.
  unfold _load_state. apply ignores_get; [|done]. intros m0.
  destruct (read_from_storage _ _); [|apply ignores_raise].
  destruct (parse_durations _); [apply ignores_on_self|apply ignores_raise].
Qed.

Lemma ignores_TaskGraph_init path kws :
  ignores_state_csv (TaskGraph_init path kws).
Proof.
  unfold TaskGraph_init.
  apply ignores_bind; [apply ignores_on_self|]. intros _.
  apply ignores_get; [|done]. intros m0.
  apply ignores_bind.
  { destruct (os_path_exists _ _); [apply ignores_ret|]. by intros cs m. }
  intros _. apply ignores_get; [|done]. intros m1.
  apply ignores_bind.
  { destruct (os_path_exists _ _); [apply ignores_ret|]. by intros cs m. }
  intros _. apply ignores_bind.
  { apply ignores_for_each. intros kw. apply ignores_on_self. }
  intros _. apply ignores_bind; [apply ignores_on_self|]. intros _.
  apply ignores_bind; [apply ignores__link_dependencies|]. intros _.
  apply ignores__load_state.
Qed.

End load_facts.

Section duration_facts.
Context `{PyRuntime} `{Collaborators}.

Lemma add_loop_durations kws m :
  duration_view (for_each kws (λ kw, on_self (Task_init kw)) m).1
  = duration_view m.
Proof.
  apply (for_each_preserves (λ m', duration_view m' = duration_view m));
    [|done].
  intros kw s <-. unfold on_self, Task_init, duration_view. simpl.
  pose proof (add_other_fields (Task_new kw) (self s)) as (_ & Hd & _).
  destruct (add (Task_new kw) (self s)). simpl in *. by rewrite Hd.
Qed.

Lemma _dereference_depends_aliases_durations g :
  task_durations (_dereference_depends_aliases g).1 = task_durations g.
Proof.
  unfold _dereference_depends_aliases. unfold mbind, M_bind, bind, get at 1.
  apply (for_each_preserves (λ g', task_durations g' = task_durations g));
    [|done].
  intros k s Hs. unfold mbind, M_bind, bind, get. simpl.
  destruct (task_list s !! k) as [task|]; [|done].
  by destruct (dereference_task s task).
Qed.

Lemma _link_dependency_helper_durations k dependency m :
  duration_view (_link_dependency_helper k dependency m).1 = duration_view m.
Proof.
  unfold _link_dependency_helper. destruct dependency as [dep|]; [|done].
  unfold mbind, M_bind, bind, get. simpl.
  destruct (task_dict (self m) !! dep) as [h|]; [done|].
  by destruct (os_path_exists _ _).
Qed.

Lemma _link_dependencies_durations m :
  duration_view (_link_dependencies m).1 = duration_view m.
Proof.
  unfold _link_dependencies. unfold mbind, M_bind, bind, get at 1.
  apply (for_each_preserves (λ m', duration_view m' = duration_view m));
    [|done].
  intros k s Hs. cbv beta. unfold get_or_create.
  unfold mbind, M_bind, bind, get, on_self, modify, mret, M_ret, ret. simpl.
  destruct (task_list (self s) !! k) as [task|] eqn:Hk; [|done].
  destruct (is_pseudotask task); simpl;
    apply (for_each_preserves (λ m', duration_view m' = duration_view m));
    try (intros x s' Hs'; by rewrite _link_dependency_helper_durations);
    by rewrite <- Hs.
Qed.

(** A constructor that returns has read the duration table, and only
    that table: [task_durations] holds, for every task id of the table, the
    float its text parses to, and nothing else (so nothing at all when the
    file is missing); the state table is neither read nor written, the
    same graph is constructed whatever it holds. *)
Lemma constructor_loads_duration_table path kws (m m' : Machine) :
  TaskGraph_init path kws m = (m', Ok tt) →
  (∃ table,
     read_from_storage DurationPath (world m) = Ok table
     ∧ ∀ task_id, task_durations (self m') !! task_id
                  = table !! task_id ≫= float_of_string)
  ∧ (duration_csv (world m) = None → task_durations (self m') = ∅)
  ∧ (∀ c, TaskGraph_init path kws (in_world_with_state c m)
          = (in_world_with_state c m', Ok tt)).
Proof.
  intros Hinit.
  assert (∃ table,
     read_from_storage DurationPath (world m) = Ok table
     ∧ ∀ task_id, task_durations (self m') !! task_id
                  = table !! task_id ≫= float_of_string) as Hload.
  { destruct (TaskGraph_init_unfold path kws m) as (w0 & Hw0 & Heq).
    rewrite Heq in Hinit. clear Heq.
    apply bind_inv_ok in Hinit as (m1 & [] & Hadd & Hinit).
    apply bind_inv_ok in Hinit as (m2 & [] & Hderef & Hinit).
    apply bind_inv_ok in Hinit as (m3 & [] & Hlink & Hload).
    pose proof (add_loop_durations kws (mkMachine (empty_graph path) w0)) as E1.
    rewrite Hadd in E1.
    pose proof (_dereference_depends_aliases_durations (self m1)) as E2.
    unfold on_self in Hderef.
    destruct (_dereference_depends_aliases (self m1)) as [g2 r2].
    injection Hderef as <- _.
    pose proof (_link_dependencies_durations
                  (mkMachine g2 (world m1))) as E3.
    rewrite Hlink in E3. unfold duration_view in *. simpl in *.
    injection E1 as E1 E1'. injection E3 as E3 E3'.
    unfold _load_state in Hload.
    unfold mbind, M_bind, bind, get in Hload. simpl in Hload.
    unfold read_from_storage in *. simpl in *.
    rewrite E3', E1', Hw0 in Hload.
    destruct (match duration_csv (world m) with
              | Some rows => read_rows rows ∅
              | None => Ok ∅
              end) as [table|e]; [|done].
    exists table. split; [done|].
    destruct (parse_durations (dict_items table)) as [parsed|] eqn:Hp; [|done].
    injection Hload as <-. simpl. intros task_id.
    rewrite E3, E2, E1, (right_id_L ∅ (∪)).
    rewrite (parse_durations_lookup _ _ _ Hp).
    by rewrite list_to_map_dict_items. }
  split_and!; [done| |].
  - intros Hnone. destruct Hload as (table & Hread & Hall).
    unfold read_from_storage in Hread. simpl in Hread. rewrite Hnone in Hread.
    injection Hread as <-. apply map_eq. intros task_id.
    by rewrite Hall, !lookup_empty.
  - intros c. rewrite ignores_TaskGraph_init. by rewrite Hinit.
Qed.

Lemma raises_only_bind {S A B} Q (c : M S A) (k : A → M S B) :
  raises_only Q c → (∀ a, raises_only Q (k a)) → raises_only Q (c ≫= k).
Proof.
  intros Hc Hk s s' e. unfold mbind, M_bind, bind.
  destruct (c s) as [s1 [a|e1]] eqn:Hcs.
  - apply Hk.
  - intros [= <- <-]. by eapply Hc.
Qed.

Lemma raises_only_for_each {S A} Q (l : list A) (body : A → M S unit) :
  (∀ x, raises_only Q (body x)) → raises_only Q (for_each l body).
Proof.
  intros Hbody. induction l as [|x l IH]; simpl.
  - by intros s s' e.
  - by apply raises_only_bind.
Qed.

Lemma raises_only_on_self {A} Q (c : M TaskGraph A) :
  raises_only Q c → raises_only Q (on_self c).
Proof.
  intros Hc s s' e. unfold on_self.
  destruct (c (self s)) as [g [a|e1]] eqn:Hcs; [done|].
  intros [= <- <-]. by eapply Hc.
Qed.

Lemma add_raises_only task : raises_only construction_error (add task).
Proof.
  intros g g' e. unfold add. unfold_monad. simpl.
  destruct (alias task) as [a|]; simpl; repeat case_bool_decide; simpl;
    intros [= <- <-]; done.
Qed.

Lemma _link_dependency_helper_raises_only k dependency :
  raises_only construction_error (_link_dependency_helper k dependency).
Proof.
  destruct dependency as [dep|]; [|by intros s s' e]. simpl.
  apply raises_only_bind; [by intros s s' e|]. intros m.
  destruct (task_dict (self m) !! dep) as [h|].
  - apply raises_only_on_self. by intros s s' e.
  - destruct (os_path_exists _ _); [by intros s s' e|].
    by intros s s' e [= <- <-].
Qed.

Lemma _link_dependencies_raises_only :
  raises_only construction_error _link_dependencies.
Proof.
  unfold _link_dependencies.
  apply raises_only_bind; [by intros s s' e|]. intros m.
  apply raises_only_for_each. intros k.
  apply raises_only_bind; [by intros s s' e|]. intros m1.
  destruct (task_list (self m1) !! k) as [task|]; [|by intros s s' e].
  apply raises_only_bind; [by intros s s' e|]. intros dr.
  apply raises_only_bind; [by intros s s' e|]. intros cr.
  apply raises_only_bind; [by intros s s' e|]. intros [].
  apply raises_only_bind.
  - destruct (is_pseudotask task); by intros s s' e.
  - intros []. apply raises_only_for_each.
    apply _link_dependency_helper_raises_only.
Qed.

(** Without a duration file, [_load_state] returns and changes nothing. *)
Lemma _load_state_missing (m : Machine) :
  duration_csv (world m) = None → _load_state m = (m, Ok tt).
Proof.
  intros Hnone. unfold _load_state. unfold mbind, M_bind, bind, get.
  unfold read_from_storage. simpl. rewrite Hnone.
  pose proof (dict_items_perm (∅ : gmap string string)) as Hperm.
  rewrite map_to_list_empty in Hperm. apply Permutation_nil_r in Hperm.
  rewrite Hperm. simpl. unfold on_self, modify. simpl.
  destruct m as [[] w]. unfold set_task_durations. simpl.
  by rewrite (left_id_L ∅ (∪)).
Qed.

(** Without a duration file the constructor is not stopped by the
    loading: it returns with no duration, unless one of the passes before
    has raised. *)
Lemma constructor_without_duration_table path kws (m : Machine) :
  duration_csv (world m) = None →
  match TaskGraph_init path kws m with
  | (m', Ok _) => task_durations (self m') = ∅
  | (_, Raise e) => construction_error e
  end.
Proof.
  intros Hnone.
  destruct (TaskGraph_init_unfold path kws m) as (w0 & Hw0 & ->).
  set (m0 := mkMachine (empty_graph path) w0).
  pose proof (add_loop_durations kws m0) as E1.
  destruct (for_each kws (λ kw, on_self (Task_init kw)) m0)
    as [m1 [[]|e]] eqn:Hadd.
  2: { rewrite (bind_raise _ _ _ _ _ Hadd).
       revert Hadd. apply raises_only_for_each. intros kw.
       apply raises_only_on_self, add_raises_only. }
  rewrite (bind_ok _ _ _ _ _ Hadd).
  pose proof (_dereference_depends_aliases_durations (self m1)) as E2.
  destruct (on_self _dereference_depends_aliases m1)
    as [m2 [[]|e]] eqn:Hderef.
  2: { rewrite (bind_raise _ _ _ _ _ Hderef).
       unfold on_self in Hderef.
       destruct (_dereference_depends_aliases (self m1)) as [g2 [[]|e2]] eqn:Hd;
         [done|].
       injection Hderef as _ <-.
       by rewrite (_dereference_depends_aliases_Raise _ _ _ Hd). }
  rewrite (bind_ok _ _ _ _ _ Hderef).
  assert (duration_view m2 = duration_view m1) as E2'.
  { unfold on_self in Hderef.
    destruct (_dereference_depends_aliases (self m1)) as [g2 r2].
    injection Hderef as <- _. unfold duration_view. simpl in *.
    by rewrite E2. }
  pose proof (_link_dependencies_durations m2) as E3.
  destruct (_link_dependencies m2) as [m3 [[]|e]] eqn:Hlink.
  2: { rewrite (bind_raise _ _ _ _ _ Hlink).
       by eapply _link_dependencies_raises_only. }
  rewrite (bind_ok _ _ _ _ _ Hlink). simpl in E1, E3.
  assert (duration_view m3 = (∅, None)) as [= Hd Hc].
  { rewrite E3, E2', E1. unfold duration_view, m0. simpl.
    by rewrite Hw0, Hnone. }
  by rewrite (_load_state_missing m3 Hc).
Qed.

End duration_facts.

(** No attribute of the constructed graph holds the persisted resource
    states. Constructed in a workspace without a state table and in one
    whose state table has an entry for [a], the graph is the same. *)
Lemma resource_states_not_loaded :
  ¬ ∃ resource_states : TaskGraph → gmap string string,
      ∀ w m',
        TaskGraph_init (H := example_runtime) (H0 := example_collaborators)
          "wf.yaml" [decl_a; decl_b] (mkMachine (empty_graph "wf.yaml") w)
          = (m', Ok tt) →
        read_from_storage StatePath w = Ok (resource_states (self m')).
Proof.
  intros (resource_states & Hall).
  pose proof (Hall (with_state_csv None example_timed_world) _
                (ltac:(vm_compute; reflexivity))) as H1.
  pose proof (Hall example_timed_world _ (ltac:(vm_compute; reflexivity))) as H2.
  cbn [self] in H1, H2. rewrite <- H1 in H2.
  apply (f_equal (λ r, match r with
                       | Ok t => t !! "a"
                       | Raise _ => None
                       end)) in H2.
  vm_compute in H2. discriminate.
Qed.

(** C6. The constructor loads the duration table: [task_durations] holds,
    for every task id of the table, the float its text parses to, and
    nothing else. A missing file is an empty table and no error:
    [read_from_storage] answers with the empty dictionary, [_load_state]
    returns and changes nothing, and the constructor, if none of the
    passes before the loading has raised, returns with no duration. The
    resource-state table is not loaded, against the claim and against the
    docstring of [_load_state]: the state table is not read, the same graph
    is constructed whatever it holds, and no attribute of the graph holds
    its entries. In the workspace whose state table has the entry
    [a, fingerprint] and whose duration table has the entry [a, 7200.0],
    the constructed graph has the duration and is the graph constructed
    without state table. *)
Theorem construction_loads_durations_only :
  (∀ loc w, open_csv loc w = None → read_from_storage loc w = Ok ∅)
  ∧ (∀ `{PyRuntime} (m : Machine),
       duration_csv (world m) = None → _load_state m = (m, Ok tt))
  ∧ (∀ `{PyRuntime} `{Collaborators} path kws (m : Machine),
       duration_csv (world m) = None →
       match TaskGraph_init path kws m with
       | (m', Ok _) => task_durations (self m') = ∅
       | (_, Raise e) => construction_error e
       end)
  ∧ (∀ `{PyRuntime} `{Collaborators} path kws (m m' : Machine),
       TaskGraph_init path kws m = (m', Ok tt) →
       (∃ table,
          read_from_storage DurationPath (world m) = Ok table
          ∧ ∀ task_id, task_durations (self m') !! task_id
                       = table !! task_id ≫= float_of_string)
       ∧ (∀ c, TaskGraph_init path kws (in_world_with_state c m)
               = (in_world_with_state c m', Ok tt)))
  ∧ (∃ m',
       TaskGraph_init (H := example_runtime) (H0 := example_collaborators)
         "wf.yaml" [decl_a; decl_b]
         (mkMachine (empty_graph "wf.yaml") example_timed_world) = (m', Ok tt)
       ∧ read_from_storage StatePath example_timed_world
         = Ok {["a" := "fingerprint"]}
       ∧ task_durations (self m') = {["a" := 7200%float]}
       ∧ TaskGraph_init (H := example_runtime) (H0 := example_collaborators)
           "wf.yaml" [decl_a; decl_b]
           (mkMachine (empty_graph "wf.yaml")
              (with_state_csv None example_timed_world))
         = (in_world_with_state None m', Ok tt))
  ∧ (¬ ∃ resource_states : TaskGraph → gmap string string,
         ∀ w m',
           TaskGraph_init (H := example_runtime) (H0 := example_collaborators)
             "wf.yaml" [decl_a; decl_b] (mkMachine (empty_graph "wf.yaml") w)
             = (m', Ok tt) →
           read_from_storage StatePath w = Ok (resource_states (self m'))).
Proof.
  split_and!.
  - intros loc w Hnone. unfold read_from_storage. by rewrite Hnone.
  - intros R m. apply _load_state_missing.
  - intros R C path kws m. apply constructor_without_duration_table.
  - intros R C path kws m m' Hinit.
    destruct (constructor_loads_duration_table path kws m m' Hinit)
      as (Hload & _ & Hsame).
    by split.
  - eexists. split; [vm_compute; reflexivity|].
    split; [by vm_compute|]. split; [by vm_compute|].
    vm_compute. reflexivity.
  - apply resource_states_not_loaded.
Qed.

(** ** Identifier resolution *)

(** ** Identifier resolution *)

(** C5. [get_tasks] answers an id or an alias with the one task entered
    under it; for any other identifier it raises [AttributeError], also
    when tasks carry the identifier as a tag: both tasks of the example
    graph carry the tag [t], and [get_tasks] raises for [t]. *)
Theorem get_tasks_raises_for_a_tag :
  (∀ `{Collaborators} (g : TaskGraph) (task_id_or_tag : string),
     get_tasks g task_id_or_tag
     = match task_dict g !! task_id_or_tag with
       | Some task => Ok [task]
       | None => Raise (AttributeError "tag_dict")
       end)
  ∧ filter (λ k, @tagged example_collaborators
                   (self example_constructed) "t" k)
           (seq 0 (length (task_list (self example_constructed))))
    = [0; 1]
  ∧ @get_tasks example_collaborators (self example_constructed) "t"
    = Raise (AttributeError "tag_dict")
  ∧ @get_tasks example_collaborators (self example_constructed) "first"
    = Ok [0].
Proof.
  split_and!; [|by vm_compute..].
  intros C g task_id_or_tag. unfold get_tasks.
  by destruct (task_dict g !! task_id_or_tag).
Qed.

(** ** Subgraph extraction *)

Section subgraph_facts.
Context `{PyRuntime} `{Collaborators}.

(** C10. Called with [None] or with the empty list, [subgraph_needed_for]
    answers with the receiver itself and does nothing else. Called with a
    non-empty list, it answers, when it returns, with an instance
    constructed during the call: the one the constructor builds, in the
    world of the call and under the same configuration path, from the
    declarations of the tasks that the upstream traversal from the
    requested tasks visits. *)
Theorem subgraph_needed_for_returns_receiver_when_empty :
  (∀ m, subgraph_needed_for None m = (m, Ok This))
  ∧ (∀ m, subgraph_needed_for (Some []) m = (m, Ok This))
  ∧ (∀ task_id task_ids m m' r,
       subgraph_needed_for (Some (task_id :: task_ids)) m = (m', Ok r) →
       ∃ tasks g' w',
         r = Fresh g'
         ∧ m' = mkMachine (self m) w'
         ∧ collect_tasks (self m) (task_id :: task_ids) [] = Ok tasks
         ∧ TaskGraph_init (config_path (self m))
             (yaml_data <$> tasks_of (self m)
                              (iter_graph (self m) (Some tasks) false))
             (mkMachine (empty_graph (config_path (self m))) (world m))
           = (mkMachine g' w', Ok tt)).
Proof.
  split_and!; [done|done|].
  intros task_id task_ids m m' r. unfold subgraph_needed_for.
  unfold mbind, M_bind, bind, get.
  destruct (collect_tasks (self m) (task_id :: task_ids) []) as [tasks|e];
    [|done].
  unfold TaskGraph_new.
  destruct (TaskGraph_init _ _ _) as [[g' w'] [[]|e]] eqn:Hinit; [|done].
  intros [= <- <-]. by exists tasks, g', w'.
Qed.

End subgraph_facts.

Lemma subgraph_needed_for_example :
  ∃ tasks g' w',
    @collect_tasks example_collaborators (self example_constructed)
      ["b"] [] = Ok tasks
    ∧ tasks = [1]
    ∧ iter_graph (H := example_runtime) (self example_constructed)
        (Some tasks) false = [1; 0]
    ∧ TaskGraph_init (H := example_runtime) (H0 := example_collaborators)
        "wf.yaml" [decl_b; decl_a]
        (mkMachine (empty_graph "wf.yaml") (world example_constructed))
      = (mkMachine g' w', Ok tt).
Proof.
  destruct (proj2 (proj2 (@subgraph_needed_for_returns_receiver_when_empty
                            example_runtime example_collaborators))
              "b" [] example_constructed _ _ (ltac:(vm_compute; reflexivity)))
    as (tasks & g' & w' & _ & _ & Htasks & Hinit).
  exists tasks, g', w'. vm_compute in Htasks. injection Htasks as <-.
  split_and!; [by vm_compute|done|by vm_compute|apply Hinit].
Defined.

(** ** Graph traversal *)

Lemma pop_snoc (l : list handle) x : pop (l ++ [x]) = Some (x, l).
Proof.
  induction l as [|y l IH]; simpl; [done|]. by rewrite IH.
Qed.

Lemma pop_Some (l : list handle) x rest :
  pop l = Some (x, rest) → l = rest ++ [x].
Proof.
  destruct (decide (l = [])) as [->|Hne]; [done|].
  destruct (exists_last Hne) as (l' & y & ->).
  rewrite pop_snoc. by intros [= <- <-].
Qed.

Lemma pop_None (l : list handle) : pop l = None → l = [].
Proof.
  destruct l as [|y l]; [done|]. simpl. by destruct (pop l) as [[]|].
Qed.

Lemma filter_ext_in {A} (P Q : A → Prop) `{∀ x, Decision (P x)}
    `{∀ x, Decision (Q x)} (l : list A) :
  (∀ x, x ∈ l → P x ↔ Q x) → filter P l = filter Q l.
Proof.
  induction l as [|x l IH]; intros HPQ; [done|].
  rewrite !filter_cons.
  rewrite IH by (intros z Hz; apply HPQ; by right).
  assert (P x ↔ Q x) as Hx by (apply HPQ; by left).
  destruct (decide (P x)) as [HP|HP], (decide (Q x)) as [HQ|HQ]; try done;
    exfalso; tauto.
Qed.

(** The inner loop: of the neighbours, those not pending are appended, in
    their order. *)
Lemma foldl_enqueue (l : list handle) : ∀ hz (hs : gset handle),
  NoDup l →
  foldl enqueue (hz, hs) l
  = (hz ++ filter (λ y, y ∉ hs) l, hs ∪ list_to_set (filter (λ y, y ∉ hs) l)).
Proof.
  induction l as [|y l IH]; intros hz hs Hnd; simpl.
  - by rewrite app_nil_r, (right_id_L ∅ (∪)).
  - apply NoDup_cons in Hnd as [Hy Hnd]. unfold enqueue at 2. simpl.
    rewrite filter_cons. case_bool_decide as Hin.
    + rewrite decide_False by (by intros ?). by apply IH.
    + rewrite decide_True by done. rewrite IH by done.
      assert (filter (λ y0, y0 ∉ hs ∪ {[y]}) l = filter (λ y0, y0 ∉ hs) l)
        as ->.
      { apply filter_ext_in. intros z Hz.
        assert (z ≠ y) by (by intros ->). set_solver. }
      rewrite <- (assoc_L (++)). simpl. f_equal. set_solver.
Qed.

Section traversal_facts.
Context `{PyRuntime}.

Lemma set_iter_NoDup n s : NoDup (set_iter n s).
Proof. rewrite set_iter_perm. apply NoDup_elements. Qed.

Lemma elem_of_set_iter n s x : x ∈ set_iter n s ↔ x ∈ s.
Proof. rewrite set_iter_perm. apply elem_of_elements. Qed.

(** The tasks one iteration appends to the horizon after visiting [task]. *)
Lemma iter_step_Some g downstream st task rest :
  popmethod downstream (horizon st) = Some (task, rest) →
  iter_step g downstream st =
  let new :=
    filter (λ y, y ∉ horizon_set st ∖ {[task]})
           (set_iter (length (task_order st ++ [task]))
                     (updownset g downstream task ∖ (done st ∪ {[task]}))) in
  Some (mkIterState (rest ++ new)
          (horizon_set st ∖ {[task]} ∪ list_to_set new)
          (done st ∪ {[task]}) (task_order st ++ [task])).
Proof.
  intros Hpop. unfold iter_step. rewrite Hpop.
  by rewrite foldl_enqueue by apply set_iter_NoDup.
Qed.

Lemma iter_step_None g downstream st :
  iter_step g downstream st = None ↔ horizon st = [].
Proof.
  unfold iter_step. split.
  - destruct (popmethod downstream (horizon st)) as [[task rest]|] eqn:Hpop.
    + by destruct (foldl _ _ _).
    + intros _. destruct downstream; simpl in Hpop.
      * by destruct (horizon st).
      * by apply pop_None.
  - intros ->. by destruct downstream.
Qed.

Lemma updownset_linked g downstream task :
  updownset g downstream task ⊆ linked_handles g.
Proof.
  unfold updownset, linked_handles.
  destruct (task_list g !! task) as [t|] eqn:Ht; [|set_solver].
  intros y Hy. apply elem_of_union_list.
  exists (upstream_tasks t ∪ downstream_tasks t). split.
  - apply list_elem_of_fmap. exists t. split; [done|].
    apply list_elem_of_lookup. eauto.
  - destruct downstream; set_solver.
Qed.

(** Every iteration brings the end of the loop nearer. *)
Lemma iter_step_measure g downstream st st' :
  iter_step g downstream st = Some st' →
  iter_measure g st' < iter_measure g st.
Proof.
  intros Hstep.
  destruct (popmethod downstream (horizon st)) as [[task rest]|] eqn:Hpop.
  2:{ unfold iter_step in Hstep. by rewrite Hpop in Hstep. }
  rewrite (iter_step_Some _ _ _ _ _ Hpop) in Hstep. simpl in Hstep.
  injection Hstep as <-. unfold iter_measure. simpl.
  set (new := filter _ _).
  assert (length (horizon st) = S (length rest)) as ->.
  { destruct downstream; simpl in Hpop.
    - destruct (horizon st); simpl in *; by simplify_eq.
    - apply pop_Some in Hpop as ->. rewrite length_app. simpl. lia. }
  assert (NoDup new) as Hnd by (apply NoDup_filter, set_iter_NoDup).
  set (S0 := linked_handles g ∖ (done st ∪ horizon_set st)).
  assert (list_to_set new ⊆ S0) as Hsub.
  { intros y Hy. apply elem_of_list_to_set in Hy.
    apply list_elem_of_filter in Hy as [Hy1 Hy2].
    apply elem_of_set_iter in Hy2.
    pose proof (updownset_linked g downstream task). set_solver. }
  assert (linked_handles g
            ∖ (done st ∪ {[task]}
               ∪ (horizon_set st ∖ {[task]} ∪ list_to_set new))
          ⊆ S0 ∖ list_to_set new) as Hle.
  { intros y. destruct (decide (y = task)); set_solver. }
  apply subseteq_size in Hle. rewrite (size_difference _ _ Hsub) in Hle.
  rewrite size_list_to_set in Hle by done.
  apply subseteq_size in Hsub. rewrite size_list_to_set in Hsub by done.
  rewrite length_app. lia.
Qed.

(** Fuel beyond the measure is not used. *)
Lemma iter_loop_enough g downstream fuel : ∀ st,
  iter_measure g st ≤ fuel →
  iter_loop fuel g downstream st
  = iter_loop (iter_measure g st) g downstream st.
Proof.
  induction fuel as [fuel IH] using lt_wf_ind. intros st Hle.
  destruct fuel as [|fuel].
  { by replace (iter_measure g st) with 0 by lia. }
  simpl. destruct (iter_step g downstream st) as [st'|] eqn:Hstep.
  - pose proof (iter_step_measure _ _ _ _ Hstep) as Hlt.
    destruct (iter_measure g st) as [|n] eqn:Hm; [lia|]. simpl.
    rewrite Hstep. rewrite (IH fuel) by lia. symmetry. apply IH; lia.
  - destruct (iter_measure g st); simpl; [done|by rewrite Hstep].
Qed.

(** [iter_graph] leaves its loop because the horizon is empty. *)
Lemma iter_loop_terminates g downstream fuel : ∀ st,
  iter_measure g st ≤ fuel →
  horizon (iter_loop fuel g downstream st) = [].
Proof.
  induction fuel as [|fuel IH]; intros st Hle; simpl.
  - unfold iter_measure in Hle. destruct (horizon st); [done|simpl in Hle; lia].
  - destruct (iter_step g downstream st) as [st'|] eqn:Hstep.
    + apply IH. apply iter_step_measure in Hstep. lia.
    + by apply iter_step_None in Hstep.
Qed.

Lemma iter_graph_terminates g tasks downstream :
  horizon (iter_final g tasks downstream) = [].
Proof. by apply iter_loop_terminates. Qed.

End traversal_facts.

Section order_facts.
Context `{PyRuntime}.

Lemma iter_loop_stopped g downstream fuel st :
  iter_step g downstream st = None → iter_loop fuel g downstream st = st.
Proof. intros Hstep. destruct fuel; simpl; [done|by rewrite Hstep]. Qed.

Lemma iter_loop_add g downstream a b : ∀ st,
  iter_loop (a + b) g downstream st
  = iter_loop b g downstream (iter_loop a g downstream st).
Proof.
  induction a as [|a IH]; intros st; simpl; [done|].
  destruct (iter_step g downstream st) as [st'|] eqn:Hstep; [apply IH|].
  by rewrite iter_loop_stopped.
Qed.

(** Downstream, the horizon is a queue: the task visited is the one that
    has waited longest, and the new ones wait behind the others. *)
Lemma iter_step_downstream g st st' :
  iter_step g true st = Some st' →
  ∃ task rest new,
    horizon st = task :: rest
    ∧ task_order st' = task_order st ++ [task]
    ∧ horizon st' = rest ++ new.
Proof.
  intros Hstep. destruct (horizon st) as [|task rest] eqn:Hh.
  { by rewrite (proj2 (iter_step_None _ _ _) Hh) in Hstep. }
  rewrite (iter_step_Some _ _ _ task rest) in Hstep by (by rewrite Hh).
  injection Hstep as <-. by eexists _, _, _.
Qed.

(** Upstream, the horizon is a stack: the task visited is the one that
    was appended last. *)
Lemma iter_step_upstream g st st' :
  iter_step g false st = Some st' →
  ∃ task rest new,
    horizon st = rest ++ [task]
    ∧ task_order st' = task_order st ++ [task]
    ∧ horizon st' = rest ++ new.
Proof.
  intros Hstep. destruct (pop (horizon st)) as [[task rest]|] eqn:Hpop.
  - rewrite (iter_step_Some _ _ _ task rest) in Hstep by done.
    injection Hstep as <-. apply pop_Some in Hpop. by eexists _, _, _.
  - apply pop_None in Hpop.
    by rewrite (proj2 (iter_step_None _ _ _) Hpop) in Hstep.
Qed.

Lemma seen_iter_loop_downstream g fuel : ∀ st,
  seen st `prefix_of` seen (iter_loop fuel g true st).
Proof.
  induction fuel as [|fuel IH]; intros st; simpl; [done|].
  destruct (iter_step g true st) as [st'|] eqn:Hstep; [|done].
  etrans; [|apply IH].
  apply iter_step_downstream in Hstep as (task & rest & new & Hh & Ho & Hh').
  unfold seen. rewrite Hh, Ho, Hh'. exists new.
  by rewrite <- !(assoc_L (++)).
Qed.

(** The order of the traversal in the two directions. Downstream it is
    first in, first out, as a breadth-first search is: every iteration
    visits the head of the horizon and appends behind it, so that at every
    moment the tasks enqueued so far are a prefix of the final order.
    Upstream every iteration visits the task at the end of the horizon,
    where the new tasks are appended: last in, first out. *)
Theorem downstream_first_in_first_out_upstream_last_in_first_out
    (g : TaskGraph) :
  (∀ tasks, visits_in_enqueue_order g tasks true)
  ∧ (∀ st st',
       iter_step g true st = Some st' →
       ∃ task rest new,
         horizon st = task :: rest
         ∧ task_order st' = task_order st ++ [task]
         ∧ horizon st' = rest ++ new)
  ∧ (∀ st st',
       iter_step g false st = Some st' →
       ∃ task rest new,
         horizon st = rest ++ [task]
         ∧ task_order st' = task_order st ++ [task]
         ∧ horizon st' = rest ++ new).
Proof.
  split_and!; [|apply iter_step_downstream|apply iter_step_upstream].
  intros tasks fuel. unfold iter_graph, iter_final. cbv zeta.
  set (st0 := iter_init g tasks true).
  rewrite <- (iter_loop_enough g true (fuel + iter_measure g st0)) by lia.
  rewrite iter_loop_add.
  pose proof (iter_loop_terminates g true (fuel + iter_measure g st0) st0) as Hend.
  rewrite iter_loop_add in Hend.
  replace (task_order (iter_loop (iter_measure g st0) g true
                         (iter_loop fuel g true st0)))
    with (seen (iter_loop (iter_measure g st0) g true
                  (iter_loop fuel g true st0))).
  - apply seen_iter_loop_downstream.
  - unfold seen. rewrite Hend by lia. apply app_nil_r.
Qed.

End order_facts.

(** C4. [iter_graph] is documented as a breadth-first search and is one
    downstream; upstream it is not. From [d] in the diamond, [c] is
    enqueued before [b], and [b] is visited before [c]; then [a], two
    links away from [d], is visited before [c], one link away: the order
    is [d; b; a; c], and the tasks enqueued so far are not visited in the
    order in which they were enqueued. *)
Lemma upstream_not_first_in_first_out :
  seen (iter_loop (H := example_runtime) 1 (self example_diamond) false
          (iter_init (H := example_runtime) (self example_diamond)
                     (Some [3]) false)) = [3; 2; 1]
  ∧ iter_graph (H := example_runtime) (self example_diamond) (Some [3]) false
    = [3; 1; 0; 2]
  ∧ ¬ visits_in_enqueue_order (H := example_runtime) (self example_diamond)
        (Some [3]) false.
Proof.
  split_and!; [by vm_compute|by vm_compute|].
  intros Hfifo. destruct (Hfifo 1) as [k Hk].
  vm_compute in Hk. discriminate.
Qed.

(** ** Completeness of the downstream traversal *)

Section completeness.
Context `{PyRuntime}.

Lemma elem_of_get_source_tasks g k :
  k ∈ get_source_tasks g
  ↔ (∃ task, task_list g !! k = Some task ∧ upstream_tasks task = ∅).
Proof.
  unfold get_source_tasks. rewrite elem_of_list_to_set, list_elem_of_filter.
  unfold is_source. split.
  - intros [Hsrc _]. destruct (task_list g !! k) as [task|]; [|done].
    exists task. split; [done|]. by apply bool_decide_unpack in Hsrc.
  - intros (task & Hk & Hup). rewrite Hk. split.
    + by apply bool_decide_pack.
    + apply elem_of_seq. apply lookup_lt_Some in Hk. lia.
Qed.

Lemma traversal_invariant_init g :
  traversal_invariant g (get_source_tasks g) (iter_init g None true).
Proof.
  unfold iter_init. simpl.
  split; unfold seen; simpl.
  - apply set_iter_NoDup.
  - done.
  - done.
  - intros x Hx. by apply elem_of_nil in Hx.
  - intros x Hx. by apply elem_of_list_to_set, elem_of_set_iter.
  - intros x Hx. apply elem_of_set_iter, elem_of_get_source_tasks in Hx
      as (task & Hk & _). by eapply lookup_lt_Some.
  - intros j x Hj. left. eapply elem_of_set_iter, list_elem_of_lookup_2, Hj.
Qed.

Lemma traversal_invariant_step g start st st' :
  well_linked g →
  traversal_invariant g start st →
  iter_step g true st = Some st' →
  traversal_invariant g start st'.
Proof.
  intros Hwl [Hnd Hdone Hhs Hclosed Hstart Hvalid Hreached] Hstep.
  destruct (horizon st) as [|task rest] eqn:Hh.
  { by rewrite (proj2 (iter_step_None _ _ _) Hh) in Hstep. }
  rewrite (iter_step_Some _ _ _ task rest) in Hstep by (by rewrite Hh).
  injection Hstep as <-. cbv zeta.
  set (new := filter _ _).
  unfold seen in *. rewrite Hh in *.
  assert ((task ∉ task_order st) ∧ (task ∉ rest) ∧ NoDup rest)
    as (Hto & Htr & Hndr).
  { apply NoDup_app in Hnd as (_ & Hdisj & Hnd2).
    apply NoDup_cons in Hnd2 as [? ?]. split_and!; [|done|done].
    intros Hin. apply (Hdisj _ Hin). left. }
  assert (∀ y, y ∈ new ↔
               (y ∈ updownset g true task ∧ (y ∉ task_order st) ∧ y ≠ task
                ∧ (y ∉ rest))) as Hnew.
  { intros y. unfold new. rewrite list_elem_of_filter, elem_of_set_iter.
    rewrite Hdone, Hhs. set_solver. }
  assert (NoDup new) as Hndn by apply NoDup_filter, set_iter_NoDup.
  assert ((task_order st ++ [task]) ++ rest ++ new
          = (task_order st ++ task :: rest) ++ new) as Hseen.
  { by rewrite <- !(assoc_L (++)). }
  split; unfold seen; simpl; rewrite ?Hseen.
  - apply NoDup_app. split_and!; [done| |done].
    intros y Hy Hy'. apply Hnew in Hy' as (_ & ? & ? & ?).
    apply elem_of_app in Hy as [?|[?|?]%elem_of_cons]; done.
  - rewrite Hdone, list_to_set_app_L. set_solver.
  - rewrite Hhs, list_to_set_app_L. set_solver.
  - intros x [Hx|Hx%list_elem_of_singleton]%elem_of_app.
    + rewrite list_to_set_app_L. specialize (Hclosed x Hx). set_solver.
    + subst x. intros y Hy. apply elem_of_list_to_set.
      destruct (decide (y ∈ task_order st ++ task :: rest)) as [?|Hnot].
      * apply elem_of_app. by left.
      * apply elem_of_app. right. apply Hnew. set_solver.
  - rewrite list_to_set_app_L. set_solver.
  - intros x [Hx|Hx]%elem_of_app; [by apply Hvalid|].
    apply Hnew in Hx as (Hx & _). unfold updownset in Hx.
    destruct (task_list g !! task) as [t|] eqn:Ht; [|set_solver].
    eapply (links_in_graph g Hwl); [done|]. set_solver.
  - intros j x Hj. rewrite length_app. simpl.
    destruct (decide (j < length (task_order st ++ task :: rest))) as [Hlt|Hge].
    + rewrite lookup_app_l in Hj by done.
      destruct (Hreached j x Hj) as [?|(i & u & ? & ? & Hi & ?)]; [by left|].
      right. exists i, u. split_and!; [done|lia| |done].
      apply lookup_app_l_Some. done.
    + right. exists (length (task_order st)), task. split_and!.
      * rewrite length_app in Hge. simpl in Hge. lia.
      * lia.
      * apply lookup_app_l_Some. by rewrite list_lookup_middle.
      * rewrite lookup_app_r in Hj by lia.
        apply list_elem_of_lookup_2 in Hj. by apply Hnew in Hj as (? & _).
Qed.

End completeness.

Section completeness_theorem.
Context `{PyRuntime}.

Lemma traversal_invariant_loop g start fuel : ∀ st,
  well_linked g →
  traversal_invariant g start st →
  traversal_invariant g start (iter_loop fuel g true st).
Proof.
  induction fuel as [|fuel IH]; intros st Hwl Hinv; simpl; [done|].
  destruct (iter_step g true st) as [st'|] eqn:Hstep; [|done].
  apply IH; [done|]. by eapply traversal_invariant_step.
Qed.

(** Every task reached by following [depends_on] is a task of the graph. *)
Lemma depends_on_valid g k h :
  well_linked g → tc (depends_on g) k h → h < length (task_list g).
Proof.
  intros Hwl Htc. induction Htc as [k h (task & Hk & Hh)|k h' h _ _ IH]; [|done].
  eapply (links_in_graph g Hwl); [done|]. set_solver.
Qed.

(** In an acyclic graph one can reason from the upstream tasks of a task
    to the task. *)
Lemma acyclic_sn g k :
  well_linked g → acyclic g → sn (depends_on g) k.
Proof.
  intros Hwl Hacyclic. apply tc_finite_sn.
  - intros x. apply Hacyclic.
  - exists (seq 0 (length (task_list g))). intros h Hh.
    apply elem_of_seq. apply (depends_on_valid _ _ _ Hwl) in Hh. lia.
Qed.

(** C3. In a graph whose links stay within the graph and are mutual, and
    which has no cycle, the downstream traversal from the source tasks
    returns every task of the graph exactly once, and a task that has
    upstream tasks comes after one of them. *)
Theorem iter_graph_downstream_visits_every_task_once (g : TaskGraph) :
  well_linked g → acyclic g →
  NoDup (iter_graph g None true)
  ∧ (∀ k, k ∈ iter_graph g None true ↔ k < length (task_list g))
  ∧ (∀ k task,
       task_list g !! k = Some task → upstream_tasks task ≠ ∅ →
       ∃ i j u,
         i < j ∧ iter_graph g None true !! i = Some u
         ∧ iter_graph g None true !! j = Some k
         ∧ u ∈ upstream_tasks task).
Proof.
  intros Hwl Hacyclic.
  pose proof (traversal_invariant_loop g (get_source_tasks g)
                (iter_measure g (iter_init g None true)) _ Hwl
                (traversal_invariant_init g))
    as [Hnd _ _ Hclosed Hstart Hvalid Hreached].
  pose proof (iter_graph_terminates g None true) as Hend.
  unfold iter_graph, iter_final in *. cbv zeta in *.
  set (final := iter_loop _ g true _) in *.
  unfold seen in *. rewrite Hend, app_nil_r in *.
  assert (∀ k, k < length (task_list g) → k ∈ task_order final) as Hall.
  { intros k. induction (acyclic_sn g k Hwl Hacyclic) as [k _ IH].
    intros Hk. destruct (lookup_lt_is_Some_2 _ _ Hk) as [task Htask].
    destruct (decide (upstream_tasks task = ∅)) as [Hsrc|Hup].
    - apply (elem_of_list_to_set (C := gset handle)), Hstart,
        elem_of_get_source_tasks. eauto.
    - apply set_choose_L in Hup as [h Hh].
      assert (h < length (task_list g)) as Hhv.
      { eapply (links_in_graph g Hwl); [done|]. set_solver. }
      assert (h ∈ task_order final) as Hin.
      { apply IH; [|done]. by exists task. }
      apply (elem_of_list_to_set (C := gset handle)), (Hclosed h Hin).
      unfold updownset.
      destruct (task_list g !! h) as [other|] eqn:Hother.
      + by apply (links_mutual g Hwl h other k task).
      + apply lookup_ge_None in Hother. lia. }
  split_and!; [done| |].
  - intros k. split; [apply Hvalid|apply Hall].
  - intros k task Htask Hup.
    assert (k ∈ task_order final) as [j Hj]%list_elem_of_lookup.
    { apply Hall. by eapply lookup_lt_Some. }
    destruct (Hreached j k Hj) as [Hsrc|(i & u & Hij & _ & Hi & Hku)].
    + apply elem_of_get_source_tasks in Hsrc as (task' & Htask' & Hnone).
      congruence.
    + exists i, j, u. split_and!; [done|done|done|].
      unfold updownset in Hku.
      destruct (task_list g !! u) as [other|] eqn:Hother; [|set_solver].
      by apply (links_mutual g Hwl u other k task).
Qed.

End completeness_theorem.

(** A graph in which every task depends only on tasks declared before it
    has no cycle. *)
Lemma acyclic_of_declaration_order g :
  (∀ k h, depends_on g k h → h < k) → acyclic g.
Proof.
  intros Hlt k Hk.
  assert (∀ a b, tc (depends_on g) a b → b < a) as Htc.
  { intros a b Hab. induction Hab as [a b Hab|a b c Hab _ IH].
    - by apply Hlt.
    - apply Hlt in Hab. lia. }
  apply Htc in Hk. lia.
Qed.

Ltac task_of_example Hk k :=
  destruct k as [|[|[|[|k]]]]; vm_compute in Hk; [..|discriminate Hk];
  injection Hk as <-.

Ltac handles_of_example Hh :=
  apply (elem_of_elements (C := gset nat)) in Hh; vm_compute in Hh;
  repeat (apply elem_of_cons in Hh as [->|Hh]);
  try (by apply elem_of_nil in Hh).

Lemma example_diamond_well_linked : well_linked (self example_diamond).
Proof.
  split.
  - intros k task h Hk Hh. task_of_example Hk k;
      handles_of_example Hh; vm_compute; lia.
  - intros k task h other Hk Hh. task_of_example Hk k;
      task_of_example Hh h; split; intros Hin; vm_compute in Hin |- *;
      first [reflexivity | discriminate Hin].
Qed.

Lemma example_diamond_acyclic : acyclic (self example_diamond).
Proof.
  apply acyclic_of_declaration_order. intros k h (task & Hk & Hh).
  task_of_example Hk k; handles_of_example Hh; lia.
Qed.

Lemma iter_graph_diamond_example :
  NoDup (iter_graph (H := example_runtime) (self example_diamond) None true)
  ∧ (∀ k, k ∈ iter_graph (H := example_runtime) (self example_diamond)
                None true
          ↔ k < length (task_list (self example_diamond)))
  ∧ iter_graph (H := example_runtime) (self example_diamond) None true
    = [0; 2; 1; 3].
Proof.
  destruct (@iter_graph_downstream_visits_every_task_once example_runtime
              (self example_diamond) example_diamond_well_linked
              example_diamond_acyclic) as (Hnd & Hall & _).
  split_and!; [exact Hnd|exact Hall|by vm_compute].
Defined.

(** ** Duration estimate *)

Section estimate_facts.
Context `{PyRuntime} `{Collaborators}.

Lemma set_iter_empty n : set_iter n ∅ = [].
Proof.
  apply Permutation_nil_r. rewrite set_iter_perm. by rewrite elements_empty.
Qed.

Lemma set_iter_singleton n k : set_iter n {[k]} = [k].
Proof.
  apply Permutation_singleton_r. rewrite set_iter_perm.
  by rewrite elements_singleton.
Qed.

(** Running the loop from a state is running it from the next one. *)
Lemma iter_loop_next g downstream st st' :
  iter_step g downstream st = Some st' →
  iter_loop (iter_measure g st) g downstream st
  = iter_loop (iter_measure g st') g downstream st'.
Proof.
  intros Hstep. pose proof (iter_step_measure _ _ _ _ Hstep) as Hlt.
  destruct (iter_measure g st) as [|n] eqn:Hm; [lia|]. simpl.
  rewrite Hstep. apply iter_loop_enough. lia.
Qed.

Lemma iter_graph_from g tasks downstream st :
  iter_init g tasks downstream = st →
  iter_graph g tasks downstream
  = task_order (iter_loop (iter_measure g st) g downstream st).
Proof. by intros <-. Qed.

(** The traversal from one task without downstream tasks. *)
Lemma iter_graph_alone g k task :
  task_list g !! k = Some task → downstream_tasks task = ∅ →
  iter_graph g (Some [k]) true = [k].
Proof.
  intros Hk Hdown.
  rewrite (iter_graph_from _ _ _ (mkIterState [k] (list_to_set [k]) ∅ []))
    by done.
  erewrite iter_loop_next.
  2:{ rewrite (iter_step_Some _ _ _ k []) by done. cbn [done task_order
        horizon_set horizon]. unfold updownset. rewrite Hk, Hdown.
      rewrite (difference_disjoint_L ∅) by set_solver.
      rewrite set_iter_empty. reflexivity. }
  by rewrite iter_loop_stopped by (by apply iter_step_None).
Qed.

(** The traversal from a task whose only downstream task has none. *)
Lemma iter_graph_successor g k k' task successor :
  k ≠ k' →
  task_list g !! k = Some task → downstream_tasks task = {[k']} →
  task_list g !! k' = Some successor → downstream_tasks successor = ∅ →
  iter_graph g (Some [k]) true = [k; k'].
Proof.
  intros Hne Hk Hdown Hk' Hdown'.
  rewrite (iter_graph_from _ _ _ (mkIterState [k] (list_to_set [k]) ∅ []))
    by done.
  erewrite iter_loop_next.
  2:{ rewrite (iter_step_Some _ _ _ k []) by done. cbn [done task_order
        horizon_set horizon]. unfold updownset. rewrite Hk, Hdown.
      replace ({[k']} ∖ (∅ ∪ {[k]}) : gset nat) with ({[k']} : gset nat)
        by set_solver.
      rewrite set_iter_singleton.
      rewrite filter_cons, decide_True by set_solver.
      rewrite filter_nil. reflexivity. }
  erewrite iter_loop_next.
  2:{ rewrite (iter_step_Some _ _ _ k' []) by done. cbn [done task_order
        horizon_set horizon]. unfold updownset. rewrite Hk', Hdown'.
      rewrite (difference_disjoint_L ∅) by set_solver.
      rewrite set_iter_empty. reflexivity. }
  by rewrite iter_loop_stopped by (by apply iter_step_None).
Qed.

(** C9. [duration_string] chooses its unit by the three thresholds, each
    a strict bound, and prints two decimal places: seconds below 600 s,
    minutes below 7200 s, hours below 172800 s, days from there on. For no
    task [duration_message] says that no task is out of sync and gives the
    path of the workflow; for one task that is no pseudotask, has no
    downstream task and took 5 s it says "approximately 5.00 s"; for one
    task without recorded duration whose only downstream task took 7200 s,
    it counts one unknown task and gives the range up to "2.00 h". *)
Theorem duration_string_thresholds_and_message_scenarios :
  (∀ d,
     duration_string d =
     if (d <? 600)%float then format_2f d +:+ " s"
     else if (d <? 7200)%float then format_2f (d / 60)%float +:+ " m"
     else if (d <? 172800)%float then
       format_2f (d / 60 / 60)%float +:+ " h"
     else format_2f (d / 60 / 60 / 24)%float +:+ " d")
  ∧ (duration_string 599.5%float = "599.50 s"
     ∧ duration_string 600%float = "10.00 m"
     ∧ duration_string 7199%float = "119.98 m"
     ∧ duration_string 7200%float = "2.00 h"
     ∧ duration_string 172799%float = "48.00 h"
     ∧ duration_string 172800%float = "2.00 d")
  ∧ (∀ m color,
       duration_message m [] color
       = "No tasks are out of sync in this workflow ("
           +:+ os_path_relpath (config_path (self m)) (cwd (world m))
           +:+ ")")
  ∧ (∀ m k task paint,
       task_list (self m) !! k = Some task →
       is_pseudotask task = false →
       downstream_tasks task = ∅ →
       task_durations (self m) !! Task_id task = Some 5%float →
       duration_message m [k] (Some paint)
       = paint ("The remaining 1-1 tasks need to be executed," +:+ newline
                  +:+ "which will take approximately 5.00 s."))
  ∧ (∀ m k k' task successor paint,
       k ≠ k' →
       task_list (self m) !! k = Some task →
       is_pseudotask task = false →
       downstream_tasks task = {[k']} →
       task_durations (self m) !! Task_id task = None →
       task_list (self m) !! k' = Some successor →
       is_pseudotask successor = false →
       downstream_tasks successor = ∅ →
       task_durations (self m) !! Task_id successor = Some 7200%float →
       duration_message m [k] (Some paint)
       = paint ("1 new tasks with unknown durations." +:+ newline
                  +:+ "The remaining 1-2 tasks need to be executed,"
                  +:+ newline
                  +:+ "which will take between 0.00 s and 2.00 h.")).
Proof.
  split; [done|]. split; [split_and!; by vm_compute|].
  split; [done|]. split.
  - intros m k task paint Hk Hpseudo Hdown Hd.
    unfold duration_message. simpl.
    rewrite (iter_graph_alone _ _ _ Hk Hdown).
    unfold tasks_of. simpl. rewrite Hk. simpl.
    unfold count_task. rewrite Hpseudo, Hd. simpl. reflexivity.
  - intros m k k' task successor paint Hne Hk Hpseudo Hdown Hd Hk' Hpseudo'
      Hdown' Hd'.
    unfold duration_message. simpl.
    rewrite (iter_graph_successor _ _ _ _ _ Hne Hk Hdown Hk' Hdown').
    unfold tasks_of. simpl. rewrite Hk, Hk'. simpl.
    unfold count_task. rewrite Hpseudo, Hd, Hpseudo', Hd'. simpl.
    reflexivity.
Qed.

End estimate_facts.

Lemma duration_message_examples :
  @duration_message example_runtime example_collaborators
    (example_single [["a"; "5.0"]]) [0] (Some (λ msg, msg))
  = "The remaining 1-1 tasks need to be executed," +:+ newline
      +:+ "which will take approximately 5.00 s."
  ∧ @duration_message example_runtime example_collaborators
      (example_with_durations [["b"; "7200.0"]]) [0] (Some (λ msg, msg))
    = "1 new tasks with unknown durations." +:+ newline
        +:+ "The remaining 1-2 tasks need to be executed," +:+ newline
        +:+ "which will take between 0.00 s and 2.00 h.".
Proof.
  pose proof (@duration_string_thresholds_and_message_scenarios
                example_runtime example_collaborators)
    as (_ & _ & _ & Hone & Htwo).
  split.
  - eapply (Hone (example_single [["a"; "5.0"]]) 0 _ (λ msg, msg));
      by vm_compute.
  - eapply (Htwo (example_with_durations [["b"; "7200.0"]]) 0 1 _ _
              (λ msg, msg)); by vm_compute.
Defined.

(** ** The scheduler *)

Lemma saves_app evs1 evs2 : saves (evs1 ++ evs2) = saves evs1 ++ saves evs2.
Proof. apply omap_app. Qed.

Section scheduler_facts.
Context `{PyRuntime} `{Collaborators}.



(** A task that is run, or skipped, without an exception leaves no call of
    [save_state] behind. *)
Lemma run_task_ok_events do_run_func mock task r r' :
  run_task do_run_func mock task r = (r', Ok tt) →
  events r' = events r.
Proof.
  unfold run_task. unfold mbind, M_bind, bind, get, on_machine, modify.
  destruct (do_run_func task (machine r)); [|by intros [= <-]].
  destruct mock; simpl; [by intros [= <-]|].
  destruct (timed_run task (machine r)) as [m2 [e|]]; simpl;
    [|by intros [= <-]].
  destruct (caught_exit_code e) as [code|]; [|done].
  unfold logged_save_state, emit, mret, M_ret, ret, raise.
  unfold mbind, M_bind, bind, modify, on_machine. simpl.
  by destruct (save_state _ m2) as [m3 [[]|e3]].
Qed.

Lemma for_each_run_task_events do_run_func mock tasks : ∀ r r',
  for_each tasks (run_task do_run_func mock) r = (r', Ok tt) →
  events r' = events r.
Proof.
  induction tasks as [|task tasks IH]; intros r r'; simpl.
  - by intros [= <-].
  - intros Hrun. apply bind_inv_ok in Hrun as (r1 & [] & Htask & Hrun).
    apply IH in Hrun. apply run_task_ok_events in Htask. congruence.
Qed.

(** A mock run of a task never raises and never saves. *)
Lemma for_each_run_task_mock do_run_func tasks : ∀ r,
  ∃ r', for_each tasks (run_task do_run_func true) r = (r', Ok tt)
        ∧ events r' = events r.
Proof.
  induction tasks as [|task tasks IH]; intros r; simpl; [by exists r|].
  assert (∃ r1, run_task do_run_func true task r = (r1, Ok tt)
                ∧ events r1 = events r) as (r1 & Htask & Hev).
  { unfold run_task. unfold mbind, M_bind, bind, get, on_machine, modify.
    destruct (do_run_func task (machine r)); simpl; by eexists. }
  destruct (IH r1) as (r' & Hrun & Hev').
  exists r'. split; [|congruence]. by rewrite (bind_ok _ _ _ _ _ Htask).
Qed.


End scheduler_facts.

Section scheduler_theorem.
Context `{PyRuntime} `{Collaborators}.

Lemma _run_helper_unfold starting_tasks do_run_func mock r :
  _run_helper starting_tasks do_run_func mock r
  = (for_each (scheduled starting_tasks r) (run_task do_run_func mock);;
     if mock then mret tt else logged_save_state None)
      (started starting_tasks r).
Proof. done. Qed.


End scheduler_theorem.


(** * Further properties of the state store *)

Lemma values_of_cons k v rest rows name :
  values_of ((k :: v :: rest) :: rows) name
  = if bool_decide (k = name) then v :: values_of rows name
    else values_of rows name.
Proof. unfold values_of. simpl. by case_bool_decide. Qed.

Lemma read_rows_last rows : ∀ acc,
  Forall two_cells rows →
  ∃ table,
    read_rows rows acc = Ok table
    ∧ ∀ name, table !! name
              = match last (values_of rows name) with
                | Some v => Some v
                | None => acc !! name
                end.
Proof.
  induction rows as [|row rows IH]; intros acc Hrows.
  - by exists acc.
  - apply Forall_cons in Hrows as [Hrow Hrows].
    destruct row as [|k [|v row]]; unfold two_cells in Hrow; simpl in Hrow;
      [lia|lia|].
    destruct (IH (<[k := v]> acc) Hrows) as (table & Hread & Hlast).
    exists table. split; [done|]. intros name. rewrite Hlast.
    rewrite values_of_cons. case_bool_decide as Hk.
    + subst k. rewrite last_cons.
      destruct (last (values_of rows name)); [done|].
      by rewrite lookup_insert_eq.
    + destruct (last (values_of rows name)); [done|].
      by rewrite lookup_insert_ne.
Qed.

Lemma read_rows_short rows : ∀ acc,
  ¬ Forall two_cells rows → read_rows rows acc = Raise IndexError.
Proof.
  induction rows as [|row rows IH]; intros acc Hrows.
  - destruct Hrows. constructor.
  - destruct row as [|k [|v row]]; simpl; [done|done|].
    apply IH. intros Hall. apply Hrows. constructor; [|done].
    unfold two_cells. simpl. lia.
Qed.

(** X2. [read_from_storage] answers a missing file with the empty table.
    For a file all of whose rows have two cells it returns the table that
    maps every name to the value of the last row with that name; a row
    with fewer cells makes it raise [IndexError]. *)
Theorem read_from_storage_last_row_wins (loc : storage_location) (w : World) :
  (open_csv loc w = None → read_from_storage loc w = Ok ∅)
  ∧ (∀ rows, open_csv loc w = Some rows →
       (Forall two_cells rows →
        ∃ table, read_from_storage loc w = Ok table
                 ∧ ∀ name, table !! name = last (values_of rows name))
       ∧ (¬ Forall two_cells rows →
          read_from_storage loc w = Raise IndexError)).
Proof.
  unfold read_from_storage. split.
  - by intros ->.
  - intros rows ->. split.
    + intros Hrows. destruct (read_rows_last rows ∅ Hrows) as (table & -> & Hlast).
      exists table. split; [done|]. intros name. rewrite Hlast.
      by destruct (last (values_of rows name)).
    + apply read_rows_short.
Qed.

Lemma read_from_storage_example :
  ∃ table,
    read_from_storage StatePath
      (mkWorld (Some [["a"; "1"]; ["b"; "2"; "x"]; ["a"; "3"]]) None ∅ "")
    = Ok table
    ∧ table !! "a" = Some "3" ∧ table !! "b" = Some "2"
    ∧ table !! "c" = None.
Proof.
  destruct (proj1 (proj2 (read_from_storage_last_row_wins StatePath
              (mkWorld (Some [["a"; "1"]; ["b"; "2"; "x"]; ["a"; "3"]])
                       None ∅ "")) _ eq_refl))
    as (table & Hread & Hlast).
  { repeat constructor; unfold two_cells; simpl; lia. }
  exists table. rewrite !Hlast. by split_and!.
Defined.

Section store_extras.
Context `{PyRuntime}.

(** X1. What [write_to_storage] writes, [read_from_storage] reads back:
    the keys of the dictionary, each with the text of its value, whatever
    the order in which the dictionary hands out its items; and the other
    table is left as it was. *)
Theorem write_then_read_round_trip {V} (cell : V → string)
    (dictionary : gmap string V) (w : World) :
  read_from_storage StatePath (write_to_storage cell dictionary StatePath w)
    = Ok (cell <$> dictionary)
  ∧ read_from_storage DurationPath
      (write_to_storage cell dictionary DurationPath w)
    = Ok (cell <$> dictionary)
  ∧ duration_csv (write_to_storage cell dictionary StatePath w)
    = duration_csv w
  ∧ state_csv (write_to_storage cell dictionary DurationPath w)
    = state_csv w.
Proof. split_and!; [apply read_written|apply read_written|done|done]. Qed.

(** In a file written from a dictionary, the first row with a name is the
    only one. *)
Lemma state_of_rows_written (d : gmap string string) name :
  state_of_rows ((λ item : string * string, [item.1; id item.2])
                   <$> dict_items d) name
  = Ok (d !! name).
Proof.
  rewrite <- (list_to_map_dict_items d) at 2.
  generalize (dict_items d). intros items.
  induction items as [|[k v] items IH]; simpl; [done|].
  case_bool_decide as Hk.
  - subst k. by rewrite lookup_insert_eq.
  - by rewrite lookup_insert_ne.
Qed.

End store_extras.

Section save_state_extras.
Context `{PyRuntime} `{Collaborators}.

(** X3. After [save_state] (the state table being readable),
    [get_state_from_storage] finds for every name what [save_state] merged
    for it: the override, else the current state of the resource this
    graph owns, else the entry the table had. *)
Theorem get_state_from_storage_after_save_state (m : Machine)
    (override : option (gmap string string)) (before : gmap string string) :
  read_from_storage StatePath (world m) = Ok before →
  ∃ m',
    save_state override m = (m', Ok tt)
    ∧ ∀ name,
        get_state_from_storage name (world m')
        = Ok (merged_state m override before name).
Proof.
  intros Hread. eexists. split; [by apply save_state_writes|].
  intros name. unfold get_state_from_storage, write_to_storage. simpl.
  rewrite state_of_rows_written. f_equal. unfold merged_state.
  destruct override as [overrides|]; simpl;
    rewrite ?lookup_union, lookup_fmap;
    destruct (resource_dict (self m) !! name); simpl;
    try destruct (overrides !! name); simpl; try done;
    by destruct (before !! name).
Qed.

(** X4. [save_state] does not merge the durations: the duration table it
    leaves holds exactly the durations the graph has in memory, whatever
    the table held before. *)
Theorem save_state_overwrites_durations (m : Machine)
    (override : option (gmap string string)) (before : gmap string string) :
  read_from_storage StatePath (world m) = Ok before →
  ∃ m',
    save_state override m = (m', Ok tt)
    ∧ self m' = self m
    ∧ read_from_storage DurationPath (world m')
      = Ok (str_of_float <$> task_durations (self m)).
Proof.
  intros Hread. eexists. split; [by apply save_state_writes|].
  split; [done|]. cbn [world]. apply read_written.
Qed.

End save_state_extras.

Lemma get_state_from_storage_example :
  ∃ m',
    @save_state example_runtime example_collaborators
      (Some {["C" := ""]}) example_saving_machine = (m', Ok tt)
    ∧ get_state_from_storage "A" (world m') = Ok (Some "new")
    ∧ get_state_from_storage "B" (world m') = Ok (Some "b")
    ∧ get_state_from_storage "C" (world m') = Ok (Some "")
    ∧ get_state_from_storage "D" (world m') = Ok None.
Proof.
  destruct (@get_state_from_storage_after_save_state example_runtime
              example_collaborators example_saving_machine
              (Some {["C" := ""]})
              (<["B" := "b"]> (<["A" := "old"]> ∅)) eq_refl)
    as (m' & Hsave & Hget).
  exists m'. rewrite !Hget. by split_and!.
Defined.

Lemma save_state_durations_example :
  ∃ m' table,
    @save_state example_runtime example_collaborators None
      example_saving_machine = (m', Ok tt)
    ∧ read_from_storage DurationPath (world m') = Ok table
    ∧ table !! "a" = Some "5.0"
    ∧ table !! "z" = None.
Proof.
  destruct (@save_state_overwrites_durations example_runtime
              example_collaborators example_saving_machine None
              (<["B" := "b"]> (<["A" := "old"]> ∅)) eq_refl)
    as (m' & Hsave & _ & Hread).
  exists m', (example_str_of_float <$> {["a" := 5%float]}).
  split_and!; [done|exact Hread|by vm_compute|by vm_compute].
Defined.

(** * Further properties of the traversal *)

Section traversal_extras.
Context `{PyRuntime}.

Lemma iter_loop_length g downstream fuel : ∀ st,
  length (task_order (iter_loop fuel g downstream st))
  ≤ length (task_order st) + fuel.
Proof.
  induction fuel as [|fuel IH]; intros st; simpl; [lia|].
  destruct (iter_step g downstream st) as [st'|] eqn:Hstep; [|lia].
  etrans; [apply IH|].
  destruct (popmethod downstream (horizon st)) as [[task rest]|] eqn:Hpop.
  - rewrite (iter_step_Some _ _ _ _ _ Hpop) in Hstep. injection Hstep as <-.
    simpl. rewrite length_app. simpl. lia.
  - unfold iter_step in Hstep. by rewrite Hpop in Hstep.
Qed.

(** X5. The loop of [iter_graph] ends in every graph, cyclic or not, for
    every start and in both directions: after the iterations the measure
    allows the horizon is empty, more iterations change nothing, and the
    number of tasks visited is at most the number of start tasks plus
    twice the number of linked tasks. *)
Theorem iter_graph_loop_ends (g : TaskGraph) (tasks : option (list handle))
    (downstream : bool) :
  horizon (iter_final g tasks downstream) = []
  ∧ (∀ more,
       iter_loop (iter_measure g (iter_init g tasks downstream) + more) g
         downstream (iter_init g tasks downstream)
       = iter_final g tasks downstream)
  ∧ length (iter_graph g tasks downstream)
    ≤ length (start_tasks g tasks downstream) + 2 * size (linked_handles g).
Proof.
  split_and!.
  - apply iter_graph_terminates.
  - intros more. unfold iter_final. cbv zeta. apply iter_loop_enough. lia.
  - unfold iter_graph, iter_final. cbv zeta.
    etrans; [apply iter_loop_length|]. unfold iter_measure, iter_init. simpl.
    pose proof (subseteq_size
                  (linked_handles g
                     ∖ (∅ ∪ list_to_set (start_tasks g tasks downstream)))
                  (linked_handles g)) as Hsize.
    specialize (Hsize ltac:(set_solver)). lia.
Qed.

(** Whichever end is popped, the horizon is the popped task and the rest. *)
Lemma popmethod_Permutation downstream hz task rest :
  popmethod downstream hz = Some (task, rest) → hz ≡ₚ task :: rest.
Proof.
  destruct downstream; simpl.
  - destruct hz; by intros [= -> ->].
  - intros ->%pop_Some. by rewrite Permutation_app_comm.
Qed.

Lemma seen_iter_step g downstream st st' :
  iter_step g downstream st = Some st' →
  ∃ new, seen st' ≡ₚ seen st ++ new.
Proof.
  intros Hstep.
  destruct (popmethod downstream (horizon st)) as [[task rest]|] eqn:Hpop.
  - rewrite (iter_step_Some _ _ _ _ _ Hpop) in Hstep. injection Hstep as <-.
    eexists. unfold seen. simpl.
    rewrite (popmethod_Permutation _ _ _ _ Hpop).
    rewrite <- !(assoc_L (++)). simpl. reflexivity.
  - unfold iter_step in Hstep. by rewrite Hpop in Hstep.
Qed.

Lemma seen_iter_loop g downstream fuel : ∀ st,
  seen st ⊆+ seen (iter_loop fuel g downstream st).
Proof.
  induction fuel as [|fuel IH]; intros st; simpl; [done|].
  destruct (iter_step g downstream st) as [st'|] eqn:Hstep; [|done].
  etrans; [|apply IH]. apply seen_iter_step in Hstep as [new ->].
  by apply submseteq_inserts_r.
Qed.

Lemma start_tasks_submseteq (g : TaskGraph)
    (tasks : option (list handle)) (downstream : bool) :
  start_tasks g tasks downstream ⊆+ iter_graph g tasks downstream.
Proof.
  unfold iter_graph. pose proof (iter_graph_terminates g tasks downstream) as Hend.
  replace (task_order (iter_final g tasks downstream))
    with (seen (iter_final g tasks downstream))
    by (unfold seen; rewrite Hend; apply app_nil_r).
  apply (seen_iter_loop g downstream _ (iter_init g tasks downstream)).
Qed.

(** X7. Every start task is visited as often as it occurs among the start
    tasks: a task given twice is visited (at least) twice. *)
Theorem iter_graph_visits_start_tasks (g : TaskGraph)
    (tasks : option (list handle)) (downstream : bool) :
  start_tasks g tasks downstream ⊆+ iter_graph g tasks downstream.
Proof. apply start_tasks_submseteq. Qed.

Lemma get_source_tasks_empty g :
  (∀ task, task ∈ task_list g → upstream_tasks task ≠ ∅) →
  get_source_tasks g = ∅.
Proof.
  intros Hall. apply set_eq. intros k. rewrite elem_of_get_source_tasks.
  split; [|set_solver]. intros (task & Hk & Hup).
  destruct (Hall task); [|done]. apply list_elem_of_lookup. eauto.
Qed.

End traversal_extras.

Section no_source.
Context `{PyRuntime} `{Collaborators}.

Lemma iter_graph_no_start g tasks downstream :
  start_tasks g tasks downstream = [] → iter_graph g tasks downstream = [].
Proof.
  intros Hstart. unfold iter_graph, iter_final, iter_init. rewrite Hstart.
  cbv zeta. by rewrite iter_loop_stopped by (by apply iter_step_None).
Qed.

(** X8. In a graph in which every task has an upstream task (two tasks
    that depend on each other, say) there is no source task: the downstream
    traversal is empty, no task is reported out of sync, and a dry run of
    either kind visits no task and logs that no tasks are out of sync. *)
Theorem graph_without_source_task_runs_nothing (r : Run) :
  (∀ task, task ∈ task_list (self (machine r)) → upstream_tasks task ≠ ∅) →
  iter_graph (self (machine r)) None true = []
  ∧ get_out_of_sync_tasks (machine r) = []
  ∧ run_all true r
    = (mkRun (machine r)
         (events r
          ++ [Info ("No tasks are out of sync in this workflow ("
                      +:+ os_path_relpath (config_path (self (machine r)))
                            (cwd (world (machine r)))
                      +:+ ")")]), Ok tt)
  ∧ run_all_out_of_sync true r = run_all true r.
Proof.
  intros Hall.
  assert (∀ tasks, tasks = None ∨ tasks = Some [] →
            iter_graph (self (machine r)) tasks true = []) as Hnone.
  { intros tasks Htasks. apply iter_graph_no_start.
    assert (start_tasks (self (machine r)) tasks true
            = set_iter 0 (get_source_tasks (self (machine r)))) as ->
      by (by destruct Htasks as [-> | ->]).
    rewrite get_source_tasks_empty by done. apply set_iter_empty. }
  assert (get_out_of_sync_tasks (machine r) = []) as Hsync.
  { unfold get_out_of_sync_tasks. by rewrite Hnone by (by left). }
  assert (∀ do_run_func,
            _run_helper [] do_run_func true r
            = (mkRun (machine r)
                 (events r
                  ++ [Info ("No tasks are out of sync in this workflow ("
                              +:+ os_path_relpath
                                    (config_path (self (machine r)))
                                    (cwd (world (machine r)))
                              +:+ ")")]), Ok tt)) as Hrun.
  { intros do_run_func. rewrite _run_helper_unfold. unfold scheduled.
    rewrite Hnone by (by right). reflexivity. }
  split_and!; [by apply Hnone; left|done| |].
  - unfold run_all. unfold mbind, M_bind, bind, get.
    rewrite Hnone by (by left). apply Hrun.
  - unfold run_all_out_of_sync, run_all. unfold mbind, M_bind, bind, get.
    rewrite Hsync, Hnone by (by left). by rewrite !Hrun.
Qed.

End no_source.

Lemma example_cycle_has_no_source :
  ∀ task, task ∈ task_list (self example_cycle) → upstream_tasks task ≠ ∅.
Proof.
  intros task Hin. apply list_elem_of_lookup in Hin as [k Hk].
  destruct k as [|[|k]]; vm_compute in Hk; [| |discriminate Hk];
    injection Hk as <-; intros Hup;
    apply (f_equal (λ s : gset nat, elements s)) in Hup;
    vm_compute in Hup; discriminate Hup.
Qed.

Lemma cycle_runs_nothing_example :
  @iter_graph example_runtime (self example_cycle) None true = []
  ∧ @run_all example_runtime example_collaborators true
      (mkRun example_cycle [])
    = (mkRun example_cycle
         [Info "No tasks are out of sync in this workflow (wf.yaml)"],
       Ok tt).
Proof.
  destruct (@graph_without_source_task_runs_nothing example_runtime
              example_collaborators (mkRun example_cycle [])
              example_cycle_has_no_source) as (Hiter & _ & Hrun & _).
  split; [exact Hiter|]. rewrite Hrun. reflexivity.
Defined.

Section reachability.
Context `{PyRuntime}.

Lemma reach_invariant_init g tasks downstream :
  reach_invariant g downstream (start_tasks g tasks downstream)
    (iter_init g tasks downstream).
Proof.
  unfold iter_init. split; unfold seen; simpl; [done|done| |].
  - intros x Hx. by apply elem_of_nil in Hx.
  - intros x Hx. exists x. split; [done|]. apply rtc_refl.
Qed.

Lemma reach_invariant_step g downstream start st st' :
  reach_invariant g downstream start st →
  iter_step g downstream st = Some st' →
  reach_invariant g downstream start st'.
Proof.
  intros [Hdone Hpending Hclosed Hsound] Hstep.
  destruct (popmethod downstream (horizon st)) as [[task rest]|] eqn:Hpop.
  2:{ unfold iter_step in Hstep. by rewrite Hpop in Hstep. }
  rewrite (iter_step_Some _ _ _ _ _ Hpop) in Hstep. injection Hstep as <-.
  cbv zeta. set (new := filter _ _).
  pose proof (popmethod_Permutation _ _ _ _ Hpop) as Hperm.
  assert (∀ y, y ∈ horizon st ↔ y = task ∨ y ∈ rest) as Hhz.
  { intros y. rewrite Hperm. apply elem_of_cons. }
  assert (∀ y, y ∈ new ↔
               (y ∈ updownset g downstream task ∧ (y ∉ task_order st)
                ∧ y ≠ task ∧ (y ∉ horizon_set st ∖ {[task]}))) as Hnew.
  { intros y. unfold new. rewrite list_elem_of_filter, elem_of_set_iter.
    rewrite Hdone. set_solver. }
  unfold seen in *.
  split; unfold seen; simpl.
  - rewrite Hdone, list_to_set_app_L. set_solver.
  - intros y [[Hy Hne]%elem_of_difference|Hy]%elem_of_union.
    + apply Hpending, elem_of_list_to_set, Hhz in Hy as [->|Hy];
        [set_solver|]. apply elem_of_list_to_set, elem_of_app. by left.
    + apply elem_of_list_to_set in Hy.
      apply elem_of_list_to_set, elem_of_app. by right.
  - intros x [Hx|Hx%list_elem_of_singleton]%elem_of_app y Hy.
    + apply (Hclosed x Hx), elem_of_list_to_set, elem_of_app in Hy
        as [Hy|Hy%Hhz].
      * apply elem_of_list_to_set. set_solver.
      * apply elem_of_list_to_set. set_solver.
    + subst x. apply elem_of_list_to_set.
      destruct (decide (y ∈ task_order st)); [set_solver|].
      destruct (decide (y = task)) as [->|]; [set_solver|].
      destruct (decide (y ∈ horizon_set st ∖ {[task]})) as [Hin|Hout].
      * apply elem_of_difference in Hin as [Hin _].
        apply Hpending, elem_of_list_to_set, Hhz in Hin. set_solver.
      * assert (y ∈ new) by (by apply Hnew). set_solver.
  - intros x Hx.
    assert (task ∈ task_order st ++ horizon st) as Htask
      by (apply elem_of_app; right; apply Hhz; by left).
    apply elem_of_app in Hx as [[Hx|Hx%list_elem_of_singleton]%elem_of_app
                                |[Hx|Hx]%elem_of_app].
    + apply Hsound, elem_of_app. by left.
    + subst x. by apply Hsound.
    + apply Hsound, elem_of_app. right. apply Hhz. by right.
    + apply Hnew in Hx as (Hx & _).
      destruct (Hsound task Htask) as (s & Hs & Hreach).
      exists s. split; [done|]. eapply rtc_r; [done|]. exact Hx.
Qed.

Lemma reach_invariant_loop g downstream start fuel : ∀ st,
  reach_invariant g downstream start st →
  reach_invariant g downstream start (iter_loop fuel g downstream st).
Proof.
  induction fuel as [|fuel IH]; intros st Hinv; simpl; [done|].
  destruct (iter_step g downstream st) as [st'|] eqn:Hstep; [|done].
  apply IH. by eapply reach_invariant_step.
Qed.

Lemma once_invariant_step g downstream start st st' :
  reach_invariant g downstream start st →
  once_invariant st →
  iter_step g downstream st = Some st' →
  once_invariant st'.
Proof.
  intros [Hdone Hpending _ _] [Hnd Honce] Hstep.
  destruct (popmethod downstream (horizon st)) as [[task rest]|] eqn:Hpop.
  2:{ unfold iter_step in Hstep. by rewrite Hpop in Hstep. }
  rewrite (iter_step_Some _ _ _ _ _ Hpop) in Hstep. injection Hstep as <-.
  cbv zeta. set (new := filter _ _).
  pose proof (popmethod_Permutation _ _ _ _ Hpop) as Hperm.
  unfold seen in *. rewrite Hperm in Hnd.
  assert ((task ∉ task_order st) ∧ (task ∉ rest) ∧ NoDup rest
          ∧ NoDup (task_order st)
          ∧ (∀ y, y ∈ task_order st → y ∉ rest)) as (Hto & Htr & Hndr & Hndo & Hdisj).
  { apply NoDup_app in Hnd as (Hndo & Hdisj & Hnd2).
    apply NoDup_cons in Hnd2 as [? ?]. split_and!; [|done|done|done|].
    - intros Hin. apply (Hdisj _ Hin). left.
    - intros y Hy Hy'. apply (Hdisj _ Hy). by right. }
  assert (∀ y, y ∈ horizon st ↔ y = task ∨ y ∈ rest) as Hhz.
  { intros y. rewrite Hperm. apply elem_of_cons. }
  assert (∀ y, y ∈ new →
               (y ∉ task_order st) ∧ y ≠ task ∧ (y ∉ rest)) as Hnew.
  { intros y. unfold new. rewrite list_elem_of_filter, elem_of_set_iter.
    rewrite Hdone. intros (Hhs & Hy). split_and!; [set_solver|set_solver|].
    intros Hrest. apply Hhs. apply elem_of_difference. split; [|set_solver].
    apply Honce, elem_of_list_to_set, Hhz. by right. }
  assert (NoDup new) as Hndn by apply NoDup_filter, set_iter_NoDup.
  split; unfold seen; simpl.
  - rewrite <- (assoc_L (++)). apply NoDup_app. split_and!; [done| |].
    + intros y Hy [->%list_elem_of_singleton|[Hy'|Hy']%elem_of_app]%elem_of_app.
      * done.
      * by apply (Hdisj y).
      * by apply Hnew in Hy' as (? & _).
    + simpl. apply NoDup_cons. split.
      * intros [?|Hin]%elem_of_app; [done|]. by apply Hnew in Hin as (_ & ? & _).
      * apply NoDup_app. split_and!; [done| |done].
        intros y Hy Hy'. by apply Hnew in Hy' as (_ & _ & ?).
  - rewrite list_to_set_app_L. intros y [Hy|Hy]%elem_of_union; [|set_solver].
    apply elem_of_union. left. apply elem_of_list_to_set in Hy.
    apply elem_of_difference. split.
    + apply Honce, elem_of_list_to_set, Hhz. by right.
    + intros ->%elem_of_singleton. done.
Qed.

Lemma iter_graph_reachable (g : TaskGraph)
    (tasks : option (list handle)) (downstream : bool) :
  (∀ k, k ∈ iter_graph g tasks downstream
        ↔ ∃ s, s ∈ start_tasks g tasks downstream
               ∧ rtc (reaches g downstream) s k)
  ∧ (NoDup (start_tasks g tasks downstream) →
     NoDup (iter_graph g tasks downstream)).
Proof.
  pose proof (reach_invariant_loop g downstream _
                (iter_measure g (iter_init g tasks downstream)) _
                (reach_invariant_init g tasks downstream))
    as [_ _ Hclosed Hsound].
  pose proof (iter_graph_terminates g tasks downstream) as Hend.
  pose proof (start_tasks_submseteq g tasks downstream) as Hstart.
  unfold iter_graph, iter_final in *. cbv zeta in *.
  set (st0 := iter_init g tasks downstream) in *.
  set (final := iter_loop _ g downstream st0) in *.
  unfold seen in *. rewrite Hend, app_nil_r in *.
  split.
  - intros k. split; [apply Hsound|].
    intros (s & Hs & Hreach).
    assert (s ∈ task_order final) as Hin by (by eapply elem_of_submseteq).
    clear Hs. induction Hreach as [s|s x k Hsx _ IH]; [done|].
    apply IH. apply (elem_of_list_to_set (C := gset nat)).
    by apply (Hclosed s).
  - intros Hnd.
    assert (∀ fuel st,
              reach_invariant g downstream (start_tasks g tasks downstream) st →
              once_invariant st →
              once_invariant (iter_loop fuel g downstream st)) as Hloop.
    { induction fuel as [|fuel IH]; intros st Hr Ho; simpl; [done|].
      destruct (iter_step g downstream st) as [st'|] eqn:Hstep; [|done].
      apply IH; [by eapply reach_invariant_step|by eapply once_invariant_step]. }
    destruct (Hloop (iter_measure g st0) st0) as [Hnd' _].
    + apply reach_invariant_init.
    + split; unfold seen; simpl; [done|done].
    + fold final in Hnd'. unfold seen in Hnd'. by rewrite Hend, app_nil_r in Hnd'.
Qed.

(** X6. In every graph, for every start and in both directions,
    [iter_graph] returns exactly the tasks that can be reached from a start
    task along the links of the direction; and when no task occurs twice
    among the start tasks, none occurs twice in the result. *)
Theorem iter_graph_returns_the_reachable_tasks (g : TaskGraph)
    (tasks : option (list handle)) (downstream : bool) :
  (∀ k, k ∈ iter_graph g tasks downstream
        ↔ ∃ s, s ∈ start_tasks g tasks downstream
               ∧ rtc (reaches g downstream) s k)
  ∧ (NoDup (start_tasks g tasks downstream) →
     NoDup (iter_graph g tasks downstream)).
Proof. apply iter_graph_reachable. Qed.

End reachability.

(** * Further properties of construction and subgraph extraction *)

(** The loop of [add] raises as soon as a key is repeated. *)
Lemma add_loop_raises (kws : list Declaration) : ∀ g,
  dom (task_dict g) = list_to_set (graph_keys (task_list g)) →
  NoDup (graph_keys (task_list g)) →
  ¬ NoDup (graph_keys (task_list g ++ (Task_new <$> kws))) →
  ∃ g' msg, for_each kws Task_init g = (g', Raise (NonUniqueTask msg)).
Proof.
  induction kws as [|kw kws IH]; intros g Hdom Hnd Hdup.
  - destruct Hdup. by rewrite app_nil_r.
  - destruct (decide (NoDup (task_keys (Task_new kw))
                      ∧ Forall (λ k, k ∉ dom (task_dict g))
                               (task_keys (Task_new kw))))
      as [[Hkw Hfresh]|Hbad]; rewrite Forall_forall in *.
    + destruct (add_ok _ g Hkw Hfresh) as (g1 & Hadd & Hdom1).
      pose proof (add_task_list (Task_new kw) g) as Hl.
      rewrite Hadd in Hl. simpl in Hl.
      destruct (IH g1) as (g' & msg & Hloop).
      * rewrite Hdom1, Hdom, Hl, graph_keys_app, graph_keys_singleton.
        by rewrite list_to_set_app_L.
      * rewrite Hl, graph_keys_app, graph_keys_singleton.
        apply NoDup_app. split_and!; [done| |done].
        intros k Hk Hk'. apply (Hfresh k Hk'). rewrite Hdom.
        by apply elem_of_list_to_set.
      * rewrite Hl, <- (assoc_L (++)). exact Hdup.
      * exists g', msg. simpl. unfold Task_init at 1.
        by rewrite (bind_ok _ _ _ _ _ Hadd).
    + destruct (add_raises _ g Hbad) as (g' & msg & Hadd).
      exists g', msg. simpl. unfold Task_init at 1.
      by rewrite (bind_raise _ _ _ _ _ Hadd).
Qed.

Section subgraph_extras.
Context `{PyRuntime} `{Collaborators}.

Lemma TaskGraph_init_repeated_key path kws m :
  ¬ NoDup (graph_keys (Task_new <$> kws)) →
  ∃ m' msg, TaskGraph_init path kws m = (m', Raise (NonUniqueTask msg)).
Proof.
  intros Hdup.
  destruct (TaskGraph_init_unfold path kws m) as (w0 & _ & ->).
  destruct (add_loop_raises kws (empty_graph path)) as (g' & msg & Hloop);
    [done|apply NoDup_nil_2|done|].
  exists (mkMachine g' w0), msg. apply bind_raise.
  rewrite on_self_for_each. cbn [self world]. by rewrite Hloop.
Qed.

(** X9. When two of the requested identifiers name the same task (its
    [creates] and its alias, or one identifier given twice),
    [subgraph_needed_for] raises [NonUniqueTask]: the task is a start task
    twice, the traversal returns it twice, and the constructor of the
    subgraph finds its declaration a second time. *)
Theorem subgraph_needed_for_same_task_twice (m : Machine)
    (id1 id2 : string) (h : handle) :
  task_dict (self m) !! id1 = Some h →
  task_dict (self m) !! id2 = Some h →
  h < length (task_list (self m)) →
  ∃ m' msg,
    subgraph_needed_for (Some [id1; id2]) m
    = (m', Raise (NonUniqueTask msg)).
Proof.
  intros H1 H2 Hh. destruct (lookup_lt_is_Some_2 _ _ Hh) as [task Htask].
  unfold subgraph_needed_for, collect_tasks, get_tasks.
  unfold mbind, M_bind, bind, get. rewrite H1, H2. simpl.
  set (order := iter_graph (self m) (Some [h; h]) false).
  unfold TaskGraph_new.
  destruct (TaskGraph_init_repeated_key (config_path (self m))
              (yaml_data <$> tasks_of (self m) order)
              (mkMachine (empty_graph (config_path (self m))) (world m)))
    as (m' & msg & Hinit).
  - pose proof (start_tasks_submseteq (self m) (Some [h; h]) false)
      as Hsub.
    apply submseteq_Permutation in Hsub as [rest Hperm]. fold order in Hperm.
    simpl in Hperm. unfold tasks_of, graph_keys. rewrite Hperm. simpl.
    rewrite Htask. simpl. fold (graph_keys (Task_new <$> (yaml_data
      <$> omap (λ k, task_list (self m) !! k) rest))).
    intros Hnd. apply NoDup_app in Hnd as (_ & Hdisj & _).
    apply (Hdisj (decl_creates (yaml_data task))).
    + apply (creates_in_task_keys (Task_new (yaml_data task))).
    + apply elem_of_app. left.
      apply (creates_in_task_keys (Task_new (yaml_data task))).
  - rewrite Hinit. by eexists _, _.
Qed.

End subgraph_extras.

Lemma subgraph_needed_for_alias_and_id_example :
  ∃ m' msg,
    @subgraph_needed_for example_runtime example_collaborators
      (Some ["a"; "first"]) example_constructed
    = (m', Raise (NonUniqueTask msg)).
Proof.
  apply (@subgraph_needed_for_same_task_twice example_runtime
           example_collaborators example_constructed "a" "first" 0).
  - by vm_compute.
  - by vm_compute.
  - vm_compute. lia.
Defined.

Lemma iter_graph_reachable_example :
  NoDup (@iter_graph example_runtime (self example_diamond) (Some [3]) false)
  ∧ (0 ∈ @iter_graph example_runtime (self example_diamond) (Some [3]) false
     ↔ ∃ s, s ∈ @start_tasks example_runtime (self example_diamond)
                   (Some [3]) false
            ∧ rtc (@reaches example_runtime (self example_diamond) false) s 0).
Proof.
  destruct (@iter_graph_returns_the_reachable_tasks example_runtime
              (self example_diamond) (Some [3]) false) as [Hreach Hnd].
  split; [|apply Hreach]. apply Hnd. simpl. apply NoDup_singleton.
Defined.

(** * Further properties of the scheduler and of the run command *)

Section scheduler_extras.
Context `{PyRuntime} `{Collaborators}.

(** X10. An exception of a timed run that is neither a
    [KeyboardInterrupt] nor a [ShellError] leaves [_run_helper] as it is:
    [save_state] is not called, and the machine is left as the task left
    it. *)
Theorem other_exception_leaves_without_saving
    (starting_tasks : list handle) (do_run_func : Task → Machine → bool)
    (r r1 : Run) (pre post : list Task) (task : Task) (m2 : Machine)
    (e : exception) :
  scheduled starting_tasks r = pre ++ task :: post →
  for_each pre (run_task do_run_func false) (started starting_tasks r)
    = (r1, Ok tt) →
  do_run_func task (machine r1) = true →
  timed_run task (machine r1) = (m2, Some e) →
  caught_exit_code e = None →
  _run_helper starting_tasks do_run_func false r
    = (mkRun m2 (events r1), Raise e)
  ∧ saves (events r1) = saves (events r).
Proof.
  intros Hsched Hpre Hdo Hrun Hcode. split.
  - rewrite _run_helper_unfold, Hsched. apply bind_raise.
    rewrite for_each_app, Hpre. simpl. apply bind_raise.
    unfold run_task. unfold mbind, M_bind, bind, get, on_machine.
    rewrite Hdo, Hrun. simpl. by rewrite Hcode.
  - apply for_each_run_task_events in Hpre. rewrite Hpre. unfold started.
    simpl. by rewrite saves_app, app_nil_r.
Qed.

(** X11. Asked to run an identifier that is neither the [creates] nor the
    alias of a task (a tag, for instance), [inner_execute] raises the
    [AttributeError] of [get_tasks] before anything is run, logged or
    saved. *)
Theorem inner_execute_unknown_identifier (id : string) (force dry_run : bool)
    (r : Run) :
  task_dict (self (machine r)) !! id = None →
  inner_execute (Some id) force dry_run r
  = (r, Raise (AttributeError "tag_dict")).
Proof.
  intros Hid. unfold inner_execute, subgraph_needed_for, collect_tasks,
    get_tasks.
  unfold mbind, M_bind, bind, get, on_machine. rewrite Hid.
  by destruct r as [[g w] evs].
Qed.

(** X12. A dry run of the whole workflow, forced or not, returns without
    any call of [save_state], and leaves the graph marked successful. *)
Theorem inner_execute_dry_run (force : bool) (r : Run) :
  ∃ r',
    inner_execute None force true r = (r', Ok tt)
    ∧ successful (self (machine r')) = true
    ∧ saves (events r') = saves (events r).
Proof.
  assert (∀ starting_tasks do_run_func,
            ∃ r1, _run_helper starting_tasks do_run_func true r = (r1, Ok tt)
                  ∧ saves (events r1) = saves (events r)) as Hrun.
  { intros starting_tasks do_run_func.
    destruct (for_each_run_task_mock do_run_func
                (scheduled starting_tasks r) (started starting_tasks r))
      as (r1 & Hloop & Hev).
    exists r1. rewrite _run_helper_unfold, (bind_ok _ _ _ _ _ Hloop).
    split; [done|]. rewrite Hev. unfold started. simpl.
    by rewrite saves_app, app_nil_r. }
  assert (∃ r1, (if force then run_all true else run_all_out_of_sync true) r
                = (r1, Ok tt)
                ∧ saves (events r1) = saves (events r)) as (r1 & Hr1 & Hev).
  { destruct force; apply Hrun. }
  eexists. unfold inner_execute.
  unfold mbind at 1 2, M_bind at 1 2, bind at 1 2. simpl.
  rewrite Hr1. unfold on_machine, on_self, modify. simpl. done.
Qed.

End scheduler_extras.

Lemma other_exception_example :
  ∃ m2,
    @run_all example_runtime example_crashing_collaborators false
      example_crashing
    = (mkRun m2
         [Info (@duration_message example_runtime
                  example_crashing_collaborators (machine example_crashing)
                  [0; 1] (Some (λ msg, msg)))],
       Raise TypeError)
    ∧ state_csv (world m2) = None.
Proof.
  pose (do_run := λ (task : Task) (_ : Machine),
          negb (@is_pseudotask example_crashing_collaborators task)).
  pose (pre := take 1 (task_list (self (machine example_crashing)))).
  pose (task := default (Task_new decl_a)
                  (task_list (self (machine example_crashing)) !! 1)).
  pose (r1 := (for_each pre
                 (@run_task example_runtime example_crashing_collaborators
                    do_run false)
                 (@started example_runtime example_crashing_collaborators
                    [0; 1] example_crashing)).1).
  destruct (@other_exception_leaves_without_saving example_runtime
              example_crashing_collaborators [0; 1] do_run
              example_crashing r1 pre [] task (machine r1) TypeError)
    as [Hrun _].
  - by vm_compute.
  - by vm_compute.
  - by vm_compute.
  - by vm_compute.
  - by vm_compute.
  - exists (machine r1). split; [|by vm_compute].
    etrans; [exact Hrun|]. by vm_compute.
Defined.

Lemma inner_execute_tag_example :
  @inner_execute example_runtime example_collaborators (Some "t") false false
    (mkRun example_constructed [])
  = (mkRun example_constructed [], Raise (AttributeError "tag_dict")).
Proof.
  apply (@inner_execute_unknown_identifier example_runtime
           example_collaborators "t" false false
           (mkRun example_constructed [])).
  by vm_compute.
Defined.

(** * Further properties of the estimate and of the out-of-sync tasks *)

Section estimate_extras.
Context `{PyRuntime} `{Collaborators}.

Lemma string_app_assoc (s1 s2 s3 : string) :
  (s1 +:+ s2) +:+ s3 = s1 +:+ (s2 +:+ s3).
Proof.
  induction s1 as [|a s1 IH]; [done|].
  change (String a ((s1 +:+ s2) +:+ s3) = String a (s1 +:+ (s2 +:+ s3))).
  by rewrite IH.
Qed.

Lemma min_duration_unknown g (tasks : list Task) :
  task_durations g = ∅ →
  foldl (λ acc task,
           (acc + default 0%float (task_durations g !! Task_id task))%float)
        0%float tasks = 0%float.
Proof.
  intros Hd. induction tasks as [|task tasks IH]; simpl; [done|].
  rewrite Hd, lookup_empty. simpl. rewrite Hd in IH. exact IH.
Qed.

Lemma count_task_unknown g (tasks : list Task) : ∀ n_unknown n_tasks,
  task_durations g = ∅ →
  foldl (count_task g) (0%float, n_unknown, n_tasks) tasks
  = (0%float, n_unknown + count_real tasks, n_tasks + count_real tasks).
Proof.
  unfold count_real.
  induction tasks as [|task tasks IH]; intros n_unknown n_tasks Hd.
  - simpl. by rewrite !Nat.add_0_r.
  - assert (count_task g (0%float, n_unknown, n_tasks) task
            = if is_pseudotask task then (0%float, n_unknown, n_tasks)
              else (0%float, S n_unknown, S n_tasks)) as Hstep.
    { unfold count_task. by rewrite Hd, lookup_empty. }
    cbn [foldl]. rewrite Hstep, filter_cons.
    destruct (is_pseudotask task) eqn:Hp.
    + rewrite decide_False by done. by apply IH.
    + rewrite decide_True by done. rewrite IH by done.
      simpl. f_equal; [f_equal|]; lia.
Qed.

(** X13. As long as no duration has been recorded (a first run), the
    estimate for a non-empty list of tasks is indeterminate: every task of
    the downstream traversal that is no pseudotask is counted as unknown,
    and the message ends with "an indeterminate amount of time". *)
Theorem first_run_estimate_is_indeterminate (m : Machine)
    (tasks : list handle) (paint : string → string) :
  task_durations (self m) = ∅ →
  tasks ≠ [] →
  duration_message m tasks (Some paint)
  = let n := count_real (tasks_of (self m)
                           (iter_graph (self m) (Some tasks) true)) in
    paint ((if bool_decide (0 < n)
            then pretty n +:+ " new tasks with unknown durations." +:+ newline
            else "")
           +:+ "The remaining " +:+ pretty (length tasks) +:+ "-"
           +:+ pretty n +:+ " tasks need to be executed," +:+ newline
           +:+ "which will take an indeterminate amount of time.").
Proof.
  intros Hd Htasks. unfold duration_message.
  rewrite bool_decide_eq_false_2 by (by destruct tasks).
  rewrite min_duration_unknown, (count_task_unknown _ _ 0 0) by done.
  cbv zeta. change ((0 =? 0)%float) with true. cbn [andb].
  f_equal. rewrite !string_app_assoc, !Nat.add_0_l.
  by case_bool_decide.
Qed.

End estimate_extras.

Lemma first_run_estimate_example :
  @duration_message example_runtime example_collaborators
    example_constructed [0] (Some (λ msg, msg))
  = "2 new tasks with unknown durations." +:+ newline
      +:+ "The remaining 1-2 tasks need to be executed," +:+ newline
      +:+ "which will take an indeterminate amount of time.".
Proof.
  rewrite (@first_run_estimate_is_indeterminate example_runtime
             example_collaborators example_constructed [0] (λ msg, msg));
    [by vm_compute|by vm_compute|done].
Defined.

Section out_of_sync.
Context `{PyRuntime} `{Collaborators}.

(** In a well-linked graph without cycle every task can be reached from a
    source task. *)
Lemma reachable_from_source g k :
  well_linked g → acyclic g → k < length (task_list g) →
  ∃ s, s ∈ get_source_tasks g ∧ rtc (reaches g true) s k.
Proof.
  intros Hwl Hacyclic. induction (acyclic_sn g k Hwl Hacyclic) as [k _ IH].
  intros Hk. destruct (lookup_lt_is_Some_2 _ _ Hk) as [task Htask].
  destruct (decide (upstream_tasks task = ∅)) as [Hsrc|Hup].
  - exists k. split; [|apply rtc_refl]. apply elem_of_get_source_tasks. eauto.
  - apply set_choose_L in Hup as [h Hh].
    assert (h < length (task_list g)) as Hhv.
    { eapply (links_in_graph g Hwl); [done|]. set_solver. }
    destruct (IH h) as (s & Hs & Hreach); [by exists task|done|].
    exists s. split; [done|]. eapply rtc_r; [done|].
    unfold reaches, updownset.
    destruct (task_list g !! h) as [other|] eqn:Hother.
    + by apply (links_mutual g Hwl h other k task).
    + apply lookup_ge_None in Hother. lia.
Qed.

Lemma reachable_valid g s k :
  well_linked g → s < length (task_list g) → rtc (reaches g true) s k →
  k < length (task_list g).
Proof.
  intros Hwl Hs Hreach. induction Hreach as [s|s x k Hsx _ IH]; [done|].
  apply IH. unfold reaches, updownset in Hsx.
  destruct (task_list g !! s) as [task|] eqn:Htask; [|set_solver].
  eapply (links_in_graph g Hwl); [done|]. set_solver.
Qed.

(** X14. In a well-linked graph without cycle, [get_out_of_sync_tasks]
    returns each task that is no pseudotask and not in sync, once, and
    nothing else. *)
Theorem get_out_of_sync_tasks_exact (m : Machine) :
  well_linked (self m) → acyclic (self m) →
  NoDup (get_out_of_sync_tasks m)
  ∧ ∀ k, k ∈ get_out_of_sync_tasks m
         ↔ ∃ task, task_list (self m) !! k = Some task
                   ∧ is_pseudotask task = false
                   ∧ in_sync task m = false.
Proof.
  intros Hwl Hacyclic.
  destruct (iter_graph_reachable (self m) None true) as [Hreach Hnd].
  unfold get_out_of_sync_tasks. split.
  - apply NoDup_filter, Hnd. apply set_iter_NoDup.
  - intros k. rewrite list_elem_of_filter, Hreach. unfold out_of_sync.
    split.
    + intros [Hout _]. destruct (task_list (self m) !! k) as [task|]; [|done].
      exists task. apply andb_prop_elim in Hout as [Hp Hs].
      split_and!; [done| |].
      * by destruct (is_pseudotask task).
      * by destruct (in_sync task m).
    + intros (task & Hk & Hp & Hs). rewrite Hk, Hp, Hs. split; [done|].
      destruct (reachable_from_source (self m) k Hwl Hacyclic)
        as (s & Hsrc & Hrtc); [by eapply lookup_lt_Some|].
      exists s. split; [|done]. simpl. by apply elem_of_set_iter.
Qed.

End out_of_sync.

Lemma get_out_of_sync_tasks_example :
  NoDup (@get_out_of_sync_tasks example_runtime example_collaborators
           example_diamond)
  ∧ @get_out_of_sync_tasks example_runtime example_collaborators
      example_diamond = [0; 2; 1; 3].
Proof.
  destruct (@get_out_of_sync_tasks_exact example_runtime
              example_collaborators example_diamond
              example_diamond_well_linked example_diamond_acyclic)
    as [Hnd _].
  split; [exact Hnd|by vm_compute].
Defined.

(** * Further properties of construction *)

Lemma for_each_rel {S A} (R : relation S) `{!PreOrder R} (l : list A)
    (body : A → M S unit) :
  (∀ x s, x ∈ l → R s (body x s).1) → ∀ s, R s (for_each l body s).1.
Proof.
  induction l as [|x l IH]; intros Hbody s; simpl; [reflexivity|].
  unfold mbind, M_bind, bind.
  assert (x ∈ x :: l) as Hx by (apply elem_of_cons; by left).
  specialize (Hbody x s Hx) as Hstep.
  destruct (body x s) as [s1 [[]|e]]; simpl in *; [|done].
  etrans; [done|]. apply IH. intros y s2 Hy. apply Hbody.
  apply elem_of_cons. by right.
Qed.

Lemma bind_rel {S A B} (R : relation S) `{!PreOrder R} (c : M S A)
    (k : A → M S B) s :
  R s (c s).1 → (∀ a s1, R s1 (k a s1).1) → R s ((c ≫= k) s).1.
Proof.
  intros Hc Hk. unfold mbind, M_bind, bind.
  destruct (c s) as [s1 [a|e]]; simpl in *; [|done].
  etrans; [done|]. apply Hk.
Qed.

(** When a loop returns, every element of the list has been handed to
    the body in some state of the loop, and the body has returned. *)
Lemma for_each_ok_each {S A} (R : relation S) `{!PreOrder R} (l : list A)
    (body : A → M S unit) :
  (∀ x s, x ∈ l → R s (body x s).1) →
  ∀ s s', for_each l body s = (s', Ok tt) →
  R s s' ∧ ∀ x, x ∈ l →
             ∃ s1 s2, R s s1 ∧ body x s1 = (s2, Ok tt) ∧ R s2 s'.
Proof.
  induction l as [|x l IH]; intros Hbody s s' Hrun; simpl in Hrun.
  - injection Hrun as <-. split; [reflexivity|]. intros x Hx.
    by apply elem_of_nil in Hx.
  - apply bind_inv_ok in Hrun as (s1 & [] & Hx & Hrun).
    assert (R s s1) as Hs1.
    { assert (x ∈ x :: l) as Hin by (apply elem_of_cons; by left).
      specialize (Hbody x s Hin). by rewrite Hx in Hbody. }
    destruct (IH (λ y s2 Hy, Hbody y s2 (proj2 (elem_of_cons _ _ _)
                                           (or_intror Hy))) s1 s' Hrun)
      as [Hs' Hall].
    split; [by etrans|].
    intros y [->|Hy]%elem_of_cons.
    + exists s, s1. split; [reflexivity|done].
    + destruct (Hall y Hy) as (s2 & s3 & H2 & Hy' & H3).
      exists s2, s3. split; [by etrans|done].
Qed.

(** Being well linked is a matter of the links and of the length of the
    task list. *)
Lemma well_linked_links g g' :
  links <$> task_list g' = links <$> task_list g →
  well_linked g → well_linked g'.
Proof.
  intros Heq [Hin Hmut].
  assert (length (task_list g') = length (task_list g)) as Hlen.
  { apply (f_equal length) in Heq. by rewrite !length_fmap in Heq. }
  assert (∀ k t', task_list g' !! k = Some t' →
            ∃ t, task_list g !! k = Some t ∧ links t = links t') as Hsame.
  { intros k t' Hk.
    assert ((links <$> task_list g) !! k = Some (links t')) as Hl
      by (by rewrite <- Heq, list_lookup_fmap, Hk).
    rewrite list_lookup_fmap in Hl.
    destruct (task_list g !! k) as [t|]; [|done]. exists t.
    split; [done|]. simpl in Hl. congruence. }
  split.
  - intros k task h Hk Hh. destruct (Hsame k task Hk) as (t & Ht & Hl).
    unfold links in Hl. injection Hl as Hu Hd.
    rewrite Hlen. apply (Hin k t h Ht). by rewrite Hu, Hd.
  - intros k task h other Hk Hh.
    destruct (Hsame k task Hk) as (t & Ht & Hl).
    destruct (Hsame h other Hh) as (o & Ho & Hl').
    unfold links in Hl, Hl'. injection Hl as Hu Hd. injection Hl' as Hu' Hd'.
    rewrite <- Hd, <- Hu'. by apply Hmut.
Qed.

Lemma links_alter (f : Task → Task) k (l : list Task) :
  (∀ t, links (f t) = links t) → links <$> alter f k l = links <$> l.
Proof.
  intros Hf. revert k. induction l as [|t l IH]; intros [|k]; try done.
  - cbn. by rewrite Hf.
  - cbn. f_equal. apply IH.
Qed.

Lemma depends_alter (f : Task → Task) k (l : list Task) :
  (∀ t, depends (f t) = depends t) → depends <$> alter f k l = depends <$> l.
Proof.
  intros Hf. revert k. induction l as [|t l IH]; intros [|k]; try done.
  - cbn. by rewrite Hf.
  - cbn. f_equal. apply IH.
Qed.

Lemma add_task_dependency_lookup (l : list Task) k h i t' :
  alter (set_downstream (λ s, s ∪ {[k]})) h
    (alter (set_upstream (λ s, s ∪ {[h]})) k l) !! i = Some t' →
  ∃ t, l !! i = Some t
       ∧ depends t' = depends t
       ∧ upstream_tasks t'
         = (if decide (i = k) then upstream_tasks t ∪ {[h]}
            else upstream_tasks t)
       ∧ downstream_tasks t'
         = (if decide (i = h) then downstream_tasks t ∪ {[k]}
            else downstream_tasks t).
Proof.
  intros Hi. rewrite !list_lookup_alter in Hi.
  destruct (decide (h = i)) as [->|?], (decide (k = i)) as [->|?];
    destruct (l !! i) as [t|] eqn:Ht; simplify_eq/=;
    eexists; (split; [reflexivity|]); simpl;
    repeat case_decide; done.
Qed.

(** Linking the task [k] to the task [h] it depends on keeps the graph
    well linked. *)
Lemma add_task_dependency_well_linked g k h :
  k < length (task_list g) → h < length (task_list g) →
  well_linked g →
  well_linked (add_task_dependency k h g).1.
Proof.
  intros Hk Hh [Hin Hmut]. unfold add_task_dependency.
  unfold mbind, M_bind, bind, modify. simpl.
  pose proof (add_task_dependency_lookup (task_list g) k h) as Hlook.
  split; simpl; rewrite ?length_alter.
  - intros i task x Hi Hx.
    destruct (Hlook i task Hi) as (t & Ht & _ & Hu & Hd).
    rewrite Hu, Hd in Hx. specialize (Hin i t x Ht).
    repeat case_decide; set_solver.
  - intros i task j other Hi Hj.
    destruct (Hlook i task Hi) as (t & Ht & _ & _ & Hd).
    destruct (Hlook j other Hj) as (o & Ho & _ & Hu & _).
    rewrite Hd, Hu. specialize (Hmut i t j o Ht Ho).
    repeat case_decide; set_solver.
Qed.

Lemma get_bind {S B} (k : S → M S B) s : (get ≫= k) s = k s s.
Proof. reflexivity. Qed.

Lemma bind_preserves {S A B} (P : S → Prop) (c : M S A) (k : A → M S B) s :
  P s → (∀ s, P s → P (c s).1) → (∀ a s, P s → P (k a s).1) →
  P ((c ≫= k) s).1.
Proof.
  intros Hs Hc Hk. unfold mbind, M_bind, bind. specialize (Hc s Hs).
  destruct (c s) as [s1 [a|e]]; simpl in *; [by apply Hk|done].
Qed.

Lemma consistent_transfer g g' :
  task_dict g' = task_dict g →
  links <$> task_list g' = links <$> task_list g →
  consistent g → consistent g'.
Proof.
  intros Hd Hl [Hvalid Hlinked]. split; [|by eapply well_linked_links].
  intros key h. rewrite Hd. intros Hkey%Hvalid.
  apply (f_equal length) in Hl. rewrite !length_fmap in Hl. by rewrite Hl.
Qed.

(** [add] keeps the graph consistent, whether it returns or raises: the
    new task has no link, and a new key denotes the task just appended. *)
Lemma consistent_append g g' task :
  links task = (∅, ∅) →
  task_list g' = task_list g ++ [task] →
  (∀ key h, task_dict g' !! key = Some h →
            task_dict g !! key = Some h ∨ h = length (task_list g)) →
  consistent g → consistent g'.
Proof.
  intros Hempty Hl Hd [Hvalid [Hin Hmut]].
  unfold links in Hempty. injection Hempty as Hup Hdown.
  assert (∀ i t, task_list g' !! i = Some t →
            (task_list g !! i = Some t ∧ i < length (task_list g))
            ∨ (i = length (task_list g) ∧ t = task)) as Hlook.
  { intros i t. rewrite Hl. intros [Hi|[? Hi]]%lookup_app_Some.
    - left. split; [done|]. by eapply lookup_lt_Some.
    - right. apply list_lookup_singleton_Some in Hi as [? ->].
      split; [lia|done]. }
  split; [|split].
  - intros key h Hkey. rewrite Hl, length_app. simpl.
    destruct (Hd key h Hkey) as [Hold%Hvalid| ->]; lia.
  - intros i t h Hi Hh. rewrite Hl, length_app. simpl.
    destruct (Hlook i t Hi) as [[Hold _]|[_ ->]].
    + specialize (Hin i t h Hold Hh). lia.
    + rewrite Hup, Hdown in Hh. set_solver.
  - intros i t j o Hi Hj.
    destruct (Hlook i t Hi) as [[Hi' Hlt]|[-> ->]],
             (Hlook j o Hj) as [[Hj' Hlt']|[-> ->]].
    + by apply Hmut.
    + rewrite Hup. split; [|set_solver]. intros Hdn.
      assert (length (task_list g) < length (task_list g)); [|lia].
      apply (Hin i t _ Hi'). set_solver.
    + rewrite Hdown. split; [set_solver|]. intros Hu.
      assert (length (task_list g) < length (task_list g)); [|lia].
      apply (Hin j o _ Hj'). set_solver.
    + rewrite Hup, Hdown. set_solver.
Qed.

Lemma add_consistent task g :
  links task = (∅, ∅) → consistent g → consistent (add task g).1.
Proof.
  intros Hempty Hg. apply (consistent_append g _ task Hempty); [| |done].
  - apply add_task_list.
  - intros key h. unfold add. unfold_monad. simpl.
    destruct (alias task) as [a|]; simpl; repeat case_bool_decide; simpl;
      rewrite ?lookup_insert_Some; naive_solver.
Qed.

Lemma dereference_task_links g task task' :
  dereference_task g task = Ok task' → links task' = links task.
Proof.
  unfold dereference_task. intros Hd.
  destruct (depends task); simpl in Hd.
  - destruct (_dereference_alias_helper g _); by injection Hd as <-.
  - by injection Hd as <-.
  - destruct (dereference_tuple g _); [by injection Hd as <-|done].
Qed.

Lemma links_insert k task task' (l : list Task) :
  l !! k = Some task → links task' = links task →
  links <$> <[k := task']> l = links <$> l.
Proof.
  intros Hk Heq. rewrite list_fmap_insert, Heq.
  apply list_insert_id. by rewrite list_lookup_fmap, Hk.
Qed.

Lemma _dereference_depends_aliases_consistent g :
  consistent g → consistent (_dereference_depends_aliases g).1.
Proof.
  intros Hg. unfold _dereference_depends_aliases. rewrite get_bind.
  apply for_each_preserves; [|done]. clear. intros k g Hg. cbv beta.
  rewrite get_bind. destruct (task_list g !! k) as [task|] eqn:Hk; [|done].
  destruct (dereference_task g task) as [task'|e] eqn:Hd; [|done].
  apply (consistent_transfer g); [done| |done]. simpl.
  eapply links_insert; [done|]. by eapply dereference_task_links.
Qed.

Section construction_extras.
Context `{PyRuntime} `{Collaborators}.

Lemma _link_dependency_helper_consistent k dep m :
  k < length (task_list (self m)) → consistent (self m) →
  consistent (self (_link_dependency_helper k dep m).1)
  ∧ length (task_list (self (_link_dependency_helper k dep m).1))
    = length (task_list (self m)).
Proof.
  intros Hk Hm. destruct dep as [d|]; [|done]. simpl. rewrite get_bind.
  destruct (task_dict (self m) !! d) as [h|] eqn:Hd.
  - unfold on_self.
    pose proof (add_task_dependency_well_linked (self m) k h Hk) as Hadd.
    assert (h < length (task_list (self m))) as Hh by by eapply (proj1 Hm).
    specialize (Hadd Hh (proj2 Hm)).
    assert (task_dict (add_task_dependency k h (self m)).1
            = task_dict (self m)) as Hdict by done.
    assert (length (task_list (add_task_dependency k h (self m)).1)
            = length (task_list (self m))) as Hlen.
    { unfold add_task_dependency. unfold_monad. simpl.
      by rewrite !length_alter. }
    destruct (add_task_dependency k h (self m)) as [g r]. simpl in *.
    split; [|done]. split; [|done].
    intros key h'. rewrite Hdict, Hlen. apply (proj1 Hm).
  - by destruct (os_path_exists _ _).
Qed.

Lemma _link_dependencies_consistent m :
  consistent (self m) → consistent (self (_link_dependencies m).1).
Proof.
  intros Hm. unfold _link_dependencies. rewrite get_bind.
  apply (for_each_preserves (λ m, consistent (self m))); [|done].
  clear. intros k m Hm. cbv beta. rewrite get_bind.
  destruct (task_list (self m) !! k) as [task|] eqn:Hk; [|done].
  apply lookup_lt_Some in Hk.
  set (P := λ m : Machine,
         consistent (self m) ∧ k < length (task_list (self m))).
  assert (∀ (f : TaskGraph → TaskGraph) (m : Machine),
            (∀ g, task_dict (f g) = task_dict g) →
            (∀ g, links <$> task_list (f g) = links <$> task_list g) →
            P m → P (mkMachine (f (self m)) (world m))) as Hframe.
  { intros f m0 Hd Hl [Hc Hlt]. split.
    - apply (consistent_transfer (self m0)); [apply Hd|apply Hl|done].
    - simpl. specialize (Hl (self m0)). apply (f_equal length) in Hl.
      rewrite !length_fmap in Hl. by rewrite Hl. }
  assert (∀ names m, P m → P (on_self (get_or_create names) m).1) as Hgoc.
  { intros names m0 Hm0. by apply (Hframe (set_resource_dict _)). }
  assert (∀ d c m, P m →
            P (on_self (modify (set_task_list
                 (λ l, alter (set_resources d c) k l))) m).1) as Hres.
  { intros d c m0 Hm0.
    apply (Hframe (set_task_list (λ l, alter (set_resources d c) k l)));
      [done| |done].
    intros g. simpl. by apply links_alter. }
  match goal with
  | |- consistent (self ?m') => enough (P m') as [? _] by done
  end.
  apply bind_preserves; [done|by intros; apply Hgoc|]. intros dr m1 Hm1.
  apply bind_preserves; [done|by intros; apply Hgoc|]. intros cr m2 Hm2.
  apply bind_preserves; [done|by intros; apply Hres|]. intros [] m3 Hm3.
  apply bind_preserves; [done| |].
  - intros m4 Hm4. destruct (is_pseudotask task); [|done].
    apply bind_preserves; [done|by intros; apply Hres|]. intros [] m5 Hm5.
    by apply (Hframe (set_resource_dict _)).
  - intros [] m4 Hm4. apply for_each_preserves; [|done].
    intros dep m5 [Hc Hlt].
    destruct (_link_dependency_helper_consistent k dep m5 Hlt Hc) as [? Hl].
    split; [done|]. by rewrite Hl.
Qed.

Lemma _load_state_consistent m :
  consistent (self m) → consistent (self (_load_state m).1).
Proof.
  intros Hm. unfold _load_state. rewrite get_bind.
  destruct (read_from_storage _ _) as [table|e]; [|done].
  destruct (parse_durations _) as [parsed|]; [|done].
  by apply (consistent_transfer (self m)).
Qed.

(** X15. The graph the constructor leaves, whether it returns or raises,
    is well linked (every link stays within the graph, and a task is
    downstream of another exactly when the other is upstream of it), and
    every key of [task_dict] denotes a task of [task_list]. *)
Theorem constructed_graph_is_well_linked path kws m :
  well_linked (self (TaskGraph_init path kws m).1)
  ∧ task_dict_valid (self (TaskGraph_init path kws m).1).
Proof.
  destruct (TaskGraph_init_unfold path kws m) as (w0 & _ & ->).
  enough (consistent
            (self ((for_each kws (λ kw, on_self (Task_init kw));;
                    on_self _dereference_depends_aliases;;
                    _link_dependencies;;
                    _load_state) (mkMachine (empty_graph path) w0)).1))
    as [? ?] by done.
  apply (bind_preserves (λ m, consistent (self m))).
  - split; [done|]. split.
    + intros k task h Hk. by cbn in Hk.
    + intros k task h other Hk. by cbn in Hk.
  - intros m0 Hm0. apply (for_each_preserves (λ m, consistent (self m)));
      [|done].
    intros kw m1 Hm1. unfold on_self, Task_init.
    pose proof (add_consistent (Task_new kw) (self m1) eq_refl Hm1) as Hadd.
    by destruct (add (Task_new kw) (self m1)).
  - intros [] m0 Hm0. apply (bind_preserves (λ m, consistent (self m)));
      [done| |].
    + intros m1 Hm1. unfold on_self.
      pose proof (_dereference_depends_aliases_consistent _ Hm1) as Hd.
      by destruct (_dereference_depends_aliases (self m1)).
    + intros [] m1 Hm1. apply (bind_preserves (λ m, consistent (self m)));
        [done| |].
      * intros. by apply _link_dependencies_consistent.
      * intros. by apply _load_state_consistent.
Qed.

#[local] Instance links_grow_preorder : PreOrder links_grow.
Proof.
  split.
  - intros m. split; [done|]. intros k t Hk. by exists t.
  - intros m1 m2 m3 [Hf1 Hg1] [Hf2 Hg2]. split; [congruence|].
    intros k t Hk. destruct (Hg1 k t Hk) as (t1 & Hk1 & Hs1).
    destruct (Hg2 k t1 Hk1) as (t2 & Hk2 & Hs2).
    exists t2. split; [done|]. set_solver.
Qed.

Lemma links_grow_lookup m m' k t' :
  links_grow m m' → task_list (self m') !! k = Some t' →
  ∃ t, task_list (self m) !! k = Some t
       ∧ depends t' = depends t
       ∧ upstream_tasks t ⊆ upstream_tasks t'.
Proof.
  intros [Hf Hg] Hk. unfold linking_frame in Hf.
  injection Hf as _ _ _ Hdep.
  assert ((depends <$> task_list (self m)) !! k = Some (depends t')) as Hd
    by (by rewrite <- Hdep, list_lookup_fmap, Hk).
  rewrite list_lookup_fmap in Hd.
  destruct (task_list (self m) !! k) as [t|] eqn:Ht; [|done].
  exists t. split; [done|]. split; [simpl in Hd; congruence|].
  destruct (Hg k t Ht) as (t1 & Hk1 & Hsub).
  rewrite Hk in Hk1. by injection Hk1 as <-.
Qed.

Lemma links_grow_frame m m' :
  links_grow m m' →
  task_dict (self m') = task_dict (self m)
  ∧ config_path (self m') = config_path (self m)
  ∧ world m' = world m.
Proof. intros [Hf _]. unfold linking_frame in Hf. by injection Hf. Qed.

Lemma depends_list_depends t t' :
  depends t' = depends t → depends_list t' = depends_list t.
Proof. unfold depends_list. by intros ->. Qed.

Lemma alter_grow (f : Task → Task) k (l : list Task) i t :
  (∀ t, upstream_tasks t ⊆ upstream_tasks (f t)) →
  l !! i = Some t →
  ∃ t', alter f k l !! i = Some t' ∧ upstream_tasks t ⊆ upstream_tasks t'.
Proof.
  intros Hf Hi. rewrite list_lookup_alter.
  case_decide; subst; rewrite Hi; simpl; eauto.
Qed.

Lemma alter_lookup_inv (f : Task → Task) k (l : list Task) i t' :
  alter f k l !! i = Some t' →
  ∃ t, l !! i = Some t ∧ (t' = t ∨ t' = f t).
Proof.
  rewrite list_lookup_alter. case_decide; subst.
  - destruct (l !! i) as [t|]; [|done]. intros [= <-]. eauto.
  - eauto.
Qed.

(** A step that only touches the graph, keeps its keys and its path, and
    keeps the [depends] and the upstream links of every task. *)
Lemma links_grow_graph (f : TaskGraph → TaskGraph) m :
  task_dict (f (self m)) = task_dict (self m) →
  config_path (f (self m)) = config_path (self m) →
  depends <$> task_list (f (self m)) = depends <$> task_list (self m) →
  (∀ k t, task_list (self m) !! k = Some t →
     ∃ t', task_list (f (self m)) !! k = Some t'
           ∧ upstream_tasks t ⊆ upstream_tasks t') →
  links_grow m (mkMachine (f (self m)) (world m)).
Proof.
  intros Hd Hc Hdep Hup. split; [|done].
  unfold linking_frame. simpl. by rewrite Hd, Hc, Hdep.
Qed.

Lemma get_or_create_grows names m :
  links_grow m (on_self (get_or_create names) m).1.
Proof.
  apply (links_grow_graph (set_resource_dict _)); try done.
  intros k t Hk. by exists t.
Qed.

Lemma set_resources_grows d c k m :
  links_grow m
    (on_self (modify (set_task_list
       (λ l, alter (set_resources d c) k l))) m).1.
Proof.
  apply (links_grow_graph
           (set_task_list (λ l, alter (set_resources d c) k l))); try done.
  - simpl. by apply depends_alter.
  - intros i t Hi. simpl. by apply alter_grow.
Qed.

Lemma _link_dependency_helper_grows k dep m :
  links_grow m (_link_dependency_helper k dep m).1.
Proof.
  destruct dep as [d|]; [|reflexivity]. simpl. rewrite get_bind.
  destruct (task_dict (self m) !! d) as [h|].
  - apply (links_grow_graph (λ g, (add_task_dependency k h g).1));
      try done.
    + unfold add_task_dependency. unfold_monad. simpl.
      by rewrite !depends_alter.
    + intros i t Hi. unfold add_task_dependency. unfold_monad. simpl.
      destruct (alter_grow (set_upstream (λ s, s ∪ {[h]})) k
                  (task_list (self m)) i t) as (t1 & H1 & S1);
        [intros; simpl; set_solver|done|].
      destruct (alter_grow (set_downstream (λ s, s ∪ {[k]})) h
                  (alter (set_upstream (λ s, s ∪ {[h]})) k
                     (task_list (self m))) i t1)
        as (t2 & H2 & S2); [done|done|].
      exists t2. split; [done|]. set_solver.
  - destruct (os_path_exists _ _); reflexivity.
Qed.

Lemma link_body_grows k m :
  links_grow m
    ((m1 ← get;
      match task_list (self m1) !! k with
      | None => ret tt
      | Some task =>
          dr ← on_self (get_or_create (depends_list task));
          cr ← on_self (get_or_create (creates_list task));
          on_self (modify (set_task_list
                     (λ l, alter (set_resources dr cr) k l)));;
          (if is_pseudotask task then
             on_self (modify (set_task_list
                        (λ l, alter (set_resources dr []) k l)));;
             on_self (modify (set_resource_dict
                        (λ rd, delete (creates task) rd)))
           else ret tt);;
          for_each (depends_list task) (_link_dependency_helper k)
      end) m).1.
Proof.
  rewrite get_bind.
  destruct (task_list (self m) !! k) as [task|]; [|reflexivity].
  apply (bind_rel links_grow); [apply get_or_create_grows|]. intros dr m1.
  apply (bind_rel links_grow); [apply get_or_create_grows|]. intros cr m2.
  apply (bind_rel links_grow); [apply set_resources_grows|]. intros [] m3.
  apply (bind_rel links_grow).
  - destruct (is_pseudotask task); [|reflexivity].
    apply (bind_rel links_grow); [apply set_resources_grows|]. intros [] m4.
    apply (links_grow_graph (set_resource_dict _)); try done.
    intros i t Hi. by exists t.
  - intros [] m4. apply (for_each_rel links_grow). intros dep m5 _.
    apply _link_dependency_helper_grows.
Qed.

(** When the helper returns, the dependency is linked or is a path that
    exists. *)
Lemma _link_dependency_helper_ok k d m m' :
  _link_dependency_helper k (Some d) m = (m', Ok tt) →
  match task_dict (self m) !! d with
  | Some h =>
      ∀ t, task_list (self m) !! k = Some t →
           ∃ t', task_list (self m') !! k = Some t' ∧ h ∈ upstream_tasks t'
  | None =>
      os_path_exists (os_path_join (root_directory (self m)) d) (world m)
      = true
  end.
Proof.
  simpl. rewrite get_bind. destruct (task_dict (self m) !! d) as [h|].
  - unfold on_self, add_task_dependency. unfold_monad. simpl.
    intros [= <-] t Ht. simpl. rewrite !list_lookup_alter.
    repeat case_decide; subst; rewrite ?Ht; simpl;
      try congruence; (eexists; split; [done|]); simpl; set_solver.
  - by destruct (os_path_exists _ _).
Qed.

Lemma links_grow_step {A} (c : M Machine A) m m' a :
  links_grow m (c m).1 → c m = (m', Ok a) → links_grow m m'.
Proof. intros Hg Hc. by rewrite Hc in Hg. Qed.

(** When the linking pass returns, every dependency of every task that
    is a key of [task_dict] has been linked, and every other one is a path
    that exists. *)
Lemma _link_dependencies_links m m3 :
  _link_dependencies m = (m3, Ok tt) →
  links_grow m m3
  ∧ ∀ k task d,
      task_list (self m3) !! k = Some task → Some d ∈ depends_list task →
      match task_dict (self m3) !! d with
      | Some h => h ∈ upstream_tasks task
      | None =>
          os_path_exists (os_path_join (root_directory (self m3)) d)
            (world m3) = true
      end.
Proof.
  unfold _link_dependencies. rewrite get_bind. intros Hrun.
  apply (for_each_ok_each links_grow) in Hrun as [Hgrow Heach];
    [|intros; apply link_body_grows].
  split; [done|]. intros k task d Hk Hd.
  destruct (links_grow_lookup _ _ _ _ Hgrow Hk) as (t0 & Hk0 & _ & _).
  assert (k ∈ seq 0 (length (task_list (self m)))) as Hin.
  { apply elem_of_seq. apply lookup_lt_Some in Hk0. lia. }
  destruct (Heach k Hin) as (s1 & s2 & Hs1 & Hbody & Hs2).
  cbv beta in Hbody. rewrite get_bind in Hbody.
  destruct (links_grow_lookup _ _ _ _ Hs2 Hk) as (t2 & Hk2 & Hdep2 & Hup2).
  pose proof (link_body_grows k s1) as Hs12.
  rewrite get_bind in Hs12.
  destruct (task_list (self s1) !! k) as [task1|] eqn:Hk1.
  2: { injection Hbody as <-. by rewrite Hk2 in Hk1. }
  rewrite Hbody in Hs12. simpl in Hs12.
  destruct (links_grow_lookup _ _ _ _ Hs12 Hk2) as (t1 & Hk1' & Hdep1 & _).
  rewrite Hk1 in Hk1'. injection Hk1' as <-.
  apply bind_inv_ok in Hbody as (sa & dr & Ha & Hbody).
  apply bind_inv_ok in Hbody as (sb & cr & Hb & Hbody).
  apply bind_inv_ok in Hbody as (sc & [] & Hc & Hbody).
  apply bind_inv_ok in Hbody as (sd & [] & Hpseudo & Hbody).
  apply (for_each_ok_each links_grow) in Hbody as [Hgd Hdeps];
    [|intros; apply _link_dependency_helper_grows].
  assert (Some d ∈ depends_list task1) as Hd1.
  { rewrite <- (depends_list_depends task1 task); [done|congruence]. }
  destruct (Hdeps _ Hd1) as (s5 & s6 & H5 & Hhelper & H6).
  pose proof (links_grow_step _ _ _ _
                (_link_dependency_helper_grows k (Some d) s5) Hhelper) as H56.
  assert (links_grow s5 m3) as H53 by (etrans; [done|]; by etrans).
  assert (links_grow s6 m3) as H63 by by etrans.
  destruct (links_grow_frame _ _ H53) as (Hdict & Hconf & Hworld).
  apply _link_dependency_helper_ok in Hhelper.
  unfold root_directory. rewrite Hdict, Hconf, Hworld.
  destruct (task_dict (self s5) !! d) as [h|]; [|done].
  destruct (links_grow_lookup _ _ _ _ H53 Hk) as (t5 & Hk5 & _ & _).
  destruct (Hhelper t5 Hk5) as (t6 & Hk6 & Hh).
  destruct (proj2 H63 k t6 Hk6) as (t' & Hk' & Hsub).
  rewrite Hk in Hk'. injection Hk' as <-. set_solver.
Qed.

Lemma for_each_preserves_in {S A} (P : S → Prop) (l : list A)
    (body : A → M S unit) :
  (∀ x s, x ∈ l → P s → P (body x s).1) → ∀ s, P s → P (for_each l body s).1.
Proof.
  induction l as [|x l IH]; intros Hbody s Hs; simpl; [done|].
  unfold mbind, M_bind, bind.
  assert (x ∈ x :: l) as Hx by (apply elem_of_cons; by left).
  specialize (Hbody x s Hx Hs) as Hstep.
  destruct (body x s) as [s1 [[]|e]]; simpl in *; [|done].
  apply IH; [|done]. intros y s2 Hy. apply Hbody. apply elem_of_cons.
  by right.
Qed.

Lemma links_from_depends_transfer g g' :
  task_dict g' = task_dict g →
  (∀ k t', task_list g' !! k = Some t' →
     ∃ t, task_list g !! k = Some t
          ∧ depends t' = depends t
          ∧ upstream_tasks t' = upstream_tasks t) →
  links_from_depends g → links_from_depends g'.
Proof.
  intros Hd Hl Hg k t' h Hk Hh.
  destruct (Hl k t' Hk) as (t & Ht & Hdep & Hup). rewrite Hup in Hh.
  destruct (Hg k t h Ht Hh) as (d & Hin & Hdict). exists d.
  by rewrite Hd, (depends_list_depends t t').
Qed.

Lemma unlinked_links_from_depends g : unlinked g → links_from_depends g.
Proof. intros Hg k t h Hk Hh. rewrite (Hg k t Hk) in Hh. set_solver. Qed.

Lemma unlinked_transfer g g' :
  links <$> task_list g' = links <$> task_list g →
  unlinked g → unlinked g'.
Proof.
  intros Hl Hg k t' Hk.
  assert ((links <$> task_list g) !! k = Some (links t')) as Hlk
    by (by rewrite <- Hl, list_lookup_fmap, Hk).
  rewrite list_lookup_fmap in Hlk.
  destruct (task_list g !! k) as [t|] eqn:Ht; [|done].
  simpl in Hlk. unfold links in Hlk. injection Hlk as Hup _.
  rewrite <- Hup. by apply (Hg k).
Qed.

Lemma add_unlinked task g :
  upstream_tasks task = ∅ → unlinked g → unlinked (add task g).1.
Proof.
  intros Hempty Hg k t. rewrite add_task_list.
  intros [Hk|[_ Hk]]%lookup_app_Some; [by apply (Hg k)|].
  by apply list_lookup_singleton_Some in Hk as [_ <-].
Qed.

Lemma _dereference_depends_aliases_links g :
  links <$> task_list (_dereference_depends_aliases g).1
  = links <$> task_list g.
Proof.
  unfold _dereference_depends_aliases. rewrite get_bind.
  apply (for_each_preserves
           (λ g', links <$> task_list g' = links <$> task_list g)); [|done].
  intros k g' Hg'. cbv beta. rewrite get_bind.
  destruct (task_list g' !! k) as [task|] eqn:Hk; [|done].
  destruct (dereference_task g' task) as [task'|e] eqn:Hd; [|done].
  simpl. rewrite <- Hg'. eapply links_insert; [done|].
  by eapply dereference_task_links.
Qed.

(** The helper links the task [k] only to a task one of its dependencies
    names. *)
Lemma _link_dependency_helper_sound k task0 dep m :
  dep ∈ depends_list task0 →
  links_from_depends (self m)
  ∧ (∀ t, task_list (self m) !! k = Some t → depends t = depends task0) →
  links_from_depends (self (_link_dependency_helper k dep m).1)
  ∧ (∀ t, task_list (self (_link_dependency_helper k dep m).1) !! k = Some t →
          depends t = depends task0).
Proof.
  intros Hdep [Hm Hk]. destruct dep as [d|]; [|done]. simpl.
  rewrite get_bind.
  destruct (task_dict (self m) !! d) as [h|] eqn:Hd;
    [|by destruct (os_path_exists _ _)].
  unfold on_self, add_task_dependency. unfold_monad. simpl. split.
  - intros i t' h' Hi Hh'. simpl in *.
    destruct (add_task_dependency_lookup _ _ _ _ _ Hi)
      as (t & Ht & Hdp & Hup & _).
    rewrite (depends_list_depends t t' Hdp). rewrite Hup in Hh'.
    case_decide as Hik; [|by apply (Hm i)]. subst i.
    apply elem_of_union in Hh' as [Hold|Hnew]; [by apply (Hm k)|].
    apply elem_of_singleton in Hnew as ->. exists d. split; [|done].
    by rewrite (depends_list_depends task0 t (Hk t Ht)).
  - intros t' Hi.
    destruct (add_task_dependency_lookup _ _ _ _ _ Hi)
      as (t & Ht & Hdp & _).
    rewrite Hdp. by apply Hk.
Qed.

Lemma _link_dependencies_sound m :
  links_from_depends (self m) →
  links_from_depends (self (_link_dependencies m).1).
Proof.
  intros Hm. unfold _link_dependencies. rewrite get_bind.
  apply (for_each_preserves (λ m, links_from_depends (self m))); [|done].
  clear. intros k m Hm. cbv beta. rewrite get_bind.
  destruct (task_list (self m) !! k) as [task|] eqn:Hk; [|done].
  set (P := λ m : Machine,
         links_from_depends (self m)
         ∧ ∀ t, task_list (self m) !! k = Some t → depends t = depends task).
  assert (∀ (f : TaskGraph → TaskGraph) (m : Machine),
            (∀ g, task_dict (f g) = task_dict g) →
            (∀ g i t', task_list (f g) !! i = Some t' →
               ∃ t, task_list g !! i = Some t
                    ∧ depends t' = depends t
                    ∧ upstream_tasks t' = upstream_tasks t) →
            P m → P (mkMachine (f (self m)) (world m))) as Hframe.
  { intros f m0 Hd Hl [Hc Hdep]. split.
    - apply (links_from_depends_transfer (self m0)); [apply Hd|apply Hl|done].
    - simpl. intros t' Ht'. destruct (Hl _ _ _ Ht') as (t & Ht & -> & _).
      by apply Hdep. }
  assert (∀ names m, P m → P (on_self (get_or_create names) m).1) as Hgoc.
  { intros names m0 Hm0. apply (Hframe (set_resource_dict _)); [done| |done].
    intros g i t' Hi. by exists t'. }
  assert (∀ d c m, P m →
            P (on_self (modify (set_task_list
                 (λ l, alter (set_resources d c) k l))) m).1) as Hres.
  { intros d c m0 Hm0.
    apply (Hframe (set_task_list (λ l, alter (set_resources d c) k l)));
      [done| |done].
    intros g i t' Hi. simpl in Hi.
    apply alter_lookup_inv in Hi as (t & Ht & [->| ->]); by exists t. }
  match goal with
  | |- links_from_depends (self ?m') => enough (P m') as [? _] by done
  end.
  assert (P m) as Hstart.
  { split; [done|]. intros t Ht. rewrite Hk in Ht. by injection Ht as <-. }
  apply bind_preserves; [done|by intros; apply Hgoc|]. intros dr m1 Hm1.
  apply bind_preserves; [done|by intros; apply Hgoc|]. intros cr m2 Hm2.
  apply bind_preserves; [done|by intros; apply Hres|]. intros [] m3 Hm3.
  apply bind_preserves; [done| |].
  - intros m4 Hm4. destruct (is_pseudotask task); [|done].
    apply bind_preserves; [done|by intros; apply Hres|]. intros [] m5 Hm5.
    apply (Hframe (set_resource_dict _)); [done| |done].
    intros g i t' Hi. by exists t'.
  - intros [] m4 Hm4. apply for_each_preserves_in; [|done].
    intros dep m5 Hdep Hm5.
    by apply (_link_dependency_helper_sound k task).
Qed.

Lemma _load_state_frame m m' :
  _load_state m = (m', Ok tt) →
  task_list (self m') = task_list (self m)
  ∧ task_dict (self m') = task_dict (self m)
  ∧ config_path (self m') = config_path (self m)
  ∧ world m' = world m.
Proof.
  unfold _load_state. rewrite get_bind.
  destruct (read_from_storage _ _) as [table|e]; [|done].
  destruct (parse_durations _) as [parsed|]; [|done].
  by intros [= <-].
Qed.

(** X16. When the constructor returns, the upstream links of every task
    are exactly what its dependencies name: a dependency that is a key of
    [task_dict] is linked to the task the key denotes, a dependency that is
    no key is a path that exists under the root directory, and every
    upstream task is denoted by one of the dependencies. *)
Theorem constructed_links_follow_depends path kws m m' k task :
  TaskGraph_init path kws m = (m', Ok tt) →
  task_list (self m') !! k = Some task →
  (∀ d, Some d ∈ depends_list task →
     match task_dict (self m') !! d with
     | Some h => h ∈ upstream_tasks task
     | None =>
         os_path_exists (os_path_join (root_directory (self m')) d)
           (world m') = true
     end)
  ∧ (∀ h, h ∈ upstream_tasks task →
       ∃ d, Some d ∈ depends_list task ∧ task_dict (self m') !! d = Some h).
Proof.
  destruct (TaskGraph_init_unfold path kws m) as (w0 & _ & ->).
  intros Hrun Hk.
  apply bind_inv_ok in Hrun as (m1 & [] & Hadd & Hrun).
  apply bind_inv_ok in Hrun as (m2 & [] & Hderef & Hrun).
  apply bind_inv_ok in Hrun as (m3 & [] & Hlink & Hload).
  assert (unlinked (self m1)) as H1.
  { assert (∀ kw m0, unlinked (self m0) →
              unlinked (self (on_self (Task_init kw) m0).1)) as Hstep.
    { intros kw m0 Hm0. unfold on_self, Task_init.
      pose proof (add_unlinked (Task_new kw) (self m0) eq_refl Hm0) as Ha.
      by destruct (add (Task_new kw) (self m0)). }
    pose proof (for_each_preserves (λ m, unlinked (self m)) kws
                  (λ kw, on_self (Task_init kw)) Hstep
                  (mkMachine (empty_graph path) w0)) as Hloop.
    rewrite Hadd in Hloop. apply Hloop. intros i t Hi. by cbn in Hi. }
  assert (unlinked (self m2)) as H2.
  { unfold on_self in Hderef.
    pose proof (_dereference_depends_aliases_links (self m1)) as Hl.
    destruct (_dereference_depends_aliases (self m1)) as [g2 r2].
    injection Hderef as <- _. by apply (unlinked_transfer (self m1)). }
  pose proof (_link_dependencies_sound m2
                (unlinked_links_from_depends _ H2)) as H3.
  rewrite Hlink in H3. simpl in H3.
  destruct (_link_dependencies_links m2 m3 Hlink) as [_ Hall].
  destruct (_load_state_frame m3 m' Hload) as (Hl & Hd & Hc & Hw).
  rewrite Hl in Hk. unfold root_directory. rewrite Hd, Hc, Hw. split.
  - intros d Hin. by apply (Hall k task d).
  - intros h Hh. by apply (H3 k task h).
Qed.

End construction_extras.

Lemma constructed_links_example :
  ∃ m' task,
    TaskGraph_init (H := example_runtime) (H0 := example_collaborators)
      "wf.yaml" [decl_a; decl_b] example_machine = (m', Ok tt)
    ∧ task_list (self m') !! 1 = Some task
    ∧ depends_list task = [Some "a"]
    ∧ upstream_tasks task = {[0]}
    ∧ (∀ d, Some d ∈ depends_list task →
         match task_dict (self m') !! d with
         | Some h => h ∈ upstream_tasks task
         | None =>
             os_path_exists
               (@os_path_join example_runtime
                  (@root_directory example_runtime (self m')) d)
               (world m') = true
         end)
    ∧ (∀ h, h ∈ upstream_tasks task →
         ∃ d, Some d ∈ depends_list task ∧ task_dict (self m') !! d = Some h).
Proof.
  eexists _, _. split; [vm_compute; reflexivity|].
  split; [reflexivity|]. split; [reflexivity|]. split; [reflexivity|].
  apply (@constructed_links_follow_depends example_runtime
           example_collaborators "wf.yaml" [decl_a; decl_b] example_machine
           _ 1 _); [vm_compute; reflexivity|reflexivity].
Defined.

(** * What the constructed graph and the subgraph hold *)

Section kept_by_construction.
Context `{PyRuntime} `{Collaborators}.
Context {B : Type} (f : Task → B).
Hypothesis f_set_depends : ∀ d t, f (set_depends d t) = f t.
Hypothesis f_set_resources : ∀ d c t, f (set_resources d c t) = f t.
Hypothesis f_set_upstream : ∀ s t, f (set_upstream s t) = f t.
Hypothesis f_set_downstream : ∀ s t, f (set_downstream s t) = f t.

Lemma kept_alter (g : Task → Task) k (l : list Task) :
  (∀ t, f (g t) = f t) → f <$> alter g k l = f <$> l.
Proof.
  intros Hg. revert k. induction l as [|t l IH]; intros [|k]; try done.
  - cbn. by rewrite Hg.
  - cbn. f_equal. apply IH.
Qed.

Lemma kept_by_dereference_task g task task' :
  dereference_task g task = Ok task' → f task' = f task.
Proof.
  unfold dereference_task. intros Hd.
  destruct (depends task) as [d|ds|ds].
  - destruct (_dereference_alias_helper g d); by simplify_eq.
  - by simplify_eq.
  - destruct (dereference_tuple g ds); by simplify_eq.
Qed.

Lemma kept_by__dereference_depends_aliases g :
  f <$> task_list (_dereference_depends_aliases g).1 = f <$> task_list g.
Proof.
  unfold _dereference_depends_aliases. rewrite get_bind.
  apply (for_each_preserves
           (λ g', f <$> task_list g' = f <$> task_list g)); [|done].
  intros k g' Hg'. cbv beta. rewrite get_bind.
  destruct (task_list g' !! k) as [task|] eqn:Hk; [|done].
  destruct (dereference_task g' task) as [task'|e] eqn:Hd; [|done].
  simpl. rewrite <- Hg', list_fmap_insert.
  rewrite (kept_by_dereference_task _ _ _ Hd).
  apply list_insert_id. by rewrite list_lookup_fmap, Hk.
Qed.

Lemma kept_by__link_dependency_helper k dependency m :
  f <$> task_list (self (_link_dependency_helper k dependency m).1)
  = f <$> task_list (self m).
Proof.
  destruct dependency as [dep|]; [|done]. simpl. rewrite get_bind.
  destruct (task_dict (self m) !! dep) as [h|].
  - unfold on_self, add_task_dependency. unfold_monad. simpl.
    by rewrite !kept_alter.
  - by destruct (os_path_exists _ _).
Qed.

Lemma kept_by__link_dependencies m :
  f <$> task_list (self (_link_dependencies m).1) = f <$> task_list (self m).
Proof.
  unfold _link_dependencies. rewrite get_bind.
  set (P := λ m' : Machine, f <$> task_list (self m') = f <$> task_list (self m)).
  apply (for_each_preserves P); [|done].
  intros k s Hs. cbv beta. rewrite get_bind.
  destruct (task_list (self s) !! k) as [task|] eqn:Hk; [|done].
  assert (∀ d c m0, P m0 →
            P (on_self (modify (set_task_list
                 (λ l, alter (set_resources d c) k l))) m0).1) as Hres.
  { intros d c m0 Hm0. unfold P in *. simpl. by rewrite kept_alter. }
  apply bind_preserves; [done|by intros|]. intros dr m1 Hm1.
  apply bind_preserves; [done|by intros|]. intros cr m2 Hm2.
  apply bind_preserves; [done|by intros; apply Hres|]. intros [] m3 Hm3.
  apply bind_preserves; [done| |].
  - intros m4 Hm4. destruct (is_pseudotask task); [|done].
    apply bind_preserves; [done|by intros; apply Hres|]. by intros [] m5 Hm5.
  - intros [] m4 Hm4. apply for_each_preserves; [|done].
    intros dep m5 Hm5. unfold P in *.
    by rewrite kept_by__link_dependency_helper.
Qed.

(** When the constructor returns, the graph has one task for each
    declaration, in the order of the declarations, and the task has what
    the constructor of [Task] made of the declaration, as far as [f]
    sees. *)
Lemma kept_by_TaskGraph_init path kws m m' :
  TaskGraph_init path kws m = (m', Ok tt) →
  f <$> task_list (self m') = f <$> (Task_new <$> kws).
Proof.
  intros Hinit.
  destruct (TaskGraph_init_unfold path kws m) as (w0 & _ & Heq).
  rewrite Heq in Hinit. clear Heq.
  apply bind_inv_ok in Hinit as (m1 & [] & Hadd & Hinit).
  apply bind_inv_ok in Hinit as (m2 & [] & Hderef & Hinit).
  apply bind_inv_ok in Hinit as (m3 & [] & Hlink & Hload).
  rewrite on_self_for_each in Hadd. simpl in Hadd.
  destruct (for_each kws Task_init (empty_graph path)) as [g1 [[]|e]] eqn:Hloop;
    [|done].
  injection Hadd as <-.
  pose proof (add_loop_inv kws (empty_graph path) g1) as Hnd.
  destruct (add_loop_ok kws (empty_graph path)) as (g1' & Hloop' & Hl & _).
  { done. } { apply Hnd; [done|apply NoDup_nil_2|done]. }
  assert (g1' = g1) as -> by congruence. simpl in Hl.
  destruct (_load_state_frame m3 m' Hload) as (-> & _).
  pose proof (kept_by__link_dependencies m2) as E2. rewrite Hlink in E2.
  pose proof (kept_by__dereference_depends_aliases g1) as E1.
  unfold on_self in Hderef. simpl in Hderef.
  destruct (_dereference_depends_aliases g1) as [g2 r2]. simpl in E1.
  injection Hderef as <- _. simpl in *. congruence.
Qed.

End kept_by_construction.

Section subgraph_content.
Context `{PyRuntime} `{Collaborators}.

(** X17. When the constructor returns, the graph has one task for each
    declaration, in the order of the declarations; every task carries its
    declaration as [yaml_data], and its [creates] and [alias] are those of
    the declaration. *)
Theorem constructed_tasks_follow_declarations path kws m m' :
  TaskGraph_init path kws m = (m', Ok tt) →
  declared <$> task_list (self m') = declaration_read <$> kws.
Proof.
  intros Hinit.
  rewrite (kept_by_TaskGraph_init declared) with (path := path) (kws := kws)
    (m := m); try done.
  by rewrite <- list_fmap_compose.
Qed.

Lemma collect_tasks_ok g ids : ∀ acc tasks,
  collect_tasks g ids acc = Ok tasks →
  ∃ found, tasks = acc ++ found
           ∧ Forall2 (λ id h, task_dict g !! id = Some h) ids found.
Proof.
  induction ids as [|id ids IH]; intros acc tasks Hc; simpl in Hc.
  - injection Hc as <-. exists []. by rewrite app_nil_r.
  - unfold get_tasks in Hc.
    destruct (task_dict g !! id) as [h|] eqn:Hid; [|done].
    destruct (IH _ _ Hc) as (found & -> & Hall).
    exists (h :: found). split; [by rewrite <- app_assoc|].
    by constructor.
Qed.

(** X18. When [subgraph_needed_for] constructs a subgraph for a nonempty
    list of identifiers, the receiver is as it was, and the subgraph holds
    the declaration of a task exactly when the task is denoted by one of
    the identifiers or can be reached from such a task along the upstream
    links. *)
Theorem subgraph_needed_for_holds_what_is_needed m m' task_id task_ids g' :
  subgraph_needed_for (Some (task_id :: task_ids)) m = (m', Ok (Fresh g')) →
  self m' = self m
  ∧ ∀ decl,
      decl ∈ yaml_data <$> task_list g'
      ↔ ∃ i s k task,
          i ∈ task_id :: task_ids
          ∧ task_dict (self m) !! i = Some s
          ∧ rtc (reaches (self m) false) s k
          ∧ task_list (self m) !! k = Some task
          ∧ yaml_data task = decl.
Proof.
  unfold subgraph_needed_for. rewrite get_bind.
  destruct (collect_tasks (self m) (task_id :: task_ids) []) as [tasks|e] eqn:Hc;
    [|done].
  unfold TaskGraph_new.
  destruct (TaskGraph_init _ _ _) as [mi [[]|e]] eqn:Hinit; [|done].
  intros [= <- <-]. split; [done|]. intros decl.
  rewrite (kept_by_TaskGraph_init yaml_data) with
    (path := config_path (self m))
    (kws := yaml_data <$> tasks_of (self m)
                            (iter_graph (self m) (Some tasks) false))
    (m := mkMachine (empty_graph (config_path (self m))) (world m));
    try done.
  rewrite <- list_fmap_compose.
  change (yaml_data ∘ Task_new) with (@id Declaration). rewrite list_fmap_id.
  destruct (collect_tasks_ok _ _ _ _ Hc) as (found & -> & Hall).
  rewrite app_nil_l. rewrite list_elem_of_fmap.
  pose proof (proj1 (iter_graph_reachable (self m) (Some found) false))
    as Hreach.
  assert (start_tasks (self m) (Some found) false = found) as Hstart.
  { inversion Hall; subst. done. }
  rewrite Hstart in Hreach. split.
  - intros (task & -> & Htask). unfold tasks_of in Htask.
    apply list_elem_of_omap in Htask as (k & Hk & Hlook).
    apply Hreach in Hk as (s & Hs & Hrtc).
    apply list_elem_of_lookup in Hs as [n Hn].
    destruct (Forall2_lookup_r _ _ _ _ _ Hall Hn) as (i & Hi & Hdict).
    exists i, s, k, task. split_and!; try done.
    by eapply list_elem_of_lookup_2.
  - intros (i & s & k & task & Hi & Hdict & Hrtc & Hlook & <-).
    exists task. split; [done|]. unfold tasks_of.
    apply list_elem_of_omap. exists k. split; [|done].
    apply Hreach. exists s. split; [|done].
    apply list_elem_of_lookup in Hi as [n Hn].
    destruct (Forall2_lookup_l _ _ _ _ _ Hall Hn) as (s' & Hs' & Hdict').
    rewrite Hdict in Hdict'. injection Hdict' as <-.
    by eapply list_elem_of_lookup_2.
Qed.

End subgraph_content.

Lemma constructed_tasks_example :
  declared <$> task_list (self example_constructed)
  = declaration_read <$> [decl_a; decl_b].
Proof.
  apply (@constructed_tasks_follow_declarations example_runtime
           example_collaborators "wf.yaml" [decl_a; decl_b] example_machine).
  vm_compute. reflexivity.
Defined.

Lemma subgraph_needed_for_a_example :
  ∃ m' g',
    example_needed_for_a = (m', Ok (Fresh g'))
    ∧ yaml_data <$> task_list g' = [decl_a]
    ∧ self m' = self example_constructed
    ∧ ∀ decl,
        decl ∈ yaml_data <$> task_list g'
        ↔ ∃ i s k task,
            i ∈ ["a"]
            ∧ task_dict (self example_constructed) !! i = Some s
            ∧ rtc (@reaches example_runtime (self example_constructed) false)
                s k
            ∧ task_list (self example_constructed) !! k = Some task
            ∧ yaml_data task = decl.
Proof.
  eexists _, _. split; [vm_compute; reflexivity|].
  split; [reflexivity|].
  apply (@subgraph_needed_for_holds_what_is_needed example_runtime
           example_collaborators example_constructed _ "a" [] _).
  vm_compute. reflexivity.
Defined.
